(** * Compact parallel cuckoo hash table: a shallow embedding of
    [include/cuckoo.cuh] and the properties of its specification.

    Integers of the CUDA code are values of [Z]; every conversion to a
    fixed-width unsigned type is written [wrap w].  Device memory (the
    [rows] array, a key buffer, a result buffer) is a [list] read with
    stdpp's lookup and updated with stdpp's insert.  A tile of
    [bucket_size] lanes is the list of its lanes in rank order, so that a
    ballot is a list of booleans.  The cooperative functions are embedded
    for one tile at a time (the sequential embedding): an atomic operation
    reads and writes the array at once. *)

From Stdlib Require Import ZArith Lia Bool.
From stdpp Require Import base list sorting.

Local Open Scope Z_scope.

(** ** Bits utility *)

(** Conversion of [x] to an unsigned type of [w] bits. *)
Definition wrap (w x : Z) : Z := x mod 2 ^ w.

(** Modelled from the spec: [mask<T>(width)] of bits.h, which is not among
    the sources ("bit masks"): the value of type [T] whose [width] least
    significant bits are set, for [width] at most the width of [T]. *)
Definition mask (width : Z) : Z := Z.ones width.

(** [std::bit_width]: the number of bits needed to represent [n]. *)
Definition bit_width (n : Z) : Z := if n =? 0 then 0 else Z.log2 n + 1.

(** ** Tile primitives (cooperative groups) *)

(** [tile.ballot(pred)]: one bit per lane, lane 0 first. *)
Definition ballot {A} (pred : A -> bool) (lanes : list A) : list bool :=
  map pred lanes.

(** [__popc(queue)] *)
Definition popc (queue : list bool) : nat := length (List.filter id queue).

(** [tile.any(pred)] *)
Definition any {A} (pred : A -> bool) (lanes : list A) : bool :=
  existsb pred lanes.

(** [__ffs(queue) - 1] for a nonzero [queue]: the rank of the lowest set
    bit; [None] when [queue] is zero (the enclosing [while] then ends). *)
Fixpoint ffs (queue : list bool) : option nat :=
  match queue with
  | [] => None
  | true :: _ => Some 0%nat
  | false :: q => option_map S (ffs q)
  end.

(** ** The table *)

(** The [Permute] template parameter: [operator()] and [inv]. *)
Record Permute := {
  permute : Z -> Z -> Z;
  inv : Z -> Z -> Z;
}.

(** [enum class Result] of table.cuh (not among the sources): the three
    outcomes named by the code. *)
Inductive Result := FOUND | PUT | FULL.

#[global] Instance Result_eq_dec : EqDecision Result.
Proof. solve_decision. Defined.

(** The template parameters and the constant members of [class Cuckoo].
    [key_bits] and [addr_bits] are the widths of [key_type] and [addr_type],
    declared in a header that is not among the sources; [row_width] is
    [sizeof(row_type) * 8].  Row and address types are unsigned and at least
    as wide as [unsigned int] (uint32_t and unsigned long long in the tests
    and in the benchmark registry), so that no integral promotion changes
    their arithmetic. *)
Record Cuckoo := {
  key_bits : Z;
  addr_bits : Z;
  row_width : Z;
  bucket_size : nat;
  perm : Permute;
  n_hash_functions : Z;
  addr_width : Z;
  rem_width : Z;
  n_rows : nat;
}.

Definition max_chain_length (c : Cuckoo) : Z := 20 * n_hash_functions c.
Definition block_size : Z := 128.
Definition state_width (c : Cuckoo) : Z := bit_width (n_hash_functions c).

(** [Cuckoo::addr_row]: hash key to an address and a row entry. *)
Definition addr_row (c : Cuckoo) (hash_id k : Z) : Z * Z :=
  let pk := permute (perm c) hash_id k in
  let addr := wrap (addr_bits c) (Z.land pk (mask (addr_width c))) in
  let rem := Z.shiftr pk (addr_width c) in
  (addr,
   wrap (row_width c)
     (Z.lor (Z.shiftl (hash_id + 1) (row_width c - state_width c)) rem)).

(** [Cuckoo::hash_key]: restore hash id and key from address and row.
    [None] is a failed [assert].  [rem] has the type of [row], so the shift
    [rem << addr_width] is evaluated in [row_width] bits; the result is
    converted to [key_type] for [permute.inv].  This is the arithmetic of
    a row type of 32 bits or more; a narrower row type is promoted to
    [int], which gives the same on a row with an occupied state whose key
    is not wider than the row, and which lets a nonzero row with the state
    0 pass the second [assert]. *)
Definition hash_key (c : Cuckoo) (addr row : Z) : option (Z * Z) :=
  if row =? 0 then None
  else
    let hash_id :=
      wrap (row_width c) (Z.shiftr row (row_width c - state_width c) - 1) in
    if negb (hash_id <? n_hash_functions c) then None
    else
      let rem := Z.land row (mask (rem_width c)) in
      let pk :=
        wrap (key_bits c)
          (Z.lor (wrap (row_width c) (Z.shiftl rem (addr_width c))) addr) in
      Some (hash_id, inv (perm c) hash_id pk).

(** [rows + addr * bucket_size + rank]: the product is evaluated in
    [addr_type]. *)
Definition slot (c : Cuckoo) (addr : Z) (rank : nat) : nat :=
  (Z.to_nat (wrap (addr_bits c) (addr * Z.of_nat (bucket_size c))) + rank)%nat.

(** [rows[i]]; the tables below never read outside the array. *)
Definition rd (rows : list Z) (i : nat) : Z := default 0 (rows !! i).

(** What the lanes of a tile read at [rows + addr * bucket_size + rank]. *)
Definition bucket (c : Cuckoo) (rows : list Z) (addr : Z) : list Z :=
  map (fun rank => rd rows (slot c addr rank)) (seq 0 (bucket_size c)).

(** [Cuckoo::clear] *)
Definition clear (c : Cuckoo) (rows : list Z) : list Z :=
  replicate (n_rows c) 0 ++ drop (n_rows c) rows.

(** The constructor: [None] when its [assert] fails, otherwise the table
    and the cleared array of [n_rows] rows that [alloc] returned.
    [rem_width] is a [uint8_t], [n_rows] a [size_t]; the size of a row in
    bytes is [row_width / 8]. *)
Definition Cuckoo_new (key_bits addr_bits row_width : Z) (bucket_size : nat)
    (perm : Permute) (n_hash_functions : Z) (key_width addr_width : Z)
    : option (Cuckoo * list Z) :=
  let c := {|
    key_bits := key_bits; addr_bits := addr_bits; row_width := row_width;
    bucket_size := bucket_size; perm := perm;
    n_hash_functions := n_hash_functions;
    addr_width := addr_width;
    rem_width := wrap 8 (key_width - addr_width);
    n_rows := Z.to_nat (wrap 64 (Z.shiftl 1 addr_width * (row_width / 8)
                                 * Z.of_nat bucket_size)) |} in
  if state_width c + rem_width c <=? row_width
  then Some (c, clear c (replicate (n_rows c) 0))
  else None.

(** [Cuckoo::count] *)
Definition count (c : Cuckoo) (rows : list Z) (k : Z) : nat :=
  sum_list (map (fun hid =>
      let '(addr, row) := addr_row c hid k in
      length (List.filter (Z.eqb row) (bucket c rows addr)))
    (seqZ 0 (n_hash_functions c))).

(** [Cuckoo::coop_find], the loop over the hash functions from [hid] on. *)
Fixpoint coop_find_from (c : Cuckoo) (rows : list Z) (k : Z) (hids : list Z)
    : bool :=
  match hids with
  | [] => false
  | hid :: hids' =>
      let '(addr, row) := addr_row c hid k in
      let curr := bucket c rows addr in
      if any (Z.eqb row) curr then true
      else if any (Z.eqb 0) curr then false
      else coop_find_from c rows k hids'
  end.

Definition coop_find (c : Cuckoo) (rows : list Z) (k : Z) : bool :=
  coop_find_from c rows k (seqZ 0 (n_hash_functions c)).

(** [Cuckoo::coop_find_as_result] *)
Definition coop_find_as_result (c : Cuckoo) (rows : list Z) (k : Z) : Result :=
  if coop_find c rows k then FOUND else PUT.

(** ** Cooperative put *)

(** What identifies the tile that runs a cooperative function: [blockIdx.x],
    [blockDim.x] and [tile.meta_group_rank()]. *)
Record Tile := {
  blockIdx : Z;
  blockDim : Z;
  meta_group_rank : Z;
}.

(** The lane that performs the exchange; the sum is an [unsigned int]. *)
Definition cuckoor (c : Cuckoo) (tile : Tile) (chain_length : Z) : nat :=
  Z.to_nat (wrap 32 (blockIdx tile * blockDim tile + meta_group_rank tile
                     + chain_length)
            mod Z.of_nat (bucket_size c)).

(** What one iteration of the [while (true)] of [coop_put] did. *)
Inductive action :=
  | Seen                          (* tile.any(tmp == row), avoid_dups *)
  | Cas (idx : nat) (old : Z)     (* atomicCAS(my_addr, 0, row) gave old *)
  | Chain_full                    (* chain_length >= max_chain_length *)
  | Exch (lane idx : nat) (old : Z).  (* atomicExch(my_addr, row) gave old *)

(** How the iteration ends: a [return], the next iteration with its
    [k], [hashid] and [chain_length], or a failed [assert]. *)
Inductive next :=
  | Ret (r : Result)
  | Loop (k hashid chain_length : Z)
  | Trap.

(** One iteration, recorded with the values it started from. *)
Record iteration := {
  it_k : Z;
  it_hashid : Z;
  it_chain : Z;
  it_addr : Z;
  it_row : Z;
  it_act : action;
}.

(** The body of the [while (true)] of [Cuckoo::coop_put<avoid_dups>]. *)
Definition coop_put_body (c : Cuckoo) (avoid_dups : bool) (tile : Tile)
    (rows : list Z) (k hashid chain_length : Z) : action * list Z * next :=
  let '(addr, row) := addr_row c hashid k in
  let tmp := bucket c rows addr in
  if avoid_dups && any (Z.eqb row) tmp then (Seen, rows, Ret FOUND)
  else
    let load := popc (ballot (fun x => negb (x =? 0)) tmp) in
    if (load <? bucket_size c)%nat then
      (* insert in empty row *)
      let idx := slot c addr load in
      let old := rd rows idx in
      let rows' := if old =? 0 then <[idx := row]> rows else rows in
      (Cas idx old, rows',
       if old =? 0 then Ret PUT
       else if avoid_dups && (old =? row) then Ret FOUND
       else Loop k hashid chain_length)
    else
      (* we have to Cuckoo *)
      if max_chain_length c <=? chain_length then (Chain_full, rows, Ret FULL)
      else
        let lane := cuckoor c tile chain_length in
        let idx := slot c addr lane in
        let old := rd rows idx in
        let rows' := <[idx := row]> rows in
        (Exch lane idx old, rows',
         if avoid_dups && (old =? row) then Ret FOUND
         else
           match hash_key c addr old with
           | None => Trap
           | Some (hashid', k') =>
               Loop k' ((hashid' + 1) mod n_hash_functions c)
                    (chain_length + 1)
           end).

(** How a run of [coop_put] ends; [Unfinished] is a loop that is still
    running when the fuel is spent. *)
Inductive outcome :=
  | Returned (r : Result)
  | Trapped
  | Unfinished.

(** A run: the iterations performed, the rows afterwards, the outcome. *)
Record run := {
  run_log : list iteration;
  run_rows : list Z;
  run_out : outcome;
}.

(** The [while (true)] loop, at most [fuel] iterations of it. *)
Fixpoint coop_put_loop (fuel : nat) (c : Cuckoo) (avoid_dups : bool)
    (tile : Tile) (rows : list Z) (k hashid chain_length : Z) : run :=
  match fuel with
  | O => {| run_log := []; run_rows := rows; run_out := Unfinished |}
  | S fuel' =>
      let '(act, rows', nxt) :=
        coop_put_body c avoid_dups tile rows k hashid chain_length in
      let it := {| it_k := k; it_hashid := hashid; it_chain := chain_length;
                   it_addr := fst (addr_row c hashid k);
                   it_row := snd (addr_row c hashid k);
                   it_act := act |} in
      match nxt with
      | Ret r => {| run_log := [it]; run_rows := rows'; run_out := Returned r |}
      | Trap => {| run_log := [it]; run_rows := rows'; run_out := Trapped |}
      | Loop k' hashid' chain_length' =>
          let r := coop_put_loop fuel' c avoid_dups tile rows'
                     k' hashid' chain_length' in
          {| run_log := it :: run_log r; run_rows := run_rows r;
             run_out := run_out r |}
      end
  end.

(** [Cuckoo::coop_put<avoid_dups>(k, tile)], with [chain_length] and
    [hashid] starting from 0. *)
Definition coop_put (fuel : nat) (c : Cuckoo) (avoid_dups : bool)
    (tile : Tile) (rows : list Z) (k : Z) : run :=
  coop_put_loop fuel c avoid_dups tile rows k 0 0.

(** The evictions of a run. *)
Definition is_exch (it : iteration) : bool :=
  match it_act it with Exch _ _ _ => true | _ => false end.

Definition evictions (log : list iteration) : list iteration :=
  List.filter is_exch log.

(** ** Well-formed tables *)

(** The key width the table was constructed with. *)
Definition key_width (c : Cuckoo) : Z := addr_width c + rem_width c.

(** What the class and its constructor assert, what the widths of the
    types require, and the contract of [Permute]: a family of bijections of
    the universe with exact inverses. *)
Record wf_cuckoo (c : Cuckoo) : Prop := {
  wf_bucket_pos : (0 < bucket_size c)%nat;
  wf_bucket_div : 32 mod Z.of_nat (bucket_size c) = 0;
  wf_hash : 0 < n_hash_functions c < 256;
  wf_addr : 0 <= addr_width c;
  wf_rem : 0 <= rem_width c;
  wf_row : state_width c + rem_width c <= row_width c;
  wf_key : key_width c <= key_bits c;
  wf_addr_type :
    2 ^ addr_width c * Z.of_nat (bucket_size c) <= 2 ^ addr_bits c;
  wf_n_rows :
    2 ^ addr_width c * Z.of_nat (bucket_size c) <= Z.of_nat (n_rows c);
  wf_permute : forall i k,
    0 <= i < n_hash_functions c -> 0 <= k < 2 ^ key_width c ->
    0 <= permute (perm c) i k < 2 ^ key_width c;
  wf_inv : forall i pk,
    0 <= i < n_hash_functions c -> 0 <= pk < 2 ^ key_width c ->
    0 <= inv (perm c) i pk < 2 ^ key_width c;
  wf_inv_permute : forall i k,
    0 <= i < n_hash_functions c -> 0 <= k < 2 ^ key_width c ->
    inv (perm c) i (permute (perm c) i k) = k;
}.

(** A bucket whose occupied rows come first. *)
Fixpoint prefix_filled (b : list Z) : Prop :=
  match b with
  | [] => True
  | x :: b' => (x = 0 -> Forall (fun y => y = 0) b') /\ prefix_filled b'
  end.

(** A row with an occupied state: what [hash_key] asserts of it. *)
Definition occupied (c : Cuckoo) (row : Z) : Prop :=
  0 < row < 2 ^ row_width c
  /\ 1 <= Z.shiftr row (row_width c - state_width c) <= n_hash_functions c.

(** The tables that [clear] and [coop_put] produce: the array holds every
    bucket, buckets are filled from lane 0 on, and a nonzero row has an
    occupied state. *)
Record table_ok (c : Cuckoo) (rows : list Z) : Prop := {
  ok_length :
    2 ^ addr_width c * Z.of_nat (bucket_size c) <= Z.of_nat (length rows);
  ok_prefix : forall addr,
    0 <= addr < 2 ^ addr_width c -> prefix_filled (bucket c rows addr);
  ok_rows : forall addr,
    0 <= addr < 2 ^ addr_width c ->
    Forall (fun x => x <> 0 -> occupied c x) (bucket c rows addr);
}.

(** The number that the code adds to [chain_length] to pick the lane to
    evict: the first thread of the block plus the rank of the tile in the
    block.  It differs from tile to tile. *)
Definition global_bucket_index (tile : Tile) : Z :=
  blockIdx tile * blockDim tile + meta_group_rank tile.

(** The write that an iteration performed on the array, if any. *)
Definition written (it : iteration) : option (nat * Z) :=
  match it_act it with
  | Cas idx old => if old =? 0 then Some (idx, it_row it) else None
  | Exch _ idx _ => Some (idx, it_row it)
  | Seen | Chain_full => None
  end.

Definition apply_write (rows : list Z) (it : iteration) : list Z :=
  match written it with
  | Some (idx, row) => <[idx := row]> rows
  | None => rows
  end.

(** The value that an atomic operation of the iteration returned is the
    content of its slot. *)
Definition reads_ok (rows : list Z) (it : iteration) : Prop :=
  match it_act it with
  | Cas idx old | Exch _ idx old => rd rows idx = old
  | Seen | Chain_full => True
  end.

(** The log is a faithful account of a run that started from [rows]. *)
Fixpoint replays (rows : list Z) (log : list iteration) : Prop :=
  match log with
  | [] => True
  | it :: log' => reads_ok rows it /\ replays (apply_write rows it) log'
  end.

(** The loop variables are a hash id and a key of the universe. *)
Definition st_ok (c : Cuckoo) (k hashid : Z) : Prop :=
  0 <= hashid < n_hash_functions c /\ 0 <= k < 2 ^ key_width c.

(** [it'] is the iteration that the loop runs after [it]. *)
Definition follows (c : Cuckoo) (it it' : iteration) : Prop :=
  match it_act it with
  | Exch _ _ old =>
      exists hashid' k',
        hash_key c (it_addr it) old = Some (hashid', k')
        /\ it_k it' = k'
        /\ it_hashid it' = (hashid' + 1) mod n_hash_functions c
        /\ it_chain it' = it_chain it + 1
  | Cas _ _ =>
      it_k it' = it_k it /\ it_hashid it' = it_hashid it
      /\ it_chain it' = it_chain it
  | Seen | Chain_full => False
  end.

Fixpoint chained (c : Cuckoo) (log : list iteration) : Prop :=
  match log with
  | it :: ((it' :: _) as log') => follows c it it' /\ chained c log'
  | _ => True
  end.

(** What the chain counter of an iteration allows, for a run that started
    with the counter at [ch0]. *)
Definition chain_bound (c : Cuckoo) (tile : Tile) (ch0 : Z) (it : iteration)
    : Prop :=
  ch0 <= it_chain it <= max_chain_length c
  /\ match it_act it with
     | Exch lane _ _ =>
         it_chain it < max_chain_length c
         /\ lane = cuckoor c tile (it_chain it)
     | Chain_full => it_chain it = max_chain_length c
     | Seen | Cas _ _ => True
     end.

(** The record of an iteration agrees with the values it started from. *)
Definition coherent (c : Cuckoo) (it : iteration) : Prop :=
  it_addr it = fst (addr_row c (it_hashid it) (it_k it))
  /\ it_row it = snd (addr_row c (it_hashid it) (it_k it))
  /\ match it_act it with
     | Exch lane idx _ => idx = slot c (it_addr it) lane
     | Cas _ _ | Seen | Chain_full => True
     end.

(** The key that a slot stores, recovered as the eviction does; the bucket
    address of slot [idx] is [idx / bucket_size]. *)
Definition decode (c : Cuckoo) (idx : nat) (row : Z) : option Z :=
  snd <$> hash_key c (Z.of_nat (idx / bucket_size c)) row.

(** The keys stored in the array, slot by slot. *)
Definition stored (c : Cuckoo) (rows : list Z) : list Z :=
  omap id (imap (decode c) rows).

(** The keys that the evictions of a run recovered, in order. *)
Definition evicted (c : Cuckoo) (log : list iteration) : list Z :=
  omap (fun it =>
          match it_act it with
          | Exch _ _ old => snd <$> hash_key c (it_addr it) old
          | _ => None
          end) log.

(** ** Example tables *)

Definition identity_permute : Permute :=
  {| permute := fun _ k => k; inv := fun _ pk => pk |}.

(** The table of the tests, [Cuckoo<uint32_t, 32>(21, 5)], with 64-bit keys
    and 32-bit addresses. *)
Definition test_table : Cuckoo :=
  {| key_bits := 64; addr_bits := 32; row_width := 32; bucket_size := 32;
     perm := identity_permute; n_hash_functions := 3;
     addr_width := 5; rem_width := 16; n_rows := 4096 |}.

(** [Cuckoo<uint32_t, 4>(33, 3)]: 33-bit keys in 32-bit rows. *)
Definition wide_table : Cuckoo :=
  {| key_bits := 64; addr_bits := 32; row_width := 32; bucket_size := 4;
     perm := identity_permute; n_hash_functions := 3;
     addr_width := 3; rem_width := 30; n_rows := 128 |}.

(** [Cuckoo<uint32_t, 2, identity, 1>(4, 0)]: one bucket of two rows. *)
Definition tiny_table : Cuckoo :=
  {| key_bits := 64; addr_bits := 32; row_width := 32; bucket_size := 2;
     perm := identity_permute; n_hash_functions := 1;
     addr_width := 0; rem_width := 4; n_rows := 8 |}.

Definition tile0 : Tile :=
  {| blockIdx := 0; blockDim := 128; meta_group_rank := 0 |}.

(** The rows of [tiny_table] after [coop_put] of the keys 1 and 2. *)
Definition tiny_rows : list Z :=
  run_rows (coop_put 21 tiny_table false tile0
    (run_rows (coop_put 21 tiny_table false tile0 (replicate 8 0) 1)) 2).

(** [Cuckoo<uint32_t, 2, identity, 3>(4, 1)]: two buckets of two rows; the
    three hash functions send a key to the bucket of its lowest bit. *)
Definition small_table : Cuckoo :=
  {| key_bits := 64; addr_bits := 32; row_width := 32; bucket_size := 2;
     perm := identity_permute; n_hash_functions := 3;
     addr_width := 1; rem_width := 3; n_rows := 16 |}.

(** ** Cooperative dispatchers *)

(** A launch [<<<gridDim, blockDim>>>] of a one-dimensional grid. *)
Record Grid := {
  grid_dim : nat;
  block_dim : nat;
}.

(** The value of a number as an [unsigned int]: [index], [stride] and the
    loop variable [i] of the dispatchers are [unsigned int], the type of
    [blockIdx.x * blockDim.x + threadIdx.x], and wrap around at [2^32]. *)
Definition uint (n : nat) : nat := Z.to_nat (Z.of_nat n mod 2 ^ 32).

(** [i - 1] for an [unsigned int] [i]: [2^32 - 1] when [i] is 0. *)
Definition uint_pred (i : nat) : nat :=
  Z.to_nat ((Z.of_nat i - 1) mod 2 ^ 32).

(** The number of threads of the grid. *)
Definition n_threads (g : Grid) : nat := (grid_dim g * block_dim g)%nat.

(** [gridDim.x * blockDim.x], an [unsigned int]. *)
Definition stride (g : Grid) : nat := uint (n_threads g).

(** A value computed from the keys, with the positions at which [start] was
    read for it. *)
Definition logged (X : Type) : Type := (list Z * X)%type.

Definition pure_l {X} (x : X) : logged X := ([], x).

Definition bind_l {X Y} (m : logged X) (f : X -> logged Y) : logged Y :=
  (fst m ++ fst (f (snd m)), snd (f (snd m))).

(** [start[i]] *)
Definition load (start : nat -> Z) (i : nat) : logged Z :=
  ([Z.of_nat i], start i).

(** What the dispatchers did besides reading keys: the calls of the per-key
    function, with the position and the key of the leader, and the stores
    into the results. *)
Inductive event :=
  | Call (i : nat) (k : Z)
  | Store (i : nat).

Definition called (e : event) : option (nat * Z) :=
  match e with Call i k => Some (i, k) | Store _ => None end.

Definition stored_at (e : event) : option nat :=
  match e with Store i => Some i | Call _ _ => None end.

(** An event of a dispatcher on the range [start, start + len): a call with
    the key at a position of the range, a store at a position of the
    range. *)
Definition event_ok (start : nat -> Z) (len : nat) (e : event) : Prop :=
  match e with
  | Call i k => (i < len)%nat /\ k = start i
  | Store i => (i < len)%nat
  end.

(** The state that a kernel works on: the table, the result buffer and the
    trace. *)
Record dstate (St Rs : Type) := {
  d_st : St;
  d_res : list Rs;
  d_trace : list event;
}.
Arguments d_st {St Rs} _.
Arguments d_res {St Rs} _.
Arguments d_trace {St Rs} _.

(** The thread-local variables of a lane when it enters the [while] loop of
    a dispatcher: its position [i], its key, if it loaded one, and
    [to_act]. *)
Record lane := {
  ln_i : nat;
  ln_k : option Z;
  ln_act : bool;
}.

(** What a thread of the sorted dispatchers computes before the loop:
    [in_range], [k], [first], and the positions of [start] that it read. *)
Record thread := {
  th_i : nat;
  th_in_range : bool;
  th_k : option Z;
  th_first : bool;
  th_reads : list Z;
}.

Section Dispatch.
Context {St Rs : Type}.

(** The per-key function [F(k, tile)]; [None] when it does not return. *)
Definition per_key := Tile -> St -> Z -> option (Rs * St).

(** A computation on the state that may stop early; the state it stopped
    in is kept. *)
Definition M (X : Type) : Type := dstate St Rs -> dstate St Rs * option X.

Definition ret {X} (x : X) : M X := fun s => (s, Some x).

Definition bind {X Y} (m : M X) (f : X -> M Y) : M Y :=
  fun s =>
    let '(s', o) := m s in
    match o with
    | Some x => f x s'
    | None => (s', None)
    end.

Definition halt {X} : M X := fun s => (s, None).

Fixpoint for_each {X} (f : X -> M unit) (l : list X) : M unit :=
  match l with
  | [] => ret tt
  | x :: l' => bind (f x) (fun _ => for_each f l')
  end.

Fixpoint map_M {X Y} (f : X -> M Y) (l : list X) : M (list Y) :=
  match l with
  | [] => ret []
  | x :: l' =>
      bind (f x) (fun y => bind (map_M f l') (fun ys => ret (y :: ys)))
  end.

(** [std::invoke(F, this, tile.shfl(k, leader), tile)] by the tile whose
    leader is at position [i]; the key of a lane that loaded none is
    not a value. *)
Definition invoke (F : per_key) (tile : Tile) (i : nat) (k : option Z)
    : M Rs :=
  fun s =>
    match k with
    | None => (s, None)
    | Some k =>
        match F tile (d_st s) k with
        | Some (r, st') =>
            ({| d_st := st'; d_res := d_res s;
                d_trace := d_trace s ++ [Call i k] |}, Some r)
        | None => (s, None)
        end
    end.

(** [results[i] = res], through the iterator [results_at]. *)
Definition store (results_at : nat -> nat) (i : nat) (res : Rs) : M unit :=
  fun s =>
    ({| d_st := d_st s; d_res := <[results_at i := res]> (d_res s);
        d_trace := d_trace s ++ [Store i] |}, Some tt).

(** [results[i]], through the iterator [results_at]. *)
Definition load_result (results_at : nat -> nat) (i : nat) : M Rs :=
  fun s => (s, d_res s !! results_at i).

(** What the tile does for its leader [l]: the call and the store. *)
Definition visit (F : per_key) (tile : Tile) (results_at : nat -> nat)
    (l : lane) : M unit :=
  bind (invoke F tile (ln_i l) (ln_k l)) (fun res =>
    store results_at (ln_i l) res).

Definition deactivate (l : lane) : lane :=
  {| ln_i := ln_i l; ln_k := ln_k l; ln_act := false |}.

(** The [while (auto queue = tile.ballot(to_act))] loop of the
    dispatchers; [fuel] bounds the number of calls of [F]. *)
Fixpoint leader_loop (fuel : nat) (F : per_key) (tile : Tile)
    (results_at : nat -> nat) (lanes : list lane) : M unit :=
  match ffs (ballot ln_act lanes) with
  | None => ret tt
  | Some leader =>
      match fuel, lanes !! leader with
      | S fuel', Some l =>
          bind (visit F tile results_at l) (fun _ =>
          leader_loop fuel' F tile results_at
            (<[leader := deactivate l]> lanes))
      | _, _ => halt
      end
  end.
End Dispatch.

(** The tile of the thread [index] of the grid: [bucket_size] consecutive
    threads of a block. *)
Definition tile_of (c : Cuckoo) (g : Grid) (index : nat) : Tile :=
  {| blockIdx := Z.of_nat (index / block_dim g);
     blockDim := Z.of_nat (block_dim g);
     meta_group_rank := Z.of_nat (index mod block_dim g / bucket_size c) |}.

(** [((len + bucket_size - 1) / bucket_size) * bucket_size] *)
Definition max_index (c : Cuckoo) (len : nat) : nat :=
  ((len + bucket_size c - 1) / bucket_size c * bucket_size c)%nat.

(** The values of [i] in [for (auto i = index; i < max; i += stride)], at
    most [fuel] of them, and whether the loop has ended: [i] is an
    [unsigned int], so [i += stride] wraps around, while [max] is a
    [ptrdiff_t], with which [i] is compared by its value. *)
Fixpoint iterations_from (fuel i stride max : nat) : list nat * bool :=
  if (max <=? i)%nat then ([], true)
  else match fuel with
       | O => ([], false)
       | S fuel' =>
           let r := iterations_from fuel' (uint (i + stride)) stride max in
           (i :: fst r, snd r)
       end.

(** The loop of a thread.  Adding [stride] permutes the values of an
    [unsigned int], so a loop that ends has gone through distinct values
    of [i] below [max]: it ends within [max] iterations or not at all. *)
Definition iterations (index stride max : nat) : list nat * bool :=
  iterations_from max index stride max.

(** The thread of [coop] at position [i]: [if (to_act) k = start[i]]. *)
Definition coop_thread (start : nat -> Z) (len i : nat) : thread :=
  let to_act := (i <? len)%nat in
  let m :=
    if to_act then bind_l (load start i) (fun k => pure_l (Some k))
    else pure_l None in
  {| th_i := i; th_in_range := to_act; th_k := snd m; th_first := to_act;
     th_reads := fst m |}.

(** The thread [index] of [coop_sorted] and of [put_if_not_found_sorted]
    at position [i]: [if (in_range) k = start[i]], then
    [first = in_range && (index == 0 || k != start[i - 1])], evaluated
    from left to right, with [i - 1] an [unsigned int]. *)
Definition sorted_thread (start : nat -> Z) (len index i : nat) : thread :=
  let in_range := (i <? len)%nat in
  let m :=
    if in_range then
      bind_l (load start i) (fun k =>
      bind_l (if (index =? 0)%nat then pure_l true
              else bind_l (load start (uint_pred i)) (fun prev =>
                   pure_l (negb (k =? prev)))) (fun first =>
      pure_l (Some k, first)))
    else pure_l (None, false) in
  {| th_i := i; th_in_range := in_range; th_k := fst (snd m);
     th_first := snd (snd m); th_reads := fst m |}.

Definition lane_of (th : thread) (to_act : bool) : lane :=
  {| ln_i := th_i th; ln_k := th_k th; ln_act := to_act |}.

Section Kernels.
Context {St Rs : Type} (c : Cuckoo).

(** The threads of the tile [T] of the grid in the iteration that starts
    at [base]: lane [rank] is thread [T * bucket_size + rank], whose [index]
    is that number as an [unsigned int], and works at position
    [base + rank].  The bucket size divides 32 and, as the dispatchers
    assume, [blockDim.x]: the positions of the lanes of a tile are
    consecutive, and they wrap around together. *)
Definition tile_threads (mk : nat -> nat -> thread) (T base : nat)
    : list thread :=
  map (fun rank => mk (uint (T * bucket_size c + rank)) (base + rank)%nat)
      (seq 0 (bucket_size c)).

(** The positions at which lane 0 of the tile [T] runs its iterations, and
    whether its loop ends. *)
Definition tile_iterations (g : Grid) (len T : nat) : list nat * bool :=
  iterations (uint (T * bucket_size c)) (stride g) (max_index c len).

(** A kernel: every tile of the grid, one after the other, runs the
    iterations of its [for] loop; a kernel with a loop that does not end
    does not complete. *)
Definition kernel (g : Grid) (len : nat)
    (body : nat -> nat -> M (St := St) (Rs := Rs) unit) : M unit :=
  for_each (fun T =>
      bind (for_each (body T) (fst (tile_iterations g len T))) (fun _ =>
      if snd (tile_iterations g len T) then ret tt else halt))
    (seq 0 (n_threads g / bucket_size c)).

(** [Cuckoo::coop<F>(start, end, results)] with [len = end - start]. *)
Definition coop (F : per_key) (g : Grid) (start : nat -> Z) (len : nat)
    (results_at : nat -> nat) : M unit :=
  kernel g len (fun T base =>
    leader_loop (bucket_size c) F (tile_of c g (T * bucket_size c))
      results_at
      (map (fun th => lane_of th (th_in_range th))
           (tile_threads (fun _ i => coop_thread start len i) T base))).

(** [Cuckoo::coop_sorted<F>(start, end, results)] *)
Definition coop_sorted (F : per_key) (g : Grid) (start : nat -> Z)
    (len : nat) (results_at : nat -> nat) : M unit :=
  kernel g len (fun T base =>
    leader_loop (bucket_size c) F (tile_of c g (T * bucket_size c))
      results_at
      (map (fun th => lane_of th (th_in_range th && th_first th))
           (tile_threads (sorted_thread start len) T base))).

(** The positions of [start] that the threads of a kernel read. *)
Definition kernel_reads (g : Grid) (len : nat)
    (mk : nat -> nat -> thread) : list Z :=
  flat_map (fun T =>
      flat_map (fun base => flat_map th_reads (tile_threads mk T base))
        (fst (tile_iterations g len T)))
    (seq 0 (n_threads g / bucket_size c)).
End Kernels.

(** [coop_find_as_result] and [coop_put] as per-key functions; [coop_put]
    runs for the number of iterations that a table needs at most. *)
Definition find_key (c : Cuckoo) : per_key (St := list Z) (Rs := Result) :=
  fun _ rows k => Some (coop_find_as_result c rows k, rows).

Definition put_fuel (c : Cuckoo) : nat := S (Z.to_nat (max_chain_length c)).

Definition put_key (c : Cuckoo) (avoid_dups : bool)
    : per_key (St := list Z) (Rs := Result) :=
  fun tile rows k =>
    let r := coop_put (put_fuel c) c avoid_dups tile rows k in
    match run_out r with
    | Returned res => Some (res, run_rows r)
    | Trapped | Unfinished => None
    end.

(** [Cuckoo::put_if_not_found_sorted(start, end, results)] *)
Definition put_if_not_found_sorted (c : Cuckoo) (g : Grid)
    (start : nat -> Z) (len : nat) (results_at : nat -> nat)
    : M (St := list Z) (Rs := Result) unit :=
  kernel c g len (fun T base =>
    let threads := tile_threads c (sorted_thread start len) T base in
    bind (map_M (fun th =>
            if th_in_range th && th_first th then
              bind (load_result results_at (th_i th)) (fun res =>
              ret (lane_of th (negb (bool_decide (res = FOUND)))))
            else ret (lane_of th false)) threads) (fun lanes =>
    bind (leader_loop (bucket_size c) (put_key c false)
            (tile_of c g (T * bucket_size c)) results_at lanes) (fun _ =>
    for_each (fun th =>
        if th_in_range th && negb (th_first th)
        then store results_at (th_i th) FOUND
        else ret tt) threads))).

(** The grid of the launches [<<<n_blocks, block_size>>>] with
    [n_blocks = (len + block_size - 1) / block_size], an [int]: for the
    ranges of fewer than [2^38 - 127] keys, whose number of blocks an [int]
    holds. *)
Definition launch_grid (len : nat) : Grid :=
  {| grid_dim := (len + Z.to_nat block_size - 1) / Z.to_nat block_size;
     block_dim := Z.to_nat block_size |}.

(** [Cuckoo::find_or_put_sorted(keys, end, results)]: the second kernel
    starts when the first has ended. *)
Definition find_or_put_sorted (c : Cuckoo) (start : nat -> Z) (len : nat)
    (results_at : nat -> nat) : M (St := list Z) (Rs := Result) unit :=
  bind (coop_sorted c (find_key c) (launch_grid len) start len results_at)
    (fun _ =>
       put_if_not_found_sorted c (launch_grid len) start len results_at).

(** A pending lane is in the range and loaded the key of its position. *)
Definition lane_ok (start : nat -> Z) (len : nat) (l : lane) : Prop :=
  ln_act l = true -> (ln_i l < len)%nat /\ ln_k l = Some (start (ln_i l)).

(** What a run that started in [s] may have done when it is in [s']: events
    of the range, and stores at the positions of the range only. *)
Definition range_only {St Rs : Type} (start : nat -> Z) (len : nat)
    (results_at : nat -> nat) (s s' : dstate St Rs) : Prop :=
  (exists evs,
     d_trace s' = d_trace s ++ evs /\ Forall (event_ok start len) evs)
  /\ length (d_res s') = length (d_res s)
  /\ forall p, (forall i, (i < len)%nat -> results_at i <> p) ->
       d_res s' !! p = d_res s !! p.

(** Position [i] holds the first occurrence of its key:
    [i == 0 || start[i] != start[i - 1]]. *)
Definition first_at (start : nat -> Z) (i : nat) : bool :=
  (i =? 0)%nat || negb (start i =? start (i - 1)%nat).

(** The lane that leads its tile at position [i], and the tile of the
    launch [g] that works at position [i] in its first iteration. *)
Definition leader_at (start : nat -> Z) (i : nat) : lane :=
  {| ln_i := i; ln_k := Some (start i); ln_act := true |}.

Definition tile_at (c : Cuckoo) (g : Grid) (i : nat) : Tile :=
  tile_of c g (i / bucket_size c * bucket_size c).

Section Calls.
Context {St Rs : Type} (F : @per_key St Rs) (tl : nat -> Tile)
        (start : nat -> Z).

(** The calls of the per-key function for the positions [ps], one after the
    other: the state afterwards and the result of every call. *)
Fixpoint run_calls (ps : list nat) (st : St) : option (St * list (nat * Rs)) :=
  match ps with
  | [] => Some (st, [])
  | i :: ps' =>
      match F (tl i) st (start i) with
      | None => None
      | Some (r, st') =>
          match run_calls ps' st' with
          | None => None
          | Some (st'', rs) => Some (st'', (i, r) :: rs)
          end
      end
  end.

(** The results [rs] of calls, stored through [results_at]. *)
Definition store_all (results_at : nat -> nat) (rs : list (nat * Rs))
    (res : list Rs) : list Rs :=
  foldl (fun res '(i, r) => <[results_at i := r]> res) res rs.

(** The result of the call for position [i] among [rs]. *)
Fixpoint result_at (rs : list (nat * Rs)) (i : nat) : option Rs :=
  match rs with
  | [] => None
  | (j, r) :: rs' => if (j =? i)%nat then Some r else result_at rs' i
  end.
End Calls.

(** A launch whose threads cover the range: the bucket size divides
    [blockDim.x], as the dispatchers assume, no thread iterates a second
    time, and no [unsigned int] wraps around: the number of threads is
    below [2^32], and so is the position after the first iteration. *)
Definition covers (c : Cuckoo) (g : Grid) (len : nat) : Prop :=
  (0 < bucket_size c)%nat
  /\ (block_dim g mod bucket_size c = 0)%nat
  /\ (len <= n_threads g)%nat
  /\ Z.of_nat (n_threads g) < 2 ^ 32
  /\ Z.of_nat (max_index c len) + Z.of_nat (n_threads g) <= 2 ^ 32.

(** Position [i] is pending in the sorted dispatcher. *)
Definition pending (start : nat -> Z) (len i : nat) : bool :=
  (i <? len)%nat && first_at start i.

(** [results[i] != Result::FOUND] *)
Definition not_found_at (results_at : nat -> nat) (res : list Result)
    (i : nat) : bool :=
  match res !! results_at i with
  | Some r => negb (bool_decide (r = FOUND))
  | None => false
  end.

(** Position [i] is pending in [put_if_not_found_sorted] when the results
    are [res]. *)
Definition pending2 (start : nat -> Z) (len : nat) (results_at : nat -> nat)
    (res : list Result) (i : nat) : bool :=
  pending start len i && not_found_at results_at res i.

(** Position [i] of the range is not a first occurrence. *)
Definition duplicate (start : nat -> Z) (len i : nat) : bool :=
  (i <? len)%nat && negb (first_at start i).

(** The result at position [i] after [put_if_not_found_sorted], when the
    results were [res] before and the calls of [coop_put] returned [rs]. *)
Definition second_result (start : nat -> Z) (len : nat)
    (results_at : nat -> nat) (res : list Result)
    (rs : list (nat * Result)) (i : nat) : option Result :=
  if duplicate start len i then Some FOUND
  else match result_at rs i with
       | Some r => Some r
       | None => res !! results_at i
       end.

(** What holds of the state [s] of [put_if_not_found_sorted], started in
    [s1], when the tiles before position [N] are done. *)
Definition second_pass_inv (c : Cuckoo) (g : Grid) (start : nat -> Z)
    (len : nat) (results_at : nat -> nat) (s1 : dstate (list Z) Result)
    (N : nat) (s : dstate (list Z) Result) : Prop :=
  exists rs,
    run_calls (put_key c false) (tile_at c g) start
      (List.filter (pending2 start len results_at (d_res s1)) (seq 0 N))
      (d_st s1) = Some (d_st s, rs)
    /\ (forall i, (i < len)%nat ->
          d_res s !! results_at i
          = if (i <? N)%nat
            then second_result start len results_at (d_res s1) rs i
            else d_res s1 !! results_at i)
    /\ length (d_res s) = length (d_res s1)
    /\ (forall p, (forall i, (i < len)%nat -> results_at i <> p) ->
          d_res s !! p = d_res s1 !! p)
    /\ omap called (d_trace s)
       = omap called (d_trace s1)
         ++ map (fun i => (i, start i))
              (List.filter (pending2 start len results_at (d_res s1))
                 (seq 0 N)).

(** Position [i] is a first occurrence that [coop_find] does not find in
    [rows]: what [find_or_put_sorted] puts. *)
Definition to_put (c : Cuckoo) (start : nat -> Z) (len : nat)
    (rows : list Z) (i : nat) : bool :=
  pending start len i && negb (coop_find c rows (start i)).

(** The calls of [coop_put] that [find_or_put_sorted] makes on [rows]. *)
Definition fops_calls (c : Cuckoo) (start : nat -> Z) (len : nat)
    (rows : list Z) : option (list Z * list (nat * Result)) :=
  run_calls (put_key c false) (tile_at c (launch_grid len)) start
    (List.filter (to_put c start len rows) (seq 0 len)) rows.

(** The result of [find_or_put_sorted] at position [i] when its calls of
    [coop_put] returned [rs]. *)
Definition fops_result (c : Cuckoo) (start : nat -> Z) (rows : list Z)
    (rs : list (nat * Result)) (i : nat) : option Result :=
  if first_at start i then
    if coop_find c rows (start i) then Some FOUND else result_at rs i
  else Some FOUND.

(** The range is sorted: [std::is_sorted(start, end)]. *)
Definition sorted (start : nat -> Z) (len : nat) : Prop :=
  forall i, (S i < len)%nat -> start i <= start (S i).


Definition small_state : dstate (list Z) Result :=
  {| d_st := replicate 16 0; d_res := replicate 4 PUT; d_trace := [] |}.


(** A sorted range of four keys that [small_table] has room for. *)
Definition spread_keys : list Z := [0; 1; 1; 2].

(** A launch of one block of two threads, and a range of four equal keys. *)
Definition narrow_grid : Grid := {| grid_dim := 1; block_dim := 2 |}.

Definition same_keys : list Z := [7; 7; 7; 7].

(** A table that holds the key 1, with the result of its lookup. *)
Definition found_state : dstate (list Z) Result :=
  {| d_st := run_rows (coop_put 61 small_table false tile0 (replicate 16 0) 1);
     d_res := [FOUND]; d_trace := [] |}.

(** A range of [2^31 + 1] keys, which [find_or_put_sorted] launches
    [2^24 + 1] blocks of 128 threads for, and the tile of [small_table]
    whose lanes are the threads [2^31 - 128] and [2^31 - 127]. *)
Definition wrap_len : nat := Z.to_nat (2 ^ 31 + 1).

Definition wrap_tile : nat := Z.to_nat (2 ^ 30 - 64).

(** ** Unsorted find-or-put *)

(** [thrust::stable_sort_by_key(keys_first, keys_last, values_first)], a
    function of the library: it sorts the keys with [<] and moves the
    values with them, keeping equal keys in their order.  Stable sorts agree
    on their result; this one inserts every pair in front of the sorted
    rest. *)
Fixpoint insert_by_key (x : Z * Z) (l : list (Z * Z)) : list (Z * Z) :=
  match l with
  | [] => [x]
  | y :: l' => if fst x <=? fst y then x :: l else y :: insert_by_key x l'
  end.

Definition sort_pairs (l : list (Z * Z)) : list (Z * Z) :=
  foldr insert_by_key [] l.

Definition stable_sort_by_key (ks vs : list Z) : list Z * list Z :=
  let ps := sort_pairs (zip ks vs) in (map fst ps, map snd ps).

(** The buffers of the caller, which do not overlap: the range of keys
    [keys .. end] and the scratch buffer [tmp]. *)
Record buffers := {
  b_keys : list Z;
  b_tmp : list Z
}.

(** [thrust::permutation_iterator(keys, indices)] and
    [thrust::permutation_iterator(results, indices)], where [indices] is
    [tmp]. *)
Definition key_view (b : buffers) (j : nat) : Z :=
  rd (b_keys b) (Z.to_nat (rd (b_tmp b) j)).

Definition res_view (b : buffers) (j : nat) : nat :=
  Z.to_nat (rd (b_tmp b) j).

(** [kcopies[j]], where [kcopies] is [tmp + klen]. *)
Definition kcopies_at (b : buffers) (j : nat) : Z :=
  rd (b_tmp b) (length (b_keys b) + j).

(** [Cuckoo::find_or_put(keys, end, tmp, results)]: it stops at a failed
    [assert], and when [tmp] is shorter than twice the range; otherwise it
    returns the buffers as they are afterwards.  [thrust::sequence] writes
    the indices as values of [key_type]. *)
Definition find_or_put (c : Cuckoo) (b : buffers)
    : M (St := list Z) (Rs := Result) buffers :=
  let klen := length (b_keys b) in
  if negb (Z.of_nat klen <=? 2 ^ key_bits c - 1) then halt
  else if negb (Z.of_nat klen <=? 2 ^ 31 - 1) then halt
  else if negb (2 * klen <=? length (b_tmp b))%nat then halt
  else
    let indices := map (wrap (key_bits c)) (seqZ 0 (Z.of_nat klen)) in
    let sorted := stable_sort_by_key (b_keys b) indices in
    let b' := {| b_keys := b_keys b;
                 b_tmp := snd sorted ++ fst sorted
                          ++ drop (2 * klen) (b_tmp b) |} in
    bind (find_or_put_sorted c (key_view b') klen (res_view b'))
      (fun _ => ret b').

(** Position [i] holds the first occurrence of its key in [keys]. *)
Definition first_in (keys : list Z) (i : nat) : bool :=
  forallb (fun j => negb (rd keys j =? rd keys i)) (seq 0 i).

(** The order of pairs that a stable sort of keys with their positions
    establishes. *)
Definition key_then_index (a b : Z * Z) : Prop :=
  fst a < fst b \/ (fst a = fst b /\ snd a < snd b).

(** An unsorted range of keys for [small_table] with scratch. *)
Definition small_buffers : buffers :=
  {| b_keys := [7; 1; 7; 5]; b_tmp := replicate 8 0 |}.

(** The keys of a range with their positions, sorted. *)
Definition sorted_pairs (keys : list Z) : list (Z * Z) :=
  sort_pairs (zip keys (seqZ 0 (Z.of_nat (length keys)))).

(** The buffers when [find_or_put] has sorted: [tmp] holds the sorted
    positions, then the sorted copies of the keys. *)
Definition sorted_buffers (b : buffers) : buffers :=
  {| b_keys := b_keys b;
     b_tmp := map snd (sorted_pairs (b_keys b))
              ++ map fst (sorted_pairs (b_keys b))
              ++ drop (2 * length (b_keys b)) (b_tmp b) |}.

(** A range of [2^31] keys, one more than the largest [int]. *)
Definition long_range : buffers :=
  {| b_keys := replicate (Z.to_nat (2 ^ 31)) 0; b_tmp := [] |}.

(** ** Tables that the code builds *)

(** The row of the key [k] under the hash function [hid] is in its bucket:
    [tile.any(curr == row)]. *)
Definition holds (c : Cuckoo) (rows : list Z) (hid k : Z) : bool :=
  let '(addr, row) := addr_row c hid k in
  any (Z.eqb row) (bucket c rows addr).

(** The bucket at [addr] has no empty row: [!tile.any(curr == 0)]. *)
Definition is_full (c : Cuckoo) (rows : list Z) (addr : Z) : bool :=
  negb (any (Z.eqb 0) (bucket c rows addr)).

(** The buckets of [k] under the hash functions before [hid] are full: what
    [coop_find] needs to get as far as [hid]. *)
Definition reachable (c : Cuckoo) (rows : list Z) (k hid : Z) : Prop :=
  forall hid', 0 <= hid' < hid ->
    is_full c rows (fst (addr_row c hid' k)) = true.

(** A filled slot holds the row of a key of the universe, in the bucket of
    that key, and [coop_find] gets as far as this bucket. *)
Definition slot_ok (c : Cuckoo) (rows : list Z) (idx : nat) : Prop :=
  rd rows idx <> 0 ->
  exists hid k,
    st_ok c k hid
    /\ addr_row c hid k = (Z.of_nat (idx / bucket_size c), rd rows idx)
    /\ reachable c rows k hid.

(** The tables that [clear] and [coop_put] build when the keys are not
    wider than a row. *)
Record built (c : Cuckoo) (rows : list Z) : Prop := {
  built_ok : table_ok c rows;
  built_slots : forall idx, slot_ok c rows idx;
}.

(** What the keys stored after a put that returned [r] for the key [k] are,
    given those stored before: with [PUT] they are those and [k]; with
    [FOUND] and with [FULL] one key [d] is left out (with [FOUND] a key
    that is stored nevertheless). *)
Definition conserves (c : Cuckoo) (rows : list Z) (k : Z) (r : Result)
    (rows' : list Z) : Prop :=
  match r with
  | PUT => stored c rows' ≡ₚ k :: stored c rows
  | FOUND =>
      exists d, d :: stored c rows' ≡ₚ k :: stored c rows
                /\ d ∈ stored c rows'
  | FULL => exists d, d :: stored c rows' ≡ₚ k :: stored c rows
  end.

(** ** Host functions *)

(** [coop_find] as a per-key function; its results are [bool]. *)
Definition find_bool (c : Cuckoo) : per_key (St := list Z) (Rs := bool) :=
  fun _ rows k => Some (coop_find c rows k, rows).

(** [Cuckoo::find(start, end, results)] *)
Definition find (c : Cuckoo) (start : nat -> Z) (len : nat)
    (results_at : nat -> nat) : M (St := list Z) (Rs := bool) unit :=
  coop c (find_bool c) (launch_grid len) start len results_at.

(** [Cuckoo::put(start, end, results)] *)
Definition put (c : Cuckoo) (start : nat -> Z) (len : nat)
    (results_at : nat -> nat) : M (St := list Z) (Rs := Result) unit :=
  coop c (put_key c false) (launch_grid len) start len results_at.

(** [Cuckoo::put_avoid_dups(start, end, results)] *)
Definition put_avoid_dups (c : Cuckoo) (start : nat -> Z) (len : nat)
    (results_at : nat -> nat) : M (St := list Z) (Rs := Result) unit :=
  coop c (put_key c true) (launch_grid len) start len results_at.

(** ** Benchmark configuration (benchmarks.h, benchmarks.cu) *)

Inductive TableType := CUCKOO | ICEBERG.

(** [struct TableSpec] and [struct TableConfig]; the widths and sizes are
    [uint8_t].  The field [rng] of [TableConfig], the generator that
    [make_table] hands to the permutations, plays no part in
    [spec_fits_config] and is left out. *)
Record TableSpec := {
  ts_type : TableType;
  p_row_width : Z;
  p_bucket_size : Z;
  s_row_width : Z;
  s_bucket_size : Z;
}.

Record TableConfig := {
  tc_key_width : Z;
  p_addr_width : Z;
  s_addr_width : Z;
}.

(** [spec_fits_config]: the [uint8_t] operands are promoted to [int], so the
    differences may be negative. *)
Definition spec_fits_config (spec : TableSpec) (config : TableConfig) : bool :=
  let p_rem_w := tc_key_width config - p_addr_width config in
  let s_rem_w := tc_key_width config - s_addr_width config in
  match ts_type spec with
  | CUCKOO => 2 + p_rem_w <=? p_row_width spec
  | ICEBERG =>
      (1 + p_rem_w <=? p_row_width spec) && (2 + s_rem_w <=? s_row_width spec)
  end.

(** ** Example states *)

(** Three keys for [tiny_table], a state whose table holds the keys 1 and
    2 with a buffer for the results of [find], and a state with an empty
    table. *)
Definition tiny_keys : list Z := [1; 3; 2].

Definition tiny_find_state : dstate (list Z) bool :=
  {| d_st := tiny_rows; d_res := [false; false; false]; d_trace := [] |}.

Definition tiny_put_state : dstate (list Z) Result :=
  {| d_st := replicate 8 0; d_res := [FOUND; FOUND; FOUND]; d_trace := [] |}.

(** ** Counting *)

(** The slot [idx] stores the key [k]: its row decodes to [k]. *)
Definition slot_stores (c : Cuckoo) (rows : list Z) (k : Z) (idx : nat)
    : bool :=
  bool_decide (decode c idx (rd rows idx) = Some k).

(** The number of slots that store [k]. *)
Definition occurrences (c : Cuckoo) (rows : list Z) (k : Z) : nat :=
  length (List.filter (Z.eqb k) (stored c rows)).

(** The slot [idx] is in the bucket of [k] under the hash function [hid]
    and holds the row of [k] under it: what [count] counts. *)
Definition counted (c : Cuckoo) (rows : list Z) (k hid : Z) (idx : nat)
    : bool :=
  (Z.of_nat (idx / bucket_size c) =? fst (addr_row c hid k))
  && (rd rows idx =? snd (addr_row c hid k)).

(** * Properties *)

(** ** Bit-level facts *)

Lemma land_shiftl_low a b n :
  0 <= n -> 0 <= b < 2 ^ n -> Z.land (a * 2 ^ n) b = 0.
Proof.
  intros Hn Hb. apply Z.bits_inj'. intros m Hm.
  rewrite Z.land_spec, Z.bits_0.
  destruct (Z.lt_ge_cases m n) as [Hlt|Hge].
  - rewrite Z.mul_pow2_bits_low by lia. reflexivity.
  - assert (Z.testbit b m = false) as ->.
    { destruct (Z.eq_dec b 0) as [->|Hb0]; [apply Z.bits_0|].
      apply Z.bits_above_log2; [lia|].
      apply Z.log2_lt_pow2; [lia|].
      apply Z.lt_le_trans with (2 ^ n); [lia|].
      apply Z.pow_le_mono_r; lia. }
    apply andb_false_r.
Qed.

Lemma lor_shiftl_add a b n :
  0 <= n -> 0 <= b < 2 ^ n -> Z.lor (a * 2 ^ n) b = a * 2 ^ n + b.
Proof.
  intros Hn Hb. symmetry. apply Z.add_nocarry_lor.
  now apply land_shiftl_low.
Qed.

Lemma bit_width_spec n : 0 < n -> n < 2 ^ bit_width n.
Proof.
  intros Hn. unfold bit_width.
  destruct (Z.eqb_spec n 0) as [->|_]; [lia|].
  pose proof (Z.log2_spec n Hn) as [_ H].
  now rewrite <- Z.add_1_r in H.
Qed.

Lemma bit_width_nonneg n : 0 <= bit_width n.
Proof.
  unfold bit_width. destruct (n =? 0); [lia|].
  pose proof (Z.log2_nonneg n). lia.
Qed.

Section Encoding.
Context (c : Cuckoo) (Hwf : wf_cuckoo c).

Lemma state_width_bound : n_hash_functions c < 2 ^ state_width c.
Proof. apply bit_width_spec. apply (wf_hash c Hwf). Qed.

Lemma shift_nonneg : 0 <= rem_width c <= row_width c - state_width c.
Proof. pose proof (wf_row c Hwf). pose proof (wf_rem c Hwf). lia. Qed.

Lemma addr_row_fst i k :
  0 <= i < n_hash_functions c -> 0 <= k < 2 ^ key_width c ->
  fst (addr_row c i k) = permute (perm c) i k mod 2 ^ addr_width c.
Proof.
  intros Hi Hk. unfold addr_row, mask, wrap. cbn [fst].
  pose proof (wf_addr c Hwf) as HA.
  rewrite Z.land_ones by assumption.
  apply Z.mod_small.
  pose proof (Z.mod_pos_bound (permute (perm c) i k) (2 ^ addr_width c)).
  pose proof (wf_addr_type c Hwf). pose proof (wf_bucket_pos c Hwf).
  assert (0 < 2 ^ addr_width c) by (apply Z.pow_pos_nonneg; lia).
  nia.
Qed.

Lemma rem_bound i k :
  0 <= i < n_hash_functions c -> 0 <= k < 2 ^ key_width c ->
  0 <= permute (perm c) i k / 2 ^ addr_width c < 2 ^ rem_width c.
Proof.
  intros Hi Hk. pose proof (wf_permute c Hwf i k Hi Hk) as Hp.
  pose proof (wf_addr c Hwf) as HA. pose proof (wf_rem c Hwf) as HR.
  unfold key_width in Hp. rewrite Z.pow_add_r in Hp by lia.
  assert (0 < 2 ^ addr_width c) by (apply Z.pow_pos_nonneg; lia).
  split; [apply Z.div_pos; lia|].
  apply Z.div_lt_upper_bound; lia.
Qed.

Lemma addr_row_snd i k :
  0 <= i < n_hash_functions c -> 0 <= k < 2 ^ key_width c ->
  snd (addr_row c i k)
  = (i + 1) * 2 ^ (row_width c - state_width c)
    + permute (perm c) i k / 2 ^ addr_width c.
Proof.
  intros Hi Hk. unfold addr_row, wrap. cbn [snd].
  pose proof (wf_addr c Hwf) as HA. pose proof shift_nonneg as Hs.
  pose proof (rem_bound i k Hi Hk) as Hr.
  pose proof state_width_bound as Hsw.
  pose proof (bit_width_nonneg (n_hash_functions c)) as Hsw0.
  fold (state_width c) in Hsw0.
  rewrite Z.shiftr_div_pow2, Z.shiftl_mul_pow2 by lia.
  assert (2 ^ rem_width c <= 2 ^ (row_width c - state_width c))
    by (apply Z.pow_le_mono_r; lia).
  rewrite lor_shiftl_add by lia.
  apply Z.mod_small.
  assert (2 ^ row_width c
          = 2 ^ state_width c * 2 ^ (row_width c - state_width c)) as ->.
  { rewrite <- Z.pow_add_r by lia. f_equal. lia. }
  assert (0 < 2 ^ (row_width c - state_width c))
    by (apply Z.pow_pos_nonneg; lia).
  nia.
Qed.

Lemma row_bounds i k :
  0 <= i < n_hash_functions c -> 0 <= k < 2 ^ key_width c ->
  0 < snd (addr_row c i k) < 2 ^ row_width c.
Proof.
  intros Hi Hk. rewrite addr_row_snd by assumption.
  pose proof shift_nonneg as Hs. pose proof (rem_bound i k Hi Hk) as Hr.
  pose proof state_width_bound as Hsw.
  pose proof (bit_width_nonneg (n_hash_functions c)) as Hsw0.
  fold (state_width c) in Hsw0.
  assert (2 ^ rem_width c <= 2 ^ (row_width c - state_width c))
    by (apply Z.pow_le_mono_r; lia).
  assert (2 ^ row_width c
          = 2 ^ state_width c * 2 ^ (row_width c - state_width c)) as ->.
  { rewrite <- Z.pow_add_r by lia. f_equal. lia. }
  assert (0 < 2 ^ (row_width c - state_width c))
    by (apply Z.pow_pos_nonneg; lia).
  nia.
Qed.

Lemma row_state i k :
  0 <= i < n_hash_functions c -> 0 <= k < 2 ^ key_width c ->
  Z.shiftr (snd (addr_row c i k)) (row_width c - state_width c) = i + 1.
Proof.
  intros Hi Hk. rewrite addr_row_snd by assumption.
  pose proof shift_nonneg as Hs. pose proof (rem_bound i k Hi Hk) as Hr.
  assert (2 ^ rem_width c <= 2 ^ (row_width c - state_width c))
    by (apply Z.pow_le_mono_r; lia).
  rewrite Z.shiftr_div_pow2 by lia.
  assert (0 < 2 ^ (row_width c - state_width c))
    by (apply Z.pow_pos_nonneg; lia).
  rewrite Z.div_add_l by lia.
  rewrite Z.div_small by lia. lia.
Qed.

Lemma row_rem i k :
  0 <= i < n_hash_functions c -> 0 <= k < 2 ^ key_width c ->
  Z.land (snd (addr_row c i k)) (mask (rem_width c))
  = permute (perm c) i k / 2 ^ addr_width c.
Proof.
  intros Hi Hk. rewrite addr_row_snd by assumption.
  pose proof shift_nonneg as Hs. pose proof (rem_bound i k Hi Hk) as Hr.
  unfold mask. rewrite Z.land_ones by lia.
  assert (row_width c - state_width c
          = (row_width c - state_width c - rem_width c) + rem_width c)
    as -> by lia.
  rewrite Z.pow_add_r by lia.
  rewrite Z.mul_assoc, Z.add_comm, Z.mod_add
    by (apply Z.pow_nonzero; lia).
  apply Z.mod_small. lia.
Qed.

(** The round trip holds when the permuted key fits the row type. *)
Lemma hash_key_addr_row i k :
  key_width c <= row_width c ->
  0 <= i < n_hash_functions c -> 0 <= k < 2 ^ key_width c ->
  hash_key c (fst (addr_row c i k)) (snd (addr_row c i k)) = Some (i, k).
Proof.
  intros Hfit Hi Hk. unfold hash_key.
  pose proof (row_bounds i k Hi Hk) as Hrow.
  destruct (Z.eqb_spec (snd (addr_row c i k)) 0) as [E|_]; [lia|].
  rewrite row_state by assumption.
  pose proof (wf_hash c Hwf) as HH.
  pose proof state_width_bound as Hsw. pose proof shift_nonneg as Hs.
  pose proof (bit_width_nonneg (n_hash_functions c)) as Hsw0.
  fold (state_width c) in Hsw0.
  assert (wrap (row_width c) (i + 1 - 1) = i) as ->.
  { unfold wrap. replace (i + 1 - 1) with i by lia. apply Z.mod_small.
    split; [lia|].
    apply Z.lt_le_trans with (2 ^ state_width c); [lia|].
    apply Z.pow_le_mono_r; lia. }
  destruct (Z.ltb_spec i (n_hash_functions c)) as [_|]; [|lia]. cbn [negb].
  rewrite row_rem, addr_row_fst by assumption.
  pose proof (wf_permute c Hwf i k Hi Hk) as Hp.
  pose proof (rem_bound i k Hi Hk) as Hr.
  pose proof (wf_addr c Hwf) as HA. pose proof (wf_key c Hwf) as HK.
  set (pk := permute (perm c) i k) in *.
  assert (0 < 2 ^ addr_width c) as HpA by (apply Z.pow_pos_nonneg; lia).
  assert (2 ^ key_width c <= 2 ^ row_width c)
    by (apply Z.pow_le_mono_r; lia).
  assert (2 ^ key_width c <= 2 ^ key_bits c)
    by (apply Z.pow_le_mono_r; lia).
  pose proof (Z.div_mod pk (2 ^ addr_width c) ltac:(lia)) as Hdm.
  pose proof (Z.mod_pos_bound pk (2 ^ addr_width c) HpA) as Hm.
  rewrite Z.shiftl_mul_pow2 by lia.
  unfold wrap. rewrite (Z.mod_small (_ * _)) by nia.
  rewrite lor_shiftl_add by lia.
  rewrite Z.mod_small by nia.
  replace (pk / 2 ^ addr_width c * 2 ^ addr_width c
           + pk mod 2 ^ addr_width c) with pk by lia.
  unfold pk. rewrite (wf_inv_permute c Hwf) by assumption. reflexivity.
Qed.
End Encoding.

Lemma lor_bound a b n :
  0 <= n -> 0 <= a < 2 ^ n -> 0 <= b < 2 ^ n -> 0 <= Z.lor a b < 2 ^ n.
Proof.
  intros Hn Ha Hb. split; [apply Z.lor_nonneg; lia|].
  destruct (Z.eq_dec a 0) as [->|Ha0]; [rewrite Z.lor_0_l; lia|].
  destruct (Z.eq_dec b 0) as [->|Hb0]; [rewrite Z.lor_0_r; lia|].
  assert (0 < Z.lor a b).
  { assert (0 <= Z.lor a b) by (apply Z.lor_nonneg; lia).
    assert (Z.lor a b <> 0) by (rewrite Z.lor_eq_0_iff; lia). lia. }
  apply Z.log2_lt_pow2; [assumption|].
  rewrite Z.log2_lor by lia.
  apply Z.max_lub_lt; apply Z.log2_lt_pow2; lia.
Qed.

Lemma wrap_range w x : 0 <= w -> 0 <= wrap w x < 2 ^ w.
Proof. intros. apply Z.mod_pos_bound. apply Z.pow_pos_nonneg; lia. Qed.

Lemma wrap_le w x : 0 <= w -> 0 <= x -> wrap w x <= x.
Proof.
  intros. apply Z.mod_le; [assumption|]. apply Z.pow_pos_nonneg; lia.
Qed.

Lemma wrap_small w x : 0 <= x < 2 ^ w -> wrap w x = x.
Proof. apply Z.mod_small. Qed.

Section Tile_facts.
Context {A : Type} (p : A -> bool).

Lemma popc_ballot_le l : (popc (ballot p l) <= length l)%nat.
Proof.
  unfold popc, ballot. induction l as [|x l IH]; cbn; [lia|].
  destruct (p x); cbn; lia.
Qed.

Lemma popc_ballot_full l :
  popc (ballot p l) = length l -> Forall (fun x => p x = true) l.
Proof.
  unfold popc, ballot. induction l as [|x l IH]; cbn; [constructor|].
  pose proof (popc_ballot_le l) as Hle. unfold popc, ballot in Hle.
  destruct (p x) eqn:E; cbn; intros Hlen; [|lia].
  constructor; [assumption|]. apply IH. lia.
Qed.
End Tile_facts.

Lemma popc_zeros l :
  Forall (fun y => y = 0) l -> popc (ballot (fun x => negb (x =? 0)) l) = 0%nat.
Proof.
  unfold popc, ballot. induction 1 as [|x l -> _ IH]; cbn; [reflexivity|].
  exact IH.
Qed.

Lemma prefix_filled_load b :
  prefix_filled b ->
  let load := popc (ballot (fun x => negb (x =? 0)) b) in
  (load < length b)%nat -> b !! load = Some 0.
Proof.
  induction b as [|x b IH]; cbn -[popc ballot]; [lia|].
  intros [Hz Hp]. unfold popc, ballot. cbn.
  destruct (Z.eqb_spec x 0) as [->|Hx]; cbn.
  - specialize (Hz eq_refl). pose proof (popc_zeros b Hz) as E.
    unfold popc, ballot in E. rewrite E. reflexivity.
  - intros Hlt. apply IH; [assumption|]. unfold popc, ballot. lia.
Qed.

Lemma prefix_filled_insert b v :
  prefix_filled b -> v <> 0 ->
  prefix_filled (<[popc (ballot (fun x => negb (x =? 0)) b) := v]> b).
Proof.
  induction b as [|x b IH]; cbn -[popc ballot]; [trivial|].
  intros [Hz Hp] Hv. unfold popc, ballot. cbn.
  destruct (Z.eqb_spec x 0) as [->|Hx]; cbn.
  - specialize (Hz eq_refl). pose proof (popc_zeros b Hz) as E.
    unfold popc, ballot in E. rewrite E. cbn. split; [tauto|assumption].
  - split; [tauto|]. apply IH; assumption.
Qed.

Lemma prefix_filled_full b i v :
  Forall (fun x => negb (x =? 0) = true) b -> v <> 0 ->
  prefix_filled (<[i := v]> b).
Proof.
  intros Hall Hv.
  assert (Forall (fun x => x <> 0) (<[i := v]> b)) as Hnz.
  { apply Forall_insert; [|assumption].
    eapply Forall_impl; [exact Hall|]. cbn. intros x Hx ->. discriminate. }
  induction Hnz as [|x l Hx _ IH]; cbn; [trivial|]. tauto.
Qed.

Section Slots.
Context (c : Cuckoo) (Hwf : wf_cuckoo c).

Lemma pow_addr_pos : 0 < 2 ^ addr_width c.
Proof. apply Z.pow_pos_nonneg; [lia|apply (wf_addr c Hwf)]. Qed.

Lemma row_width_nonneg : 0 <= row_width c.
Proof.
  pose proof (wf_row c Hwf). pose proof (wf_rem c Hwf).
  pose proof (bit_width_nonneg (n_hash_functions c)).
  unfold state_width in *. lia.
Qed.

Lemma addr_row_addr_range i k :
  0 <= i < n_hash_functions c -> 0 <= k < 2 ^ key_width c ->
  0 <= fst (addr_row c i k) < 2 ^ addr_width c.
Proof.
  intros Hi Hk. rewrite (addr_row_fst c Hwf) by assumption.
  apply Z.mod_pos_bound, pow_addr_pos.
Qed.

Lemma slot_eq addr rank :
  0 <= addr < 2 ^ addr_width c ->
  slot c addr rank = (Z.to_nat addr * bucket_size c + rank)%nat.
Proof.
  intros Ha. unfold slot. rewrite wrap_small.
  - rewrite Z2Nat.inj_mul, Nat2Z.id by lia. reflexivity.
  - pose proof (wf_addr_type c Hwf). pose proof (wf_bucket_pos c Hwf). nia.
Qed.

Lemma slot_lt rows addr rank :
  table_ok c rows -> 0 <= addr < 2 ^ addr_width c ->
  (rank < bucket_size c)%nat ->
  (slot c addr rank < length rows)%nat.
Proof.
  intros Hok Ha Hr. rewrite slot_eq by assumption.
  pose proof (ok_length c rows Hok). nia.
Qed.

Lemma slot_div addr rank :
  0 <= addr < 2 ^ addr_width c -> (rank < bucket_size c)%nat ->
  Z.of_nat (slot c addr rank / bucket_size c) = addr.
Proof.
  intros Ha Hr. rewrite slot_eq by assumption.
  rewrite Nat.div_add_l by lia. rewrite Nat.div_small by lia. lia.
Qed.

Lemma slot_inj addr rank addr' rank' :
  0 <= addr < 2 ^ addr_width c -> 0 <= addr' < 2 ^ addr_width c ->
  (rank < bucket_size c)%nat -> (rank' < bucket_size c)%nat ->
  slot c addr rank = slot c addr' rank' -> addr = addr' /\ rank = rank'.
Proof.
  intros Ha Ha' Hr Hr'. rewrite !slot_eq by assumption. intros E.
  assert (Z.to_nat addr = Z.to_nat addr') by nia. split; [lia|nia].
Qed.

Lemma length_bucket rows addr : length (bucket c rows addr) = bucket_size c.
Proof. unfold bucket. rewrite length_map, length_seq. reflexivity. Qed.

Lemma bucket_lookup rows addr rank :
  (rank < bucket_size c)%nat ->
  bucket c rows addr !! rank = Some (rd rows (slot c addr rank)).
Proof.
  intros Hr. unfold bucket. rewrite list_lookup_fmap.
  rewrite lookup_seq_lt by assumption. reflexivity.
Qed.

Lemma rd_insert rows i j v :
  (i < length rows)%nat ->
  rd (<[i := v]> rows) j = if decide (i = j) then v else rd rows j.
Proof.
  intros Hi. unfold rd. destruct (decide (i = j)) as [->|Hne].
  - rewrite list_lookup_insert_eq by assumption. reflexivity.
  - rewrite list_lookup_insert_ne by assumption. reflexivity.
Qed.

Lemma bucket_insert_same rows addr rank v :
  table_ok c rows -> 0 <= addr < 2 ^ addr_width c ->
  (rank < bucket_size c)%nat ->
  bucket c (<[slot c addr rank := v]> rows) addr
  = <[rank := v]> (bucket c rows addr).
Proof.
  intros Hok Ha Hr. apply list_eq. intros j.
  destruct (decide (j < bucket_size c)%nat) as [Hj|Hj].
  - rewrite bucket_lookup by assumption.
    rewrite rd_insert by (apply slot_lt; assumption).
    destruct (decide (rank = j)) as [->|Hne].
    + rewrite decide_True by reflexivity.
      rewrite list_lookup_insert_eq by (rewrite length_bucket; lia).
      reflexivity.
    + rewrite decide_False.
      * rewrite list_lookup_insert_ne by assumption.
        rewrite bucket_lookup by assumption. reflexivity.
      * intros E. apply slot_inj in E; [lia|assumption..].
  - rewrite !lookup_ge_None_2; [reflexivity| |].
    + rewrite length_insert, length_bucket. lia.
    + rewrite length_bucket. lia.
Qed.

Lemma bucket_insert_other rows addr addr' rank v :
  table_ok c rows -> 0 <= addr < 2 ^ addr_width c ->
  0 <= addr' < 2 ^ addr_width c -> (rank < bucket_size c)%nat ->
  addr <> addr' ->
  bucket c (<[slot c addr rank := v]> rows) addr' = bucket c rows addr'.
Proof.
  intros Hok Ha Ha' Hr Hne. apply list_eq. intros j.
  destruct (decide (j < bucket_size c)%nat) as [Hj|Hj].
  - rewrite !bucket_lookup by assumption.
    rewrite rd_insert by (apply slot_lt; assumption).
    rewrite decide_False; [reflexivity|].
    intros E. apply slot_inj in E; [tauto|assumption..].
  - rewrite !lookup_ge_None_2; [reflexivity|rewrite length_bucket; lia..].
Qed.
End Slots.

(** The four ways through the body of the loop. *)
Lemma coop_put_body_inv c avoid tile rows k h ch act rows' nxt :
  coop_put_body c avoid tile rows k h ch = (act, rows', nxt) ->
  let addr := fst (addr_row c h k) in
  let row := snd (addr_row c h k) in
  let tmp := bucket c rows addr in
  let load := popc (ballot (fun x => negb (x =? 0)) tmp) in
  (act = Seen /\ rows' = rows /\ nxt = Ret FOUND)
  \/ (exists old,
        act = Cas (slot c addr load) old
        /\ old = rd rows (slot c addr load)
        /\ (load < bucket_size c)%nat
        /\ rows' = (if old =? 0 then <[slot c addr load := row]> rows
                    else rows)
        /\ nxt = (if old =? 0 then Ret PUT
                  else if avoid && (old =? row) then Ret FOUND
                  else Loop k h ch))
  \/ (act = Chain_full /\ rows' = rows /\ nxt = Ret FULL
      /\ load = bucket_size c /\ max_chain_length c <= ch)
  \/ (exists lane idx old,
        act = Exch lane idx old
        /\ lane = cuckoor c tile ch
        /\ idx = slot c addr lane
        /\ old = rd rows idx
        /\ rows' = <[idx := row]> rows
        /\ load = bucket_size c
        /\ ch < max_chain_length c
        /\ nxt = (if avoid && (old =? row) then Ret FOUND
                  else match hash_key c addr old with
                       | None => Trap
                       | Some (h', k') =>
                           Loop k' ((h' + 1) mod n_hash_functions c) (ch + 1)
                       end)).
Proof.
  unfold coop_put_body. destruct (addr_row c h k) as [addr row]. cbn [fst snd].
  intros E.
  destruct (avoid && any (Z.eqb row) (bucket c rows addr)).
  { injection E as <- <- <-. left. auto. }
  pose proof (popc_ballot_le (fun x => negb (x =? 0)) (bucket c rows addr))
    as Hle.
  rewrite length_bucket in Hle.
  destruct (Nat.ltb_spec (popc (ballot (fun x => negb (x =? 0))
                                  (bucket c rows addr))) (bucket_size c))
    as [Hlt|Hge].
  { injection E as <- <- <-. right. left. eexists. repeat split; auto. }
  destruct (Z.leb_spec (max_chain_length c) ch) as [Hmax|Hmax].
  { injection E as <- <- <-. right. right. left. repeat split; auto. lia. }
  injection E as <- <- <-. right. right. right.
  eexists _, _, _. repeat split; auto. lia.
Qed.

Section Body.
Context (c : Cuckoo) (Hwf : wf_cuckoo c).

Lemma hash_key_range addr old h k' :
  0 <= addr < 2 ^ addr_width c ->
  hash_key c addr old = Some (h, k') ->
  (0 <= h < n_hash_functions c) /\ (0 <= k' < 2 ^ key_width c).
Proof.
  intros Ha. unfold hash_key.
  destruct (old =? 0); [discriminate|].
  set (hid := wrap (row_width c) _).
  destruct (Z.ltb_spec hid (n_hash_functions c)) as [Hlt|]; [|discriminate].
  cbn [negb]. intros [= <- <-].
  pose proof (row_width_nonneg c Hwf) as Hrw.
  assert (0 <= hid < n_hash_functions c) as Hh
    by (split; [apply wrap_range; lia|lia]).
  split; [exact Hh|]. apply (wf_inv c Hwf); [exact Hh|].
  pose proof (wf_addr c Hwf) as HA. pose proof (wf_rem c Hwf) as HR.
  pose proof (wf_key c Hwf) as HK.
  assert (0 <= key_width c) by (unfold key_width; lia).
  set (rem := Z.land old (mask (rem_width c))).
  assert (0 <= rem < 2 ^ rem_width c) as Hrem.
  { unfold rem, mask. rewrite Z.land_ones by lia.
    apply Z.mod_pos_bound, Z.pow_pos_nonneg; lia. }
  assert (0 < 2 ^ addr_width c) by (apply Z.pow_pos_nonneg; lia).
  assert (2 ^ key_width c = 2 ^ rem_width c * 2 ^ addr_width c) as HW.
  { unfold key_width. rewrite <- Z.pow_add_r by lia. f_equal. lia. }
  assert (0 <= wrap (row_width c) (Z.shiftl rem (addr_width c))
          < 2 ^ key_width c) as Hx.
  { rewrite Z.shiftl_mul_pow2 by lia.
    pose proof (wrap_range (row_width c) (rem * 2 ^ addr_width c) Hrw).
    pose proof (wrap_le (row_width c) (rem * 2 ^ addr_width c) Hrw).
    nia. }
  assert (2 ^ addr_width c <= 2 ^ key_width c)
    by (apply Z.pow_le_mono_r; unfold key_width; lia).
  pose proof (lor_bound _ addr (key_width c) ltac:(lia) Hx ltac:(lia)) as Hl.
  pose proof (wrap_range (key_bits c) (Z.lor (wrap (row_width c)
    (Z.shiftl rem (addr_width c))) addr) ltac:(lia)).
  pose proof (wrap_le (key_bits c) (Z.lor (wrap (row_width c)
    (Z.shiftl rem (addr_width c))) addr) ltac:(lia) ltac:(lia)).
  lia.
Qed.

Lemma hash_key_occupied addr old :
  occupied c old -> is_Some (hash_key c addr old).
Proof.
  intros [Hold Hst]. unfold hash_key.
  destruct (Z.eqb_spec old 0) as [|_]; [lia|].
  pose proof (state_width_bound c Hwf) as Hsw.
  pose proof (shift_nonneg c Hwf) as Hs.
  pose proof (wf_rem c Hwf) as HR.
  pose proof (bit_width_nonneg (n_hash_functions c)) as Hsw0.
  fold (state_width c) in Hsw0.
  assert (2 ^ state_width c <= 2 ^ row_width c)
    by (apply Z.pow_le_mono_r; lia).
  rewrite wrap_small by lia.
  destruct (Z.ltb_spec (Z.shiftr old (row_width c - state_width c) - 1)
              (n_hash_functions c)); [|lia].
  cbn. eauto.
Qed.

Lemma occupied_row i k :
  0 <= i < n_hash_functions c -> 0 <= k < 2 ^ key_width c ->
  occupied c (snd (addr_row c i k)).
Proof.
  intros Hi Hk. split; [apply (row_bounds c Hwf); assumption|].
  rewrite (row_state c Hwf) by assumption. lia.
Qed.

Lemma cuckoor_lt tile ch : (cuckoor c tile ch < bucket_size c)%nat.
Proof.
  unfold cuckoor. pose proof (wf_bucket_pos c Hwf).
  pose proof (Z.mod_pos_bound
    (wrap 32 (blockIdx tile * blockDim tile + meta_group_rank tile + ch))
    (Z.of_nat (bucket_size c)) ltac:(lia)).
  lia.
Qed.

Lemma cuckoor_eq tile ch :
  Z.of_nat (cuckoor c tile ch)
  = (global_bucket_index tile + ch) mod Z.of_nat (bucket_size c).
Proof.
  unfold cuckoor, global_bucket_index, wrap.
  pose proof (wf_bucket_pos c Hwf). pose proof (wf_bucket_div c Hwf) as Hd.
  set (x := blockIdx tile * blockDim tile + meta_group_rank tile + ch).
  set (B := Z.of_nat (bucket_size c)) in *.
  rewrite Z2Nat.id by (apply Z.mod_pos_bound; lia).
  apply Z.mod_mod_divide.
  apply Z.mod_divide in Hd; [|lia].
  apply Z.divide_trans with 32; [exact Hd|].
  exists (2 ^ 27). reflexivity.
Qed.

Lemma full_bucket_nonzero rows addr rank :
  popc (ballot (fun x => negb (x =? 0)) (bucket c rows addr))
  = bucket_size c ->
  (rank < bucket_size c)%nat -> rd rows (slot c addr rank) <> 0.
Proof.
  intros Hfull Hr.
  assert (Forall (fun x => negb (x =? 0) = true) (bucket c rows addr))
    as Hall by (apply popc_ballot_full; rewrite length_bucket; exact Hfull).
  clear Hfull. rename Hall into Hfull.
  rewrite Forall_lookup in Hfull.
  specialize (Hfull rank _ (bucket_lookup c rows addr rank Hr)).
  cbn in Hfull. intros E. rewrite E in Hfull. discriminate.
Qed.
End Body.

Lemma rd_insert_nonzero rows i j v :
  v <> 0 -> rd rows j <> 0 -> rd (<[i := v]> rows) j <> 0.
Proof.
  intros Hv Hj. destruct (decide (i < length rows)%nat) as [Hi|Hi].
  - rewrite rd_insert by assumption. destruct (decide (i = j)); assumption.
  - rewrite list_insert_ge by lia. assumption.
Qed.

Section Loop.
Context (c : Cuckoo) (Hwf : wf_cuckoo c).
Context (avoid : bool) (tile : Tile).

Lemma body_next_ok rows k h ch act rows' k' h' ch' :
  st_ok c k h ->
  coop_put_body c avoid tile rows k h ch = (act, rows', Loop k' h' ch') ->
  st_ok c k' h'.
Proof.
  intros Hst E. pose proof Hst as [Hh Hk].
  apply coop_put_body_inv in E.
  destruct E as [(_ & _ & E)|[(old & _ & _ & _ & _ & E)
    |[(_ & _ & E & _)|(lane & idx & old & _ & _ & _ & _ & _ & _ & _ & E)]]];
    try discriminate.
  - destruct (old =? 0); [discriminate|].
    destruct (avoid && _); [discriminate|]. injection E as -> -> ->.
    exact Hst.
  - destruct (avoid && _); [discriminate|].
    destruct (hash_key c _ old) as [[h0 k0]|] eqn:Ehk; [|discriminate].
    injection E as -> -> ->.
    apply (hash_key_range c Hwf) in Ehk;
      [|apply (addr_row_addr_range c Hwf); assumption].
    destruct Ehk as [Hh0 Hk0]. split; [|exact Hk0].
    apply Z.mod_pos_bound. lia.
Qed.

Lemma body_reads rows k h ch act rows' nxt :
  coop_put_body c avoid tile rows k h ch = (act, rows', nxt) ->
  let it := {| it_k := k; it_hashid := h; it_chain := ch;
               it_addr := fst (addr_row c h k);
               it_row := snd (addr_row c h k); it_act := act |} in
  reads_ok rows it /\ rows' = apply_write rows it.
Proof.
  intros E. apply coop_put_body_inv in E. unfold reads_ok, apply_write, written.
  cbn [it_act it_row].
  destruct E as [(-> & -> & _)|[(old & -> & Hold & _ & -> & _)
    |[(-> & -> & _)|(lane & idx & old & -> & _ & _ & Hold & -> & _)]]];
    auto.
  split; [auto|]. destruct (old =? 0); reflexivity.
Qed.

Lemma body_written_occupied rows k h ch act rows' nxt :
  st_ok c k h ->
  coop_put_body c avoid tile rows k h ch = (act, rows', nxt) ->
  occupied c (snd (addr_row c h k))
  /\ (forall lane idx old, act = Exch lane idx old -> old <> 0).
Proof.
  intros [Hh Hk] E. split; [apply (occupied_row c Hwf); assumption|].
  apply coop_put_body_inv in E.
  destruct E as [(-> & _)|[(old & -> & _)
    |[(-> & _)|(lane & idx & old & -> & -> & -> & -> & _ & Hfull & _)]]];
    try discriminate.
  intros lane idx old [= <- <- <-].
  apply full_bucket_nonzero; [exact Hfull|apply (cuckoor_lt c Hwf)].
Qed.

(** Every write stores an occupied row, an exchange overwrites a nonzero
    row, and the log is what happened to the array. *)
Lemma coop_put_loop_writes fuel : forall rows k h ch,
  st_ok c k h ->
  replays rows (run_log (coop_put_loop fuel c avoid tile rows k h ch))
  /\ run_rows (coop_put_loop fuel c avoid tile rows k h ch)
     = foldl apply_write rows
         (run_log (coop_put_loop fuel c avoid tile rows k h ch))
  /\ Forall (fun it => occupied c (it_row it)
               /\ forall lane idx old,
                    it_act it = Exch lane idx old -> old <> 0)
       (run_log (coop_put_loop fuel c avoid tile rows k h ch)).
Proof.
  induction fuel as [|fuel IH]; intros rows k h ch Hst.
  { cbn. repeat split; constructor. }
  cbn [coop_put_loop].
  destruct (coop_put_body c avoid tile rows k h ch) as [[act rows'] nxt] eqn:E.
  pose proof (body_reads _ _ _ _ _ _ _ E) as [Hrd Hrows].
  pose proof (body_written_occupied _ _ _ _ _ _ _ Hst E) as [Hocc Hold].
  cbn zeta in Hrd, Hrows.
  destruct nxt as [res|k' h' ch'|];
    cbn [run_log run_rows run_out replays foldl].
  - rewrite <- Hrows. repeat split; auto.
  - pose proof (body_next_ok _ _ _ _ _ _ _ _ _ Hst E) as Hst'.
    destruct (IH rows' k' h' ch' Hst') as (IH1 & IH2 & IH3).
    rewrite <- Hrows. repeat split; auto.
  - rewrite <- Hrows. repeat split; auto.
Qed.
End Loop.

Section Termination.
Context (c : Cuckoo) (Hwf : wf_cuckoo c).
Context (avoid : bool) (tile : Tile).

Lemma table_ok_insert rows addr rank v :
  table_ok c rows -> 0 <= addr < 2 ^ addr_width c ->
  (rank < bucket_size c)%nat -> occupied c v ->
  prefix_filled (<[rank := v]> (bucket c rows addr)) ->
  table_ok c (<[slot c addr rank := v]> rows).
Proof.
  intros Hok Ha Hr Hv Hp. split.
  - rewrite length_insert. apply (ok_length c rows Hok).
  - intros addr' Ha'. destruct (Z.eq_dec addr addr') as [<-|Hne].
    + rewrite (bucket_insert_same c Hwf) by assumption. exact Hp.
    + rewrite (bucket_insert_other c Hwf) by assumption.
      apply (ok_prefix c rows Hok). assumption.
  - intros addr' Ha'. destruct (Z.eq_dec addr addr') as [<-|Hne].
    + rewrite (bucket_insert_same c Hwf) by assumption.
      apply Forall_insert; [|auto]. apply (ok_rows c rows Hok). assumption.
    + rewrite (bucket_insert_other c Hwf) by assumption.
      apply (ok_rows c rows Hok). assumption.
Qed.

Lemma body_table_ok rows k h ch act rows' nxt :
  table_ok c rows -> st_ok c k h ->
  coop_put_body c avoid tile rows k h ch = (act, rows', nxt) ->
  table_ok c rows'.
Proof.
  intros Hok [Hh Hk] E. apply coop_put_body_inv in E.
  pose proof (addr_row_addr_range c Hwf h k Hh Hk) as Ha.
  pose proof (occupied_row c Hwf h k Hh Hk) as Hocc.
  destruct E as [(_ & -> & _)|[(old & _ & _ & Hlt & -> & _)
    |[(_ & -> & _)|(lane & idx & old & _ & -> & -> & _ & -> & Hfull & _)]]];
    try assumption.
  - destruct (old =? 0); [|assumption].
    apply table_ok_insert; try assumption.
    apply prefix_filled_insert;
      [apply (ok_prefix c rows Hok); assumption|].
    destruct Hocc. lia.
  - apply table_ok_insert; try assumption; [apply (cuckoor_lt c Hwf)|].
    apply prefix_filled_full; [|destruct Hocc; lia].
    apply popc_ballot_full. rewrite length_bucket. exact Hfull.
Qed.

Lemma body_progress rows k h ch act rows' nxt :
  table_ok c rows -> st_ok c k h ->
  coop_put_body c avoid tile rows k h ch = (act, rows', nxt) ->
  nxt <> Trap
  /\ forall k' h' ch', nxt = Loop k' h' ch' ->
       ch' = ch + 1 /\ ch < max_chain_length c.
Proof.
  intros Hok [Hh Hk] E. apply coop_put_body_inv in E.
  pose proof (addr_row_addr_range c Hwf h k Hh Hk) as Ha.
  destruct E as [(_ & _ & ->)|[(old & _ & Hold & Hlt & _ & ->)
    |[(_ & _ & -> & _)
     |(lane & idx & old & _ & -> & -> & Hold & _ & Hfull & Hch & ->)]]];
    try (split; [discriminate|intros ? ? ?; discriminate]).
  - pose proof (prefix_filled_load _ (ok_prefix c rows Hok _ Ha)) as Hz.
    cbn zeta in Hz. rewrite length_bucket in Hz. specialize (Hz Hlt).
    rewrite (bucket_lookup c) in Hz by assumption.
    rewrite <- Hold in Hz. injection Hz as ->. cbn.
    split; [discriminate|intros ? ? ?; discriminate].
  - destruct (avoid && _);
      [split; [discriminate|intros ? ? ?; discriminate]|].
    pose proof (cuckoor_lt c Hwf tile ch) as Hl.
    assert (occupied c old) as Hocc.
    { pose proof (ok_rows c rows Hok _ Ha) as Hall.
      rewrite Forall_lookup in Hall.
      specialize (Hall _ _ (bucket_lookup c rows _ _ Hl)).
      rewrite <- Hold in Hall. apply Hall. rewrite Hold.
      apply full_bucket_nonzero; assumption. }
    destruct (hash_key_occupied c Hwf (fst (addr_row c h k)) old Hocc)
      as [[h0 k0] ->].
    split; [discriminate|]. intros k' h' ch' [= _ _ <-]. lia.
Qed.

(** On the tables that the code produces the loop returns within
    [max_chain_length - chain_length + 1] iterations. *)
Lemma coop_put_loop_returns fuel : forall rows k h ch,
  table_ok c rows -> st_ok c k h ->
  (Z.to_nat (max_chain_length c - ch) < fuel)%nat ->
  (exists res,
     run_out (coop_put_loop fuel c avoid tile rows k h ch) = Returned res)
  /\ table_ok c (run_rows (coop_put_loop fuel c avoid tile rows k h ch)).
Proof.
  induction fuel as [|fuel IH]; intros rows k h ch Hok Hst Hfuel; [lia|].
  cbn [coop_put_loop].
  destruct (coop_put_body c avoid tile rows k h ch) as [[act rows'] nxt] eqn:E.
  pose proof (body_table_ok _ _ _ _ _ _ _ Hok Hst E) as Hok'.
  pose proof (body_progress _ _ _ _ _ _ _ Hok Hst E) as [Hnt Hloop].
  destruct nxt as [res|k' h' ch'|]; cbn [run_out run_rows].
  - eauto.
  - destruct (Hloop _ _ _ eq_refl) as [-> Hlt].
    apply IH; [assumption|eapply (body_next_ok c Hwf); eassumption|lia].
  - congruence.
Qed.
End Termination.

Section Chain.
Context (c : Cuckoo) (avoid : bool) (tile : Tile).

Lemma coop_put_loop_head fuel rows k h ch :
  match run_log (coop_put_loop fuel c avoid tile rows k h ch) with
  | it :: _ =>
      it_k it = k /\ it_hashid it = h /\ it_chain it = ch
      /\ it_addr it = fst (addr_row c h k)
      /\ it_row it = snd (addr_row c h k)
  | [] => True
  end.
Proof.
  destruct fuel as [|fuel]; cbn [coop_put_loop]; [exact I|].
  destruct (coop_put_body c avoid tile rows k h ch) as [[act rows'] nxt].
  destruct nxt; cbn; auto.
Qed.

Lemma body_follows rows k h ch act rows' k' h' ch' it' :
  coop_put_body c avoid tile rows k h ch = (act, rows', Loop k' h' ch') ->
  it_k it' = k' -> it_hashid it' = h' -> it_chain it' = ch' ->
  follows c {| it_k := k; it_hashid := h; it_chain := ch;
               it_addr := fst (addr_row c h k);
               it_row := snd (addr_row c h k); it_act := act |} it'.
Proof.
  intros E Hk' Hh' Hch'. apply coop_put_body_inv in E. unfold follows.
  cbn [it_act it_addr it_k it_hashid it_chain].
  destruct E as [(_ & _ & E)|[(old & -> & _ & _ & _ & E)
    |[(_ & _ & E & _)
     |(lane & idx & old & -> & _ & _ & _ & _ & _ & _ & E)]]];
    try discriminate.
  - destruct (old =? 0); [discriminate|].
    destruct (avoid && _); [discriminate|]. injection E as -> -> ->.
    auto.
  - destruct (avoid && _); [discriminate|].
    destruct (hash_key c _ old) as [[h0 k0]|]; [|discriminate].
    injection E as -> -> ->. eauto 6.
Qed.

Lemma chain_bound_mono ch0 ch1 it :
  ch0 <= ch1 ->
  chain_bound c tile ch1 it -> chain_bound c tile ch0 it.
Proof. unfold chain_bound. intros ? [? ?]. split; [lia|assumption]. Qed.

(** The chain counter counts the evictions and stops them at
    [max_chain_length]. *)
Lemma coop_put_loop_chain fuel : forall rows k h ch,
  ch <= max_chain_length c ->
  chained c (run_log (coop_put_loop fuel c avoid tile rows k h ch))
  /\ Forall (chain_bound c tile ch)
       (run_log (coop_put_loop fuel c avoid tile rows k h ch))
  /\ (Z.of_nat (length (evictions
        (run_log (coop_put_loop fuel c avoid tile rows k h ch))))
      <= max_chain_length c - ch)
  /\ Forall (coherent c)
       (run_log (coop_put_loop fuel c avoid tile rows k h ch)).
Proof.
  induction fuel as [|fuel IH]; intros rows k h ch Hch.
  { cbn. repeat split; try constructor. lia. }
  cbn [coop_put_loop].
  destruct (coop_put_body c avoid tile rows k h ch) as [[act rows'] nxt] eqn:E.
  pose proof E as Einv. apply coop_put_body_inv in Einv.
  assert (chain_bound c tile ch
            {| it_k := k; it_hashid := h; it_chain := ch;
               it_addr := fst (addr_row c h k);
               it_row := snd (addr_row c h k); it_act := act |}) as Hb.
  { unfold chain_bound. cbn [it_chain it_act]. split; [lia|].
    destruct Einv as [(-> & _)|[(old & -> & _)
      |[(-> & _ & _ & _ & Hmax)
       |(lane & idx & old & -> & -> & _ & _ & _ & _ & Hlt & _)]]];
      auto. lia. }
  assert (coherent c
            {| it_k := k; it_hashid := h; it_chain := ch;
               it_addr := fst (addr_row c h k);
               it_row := snd (addr_row c h k); it_act := act |}) as Hco.
  { unfold coherent. cbn [it_k it_hashid it_addr it_row it_act].
    split; [reflexivity|]. split; [reflexivity|].
    destruct Einv as [(-> & _)|[(old & -> & _)
      |[(-> & _)|(lane & idx & old & -> & _ & -> & _)]]]; auto. }
  assert (Z.of_nat (length (evictions
            [{| it_k := k; it_hashid := h; it_chain := ch;
                it_addr := fst (addr_row c h k);
                it_row := snd (addr_row c h k); it_act := act |}]))
          <= max_chain_length c - ch) as Hone.
  { unfold evictions, is_exch. cbn.
    destruct Einv as [(-> & _)|[(old & -> & _)
      |[(-> & _)|(lane & idx & old & -> & _ & _ & _ & _ & _ & Hlt & _)]]];
      cbn; lia. }
  destruct nxt as [res|k' h' ch'|]; cbn [run_log].
  - repeat split; auto.
  - assert (ch <= ch' <= max_chain_length c
            /\ (Z.of_nat (length (evictions
                 [{| it_k := k; it_hashid := h; it_chain := ch;
                     it_addr := fst (addr_row c h k);
                     it_row := snd (addr_row c h k); it_act := act |}]))
                = ch' - ch)) as [Hch' Hcnt].
    { unfold evictions, is_exch. cbn.
      destruct Einv as [(_ & _ & En)|[(old & -> & _ & _ & _ & En)
        |[(_ & _ & En & _)
         |(lane & idx & old & -> & _ & _ & _ & _ & _ & Hlt & En)]]];
        try discriminate.
      - destruct (old =? 0); [discriminate|].
        destruct (avoid && _); [discriminate|]. injection En as -> -> ->.
        cbn. lia.
      - destruct (avoid && _); [discriminate|].
        destruct (hash_key c _ old) as [[h0 k0]|]; [|discriminate].
        injection En as -> -> ->. cbn. lia. }
    destruct (IH rows' k' h' ch' ltac:(lia)) as (IH1 & IH2 & IH3 & IH4).
    pose proof (coop_put_loop_head fuel rows' k' h' ch') as Hhead.
    repeat split.
    + destruct (run_log (coop_put_loop fuel c avoid tile rows' k' h' ch'))
        as [|it' log'] eqn:El; [exact I|].
      destruct Hhead as (Hk' & Hh' & Hc' & _).
      split; [|exact IH1]. eapply body_follows; eassumption.
    + constructor; [exact Hb|].
      eapply Forall_impl; [exact IH2|]. intros it.
      apply chain_bound_mono. lia.
    + change (?x :: ?l) with ([x] ++ l). unfold evictions in *.
      rewrite List.filter_app, length_app. lia.
    + constructor; auto.
  - repeat split; auto.
Qed.
End Chain.

Section Conservation.
Context (c : Cuckoo) (Hwf : wf_cuckoo c).
Context (avoid : bool) (tile : Tile).

Lemma stored_middle l1 x l2 :
  stored c (l1 ++ x :: l2)
  = stored c l1
    ++ option_list (decode c (length l1) x)
    ++ omap id (imap (fun n => decode c (length l1 + S n)) l2).
Proof.
  unfold stored. rewrite imap_app, omap_app, imap_cons. cbn [omap].
  rewrite Nat.add_0_r.
  destruct (decode c (length l1) x); cbn; reflexivity.
Qed.

Lemma stored_insert rows idx row k k' :
  (idx < length rows)%nat ->
  decode c idx (rd rows idx) = Some k' ->
  decode c idx row = Some k ->
  k' :: stored c (<[idx := row]> rows) ≡ₚ k :: stored c rows.
Proof.
  intros Hlt Hold Hnew.
  destruct (lookup_lt_is_Some_2 rows idx Hlt) as [old Eold].
  unfold rd in Hold. rewrite Eold in Hold. cbn in Hold.
  rewrite insert_take_drop by assumption.
  rewrite <- (take_drop_middle rows idx old Eold) at 3.
  rewrite !stored_middle.
  rewrite length_take_le by lia. rewrite Hold, Hnew. cbn [option_list app].
  etransitivity; [apply perm_skip; symmetry; apply Permutation_middle|].
  etransitivity; [apply perm_swap|].
  apply perm_skip, Permutation_middle.
Qed.

(** An eviction keeps the keys: the key that goes in takes the place of
    the key that comes out. *)
Lemma body_stored rows k h ch act rows' k' h' ch' :
  key_width c <= row_width c ->
  table_ok c rows -> st_ok c k h ->
  coop_put_body c avoid tile rows k h ch = (act, rows', Loop k' h' ch') ->
  k' :: stored c rows' ≡ₚ k :: stored c rows.
Proof.
  intros Hfit Hok [Hh Hk] E.
  pose proof (body_progress c Hwf avoid tile _ _ _ _ _ _ _ Hok
                (conj Hh Hk) E) as [_ Hloop].
  apply coop_put_body_inv in E.
  pose proof (addr_row_addr_range c Hwf h k Hh Hk) as Ha.
  pose proof (cuckoor_lt c Hwf tile ch) as Hl.
  destruct E as [(_ & _ & E)|[(old & _ & Hold & Hlt & _ & E)
    |[(_ & _ & E & _)
     |(lane & idx & old & _ & -> & -> & Hold & -> & _ & _ & E)]]];
    try discriminate.
  - destruct (Hloop _ _ _ eq_refl) as [Hch _].
    destruct (old =? 0); [discriminate|].
    destruct (avoid && _); [discriminate|]. injection E as _ _ Hc. lia.
  - destruct (avoid && _); [discriminate|].
    destruct (hash_key c _ old) as [[h0 k0]|] eqn:Ehk; [|discriminate].
    injection E as -> _ _.
    apply stored_insert.
    + apply (slot_lt c Hwf); assumption.
    + unfold decode. rewrite (slot_div c Hwf) by assumption.
      rewrite <- Hold, Ehk. reflexivity.
    + unfold decode. rewrite (slot_div c Hwf) by assumption.
      rewrite (hash_key_addr_row c Hwf) by assumption. reflexivity.
Qed.

Lemma coop_put_loop_stored fuel : forall rows k h ch,
  key_width c <= row_width c ->
  table_ok c rows -> st_ok c k h ->
  run_out (coop_put_loop fuel c avoid tile rows k h ch) = Returned FULL ->
  exists it,
    last (run_log (coop_put_loop fuel c avoid tile rows k h ch)) = Some it
    /\ it_act it = Chain_full
    /\ it_k it :: stored c
         (run_rows (coop_put_loop fuel c avoid tile rows k h ch))
       ≡ₚ k :: stored c rows.
Proof.
  induction fuel as [|fuel IH]; intros rows k h ch Hfit Hok Hst;
    [discriminate|].
  cbn [coop_put_loop].
  destruct (coop_put_body c avoid tile rows k h ch) as [[act rows'] nxt] eqn:E.
  destruct nxt as [res|k' h' ch'|]; cbn [run_log run_rows run_out];
    [| |discriminate].
  - intros [= ->]. eexists. split; [reflexivity|]. cbn [it_act it_k].
    apply coop_put_body_inv in E.
    destruct E as [(_ & _ & E)|[(old & _ & _ & _ & _ & E)
      |[(-> & -> & _)|(lane & idx & old & _ & _ & _ & _ & _ & _ & _ & E)]]];
      try discriminate; auto.
    + destruct (old =? 0); [discriminate|].
      destruct (avoid && _); discriminate.
    + destruct (avoid && _); [discriminate|].
      destruct (hash_key c _ old) as [[h0 k0]|]; discriminate.
  - intros Hout.
    pose proof (body_table_ok c Hwf avoid tile _ _ _ _ _ _ _ Hok Hst E).
    pose proof (body_next_ok c Hwf avoid tile _ _ _ _ _ _ _ _ _ Hst E).
    destruct (IH rows' k' h' ch' Hfit ltac:(assumption) ltac:(assumption)
                Hout) as (it & Hlast & Hact & Hperm).
    exists it. split; [|split; [exact Hact|]].
    + destruct (run_log (coop_put_loop fuel c avoid tile rows' k' h' ch'));
        [discriminate|exact Hlast].
    + rewrite Hperm.
      eapply body_stored; eassumption.
Qed.
End Conservation.

Lemma evicted_cons c it log :
  evicted c (it :: log)
  = option_list (match it_act it with
                 | Exch _ _ old => snd <$> hash_key c (it_addr it) old
                 | _ => None
                 end) ++ evicted c log.
Proof.
  unfold evicted. cbn.
  destruct (match it_act it with Exch _ _ _ => _ | _ => _ end); reflexivity.
Qed.

Section Full.
Context (c : Cuckoo) (avoid : bool) (tile : Tile).

(** A run that returns [FULL] made every eviction that the chain counter
    allows, and holds the key that the last of them recovered. *)
Lemma coop_put_loop_full fuel : forall rows k h ch,
  ch <= max_chain_length c ->
  run_out (coop_put_loop fuel c avoid tile rows k h ch) = Returned FULL ->
  exists it,
    last (run_log (coop_put_loop fuel c avoid tile rows k h ch)) = Some it
    /\ it_act it = Chain_full
    /\ Z.of_nat (length (evictions
         (run_log (coop_put_loop fuel c avoid tile rows k h ch))))
       = max_chain_length c - ch
    /\ it_k it
       = default k (last (evicted c
           (run_log (coop_put_loop fuel c avoid tile rows k h ch))))
    /\ (ch < max_chain_length c ->
        last (evicted c
          (run_log (coop_put_loop fuel c avoid tile rows k h ch)))
        = Some (it_k it)).
Proof.
  induction fuel as [|fuel IH]; intros rows k h ch Hch; [discriminate|].
  cbn [coop_put_loop].
  destruct (coop_put_body c avoid tile rows k h ch) as [[act rows'] nxt] eqn:E.
  apply coop_put_body_inv in E.
  destruct nxt as [res|k' h' ch'|]; cbn [run_log run_rows run_out];
    [| |discriminate].
  - intros [= ->]. eexists. split; [reflexivity|]. cbn [it_act it_k].
    destruct E as [(_ & _ & E)|[(old & _ & _ & _ & _ & E)
      |[(-> & _ & _ & _ & Hmax)
       |(lane & idx & old & _ & _ & _ & _ & _ & _ & _ & E)]]];
      try discriminate.
    + destruct (old =? 0); [discriminate|].
      destruct (avoid && _); discriminate.
    + cbn. repeat split; lia.
    + destruct (avoid && _); [discriminate|].
      destruct (hash_key c _ old) as [[h0 k0]|]; discriminate.
  - intros Hout.
    destruct E as [(_ & _ & E)|[(old & -> & _ & _ & _ & E)
      |[(_ & _ & E & _)
       |(lane & idx & old & -> & _ & _ & _ & _ & _ & Hlt & E)]]];
      try discriminate.
    + destruct (old =? 0); [discriminate|].
      destruct (avoid && _); [discriminate|]. injection E as -> -> ->.
      destruct (IH rows' k h ch Hch Hout)
        as (it & Hlast & Hact & Hn & Hk & Hl).
      exists it. repeat split; try assumption.
      destruct (run_log (coop_put_loop fuel c avoid tile rows' k h ch));
        [discriminate|exact Hlast].
    + destruct (avoid && _); [discriminate|].
      destruct (hash_key c _ old) as [[h0 k0]|] eqn:Ehk; [|discriminate].
      injection E as -> -> ->.
      destruct (IH rows' k0 ((h0 + 1) mod n_hash_functions c) (ch + 1)
                  ltac:(lia) Hout) as (it & Hlast & Hact & Hn & Hk & _).
      exists it.
      set (log' := run_log (coop_put_loop fuel c avoid tile rows' k0
                     ((h0 + 1) mod n_hash_functions c) (ch + 1))) in *.
      split; [destruct log'; [discriminate|exact Hlast]|].
      split; [exact Hact|]. split; [unfold evictions in *; cbn; lia|].
      rewrite evicted_cons. cbn [it_act it_addr]. rewrite Ehk.
      change (snd <$> Some (h0, k0)) with (Some k0).
      rewrite Hk.
      destruct (evicted c log') as [|y ys]; cbn; [auto|].
      destruct (last (y :: ys)) eqn:El; [auto|].
      apply last_None in El. discriminate.
Qed.

(** Only a return of [FULL] follows an iteration that found the chain
    full. *)
Lemma coop_put_loop_chain_full fuel : forall rows k h ch it,
  last (run_log (coop_put_loop fuel c avoid tile rows k h ch)) = Some it ->
  it_act it = Chain_full ->
  run_out (coop_put_loop fuel c avoid tile rows k h ch) = Returned FULL.
Proof.
  induction fuel as [|fuel IH]; intros rows k h ch it; [discriminate|].
  cbn [coop_put_loop].
  destruct (coop_put_body c avoid tile rows k h ch)
    as [[act rows'] nxt] eqn:E.
  apply coop_put_body_inv in E.
  destruct nxt as [res|k' h' ch'|]; cbn [run_log run_out].
  - intros [= <-] Hact. cbn [it_act] in Hact. subst act.
    destruct E as [(E & _)|[(old & E & _)
      |[(_ & _ & [= ->] & _)|(lane & idx & old & E & _)]]];
      try discriminate. reflexivity.
  - intros Hlast Hact. apply (IH rows' k' h' ch' it); [|exact Hact].
    destruct (run_log (coop_put_loop fuel c avoid tile rows' k' h' ch'))
      eqn:El; [|exact Hlast].
    injection Hlast as <-. cbn [it_act] in Hact. subst act.
    destruct E as [(E & _)|[(old & E & _)
      |[(_ & _ & E & _)|(lane & idx & old & E & _)]]];
      discriminate.
  - intros [= <-] Hact. cbn [it_act] in Hact. subst act.
    destruct E as [(_ & _ & E)|[(old & E & _)
      |[(_ & _ & E & _)|(lane & idx & old & E & _)]]];
      discriminate.
Qed.

(** More fuel does not change a run that ended. *)
Lemma coop_put_loop_fuel fuel : forall rows k h ch,
  run_out (coop_put_loop fuel c avoid tile rows k h ch) <> Unfinished ->
  coop_put_loop (S fuel) c avoid tile rows k h ch
  = coop_put_loop fuel c avoid tile rows k h ch.
Proof.
  induction fuel as [|fuel IH]; intros rows k h ch Hout;
    [cbn in Hout; congruence|].
  cbn [coop_put_loop] in Hout |- *.
  destruct (coop_put_body c avoid tile rows k h ch) as [[act rows'] nxt].
  destruct nxt as [res|k' h' ch'|]; try reflexivity.
  cbn [run_out] in Hout. specialize (IH rows' k' h' ch' Hout).
  cbn [coop_put_loop] in IH. rewrite IH. reflexivity.
Qed.
End Full.

Lemma bucket_zeros c (rows : list Z) addr :
  Forall (fun y => y = 0) rows -> Forall (fun y => y = 0) (bucket c rows addr).
Proof.
  intros Hz. unfold bucket. apply Forall_fmap, Forall_forall. intros r _.
  cbn. unfold rd. destruct (rows !! _) as [x|] eqn:E; [|reflexivity].
  cbn. rewrite Forall_lookup in Hz. eauto.
Qed.

Lemma prefix_filled_zeros b : Forall (fun y => y = 0) b -> prefix_filled b.
Proof. induction 1; cbn; auto. Qed.

(** A cleared array is a table. *)
Lemma table_ok_zeros c (rows : list Z) :
  2 ^ addr_width c * Z.of_nat (bucket_size c) <= Z.of_nat (length rows) ->
  Forall (fun y => y = 0) rows -> table_ok c rows.
Proof.
  intros Hlen Hz. split; [exact Hlen| |].
  - intros addr _. apply prefix_filled_zeros, bucket_zeros, Hz.
  - intros addr _. eapply Forall_impl; [apply bucket_zeros, Hz|].
    cbn. intros x -> Hx. congruence.
Qed.

Lemma table_ok_clear c (rows : list Z) :
  wf_cuckoo c -> length rows = n_rows c -> table_ok c (clear c rows).
Proof.
  intros Hwf Hlen. unfold clear.
  rewrite drop_ge by lia. rewrite app_nil_r.
  apply table_ok_zeros.
  - rewrite length_replicate. apply (wf_n_rows c Hwf).
  - apply Forall_replicate. reflexivity.
Qed.

(** What [count] finds is in the array: [coop_find] answers [true] only
    for a key that [count] counts. *)
Lemma coop_find_count c rows k :
  coop_find c rows k = true -> (0 < count c rows k)%nat.
Proof.
  unfold coop_find, count.
  induction (seqZ 0 (n_hash_functions c)) as [|hid hids IH];
    [discriminate|].
  cbn [coop_find_from]. rewrite fmap_cons. cbn [sum_list_with id].
  destruct (addr_row c hid k) as [addr row].
  destruct (any (Z.eqb row) (bucket c rows addr)) eqn:Ea.
  - intros _. unfold any in Ea. apply existsb_exists in Ea.
    destruct Ea as (x & Hin & Hx).
    assert (In x (List.filter (Z.eqb row) (bucket c rows addr)))
      by (apply List.filter_In; auto).
    destruct (List.filter (Z.eqb row) (bucket c rows addr));
      [contradiction|cbn [length]; lia].
  - destruct (any (Z.eqb 0) (bucket c rows addr)); [discriminate|].
    intros Hf. specialize (IH Hf).
    eapply Nat.lt_le_trans; [exact IH|]. apply Nat.le_add_l.
Qed.

(** Writes of nonzero rows leave no slot empty that was occupied. *)
Lemma foldl_apply_write_nonzero log :
  Forall (fun it => forall idx row, written it = Some (idx, row) -> row <> 0)
    log ->
  forall rows i, rd rows i <> 0 -> rd (foldl apply_write rows log) i <> 0.
Proof.
  induction 1 as [|it log Hit _ IH]; intros rows i Hi; [exact Hi|].
  cbn [foldl]. apply IH. unfold apply_write.
  destruct (written it) as [[idx row]|] eqn:Hwr; [|exact Hi].
  apply rd_insert_nonzero; [|exact Hi]. apply (Hit idx row eq_refl).
Qed.

(** Every iteration runs on a hash id and a key of the universe. *)
Lemma coop_put_loop_st_ok c avoid tile fuel :
  wf_cuckoo c -> forall rows k h ch,
  st_ok c k h ->
  Forall (fun it => st_ok c (it_k it) (it_hashid it))
    (run_log (coop_put_loop fuel c avoid tile rows k h ch)).
Proof.
  intros Hwf. induction fuel as [|fuel IH]; intros rows k h ch Hst;
    [constructor|].
  cbn [coop_put_loop].
  destruct (coop_put_body c avoid tile rows k h ch) as [[act rows'] nxt] eqn:E.
  destruct nxt as [res|k' h' ch'|]; cbn [run_log].
  - constructor; [exact Hst|constructor].
  - constructor; [exact Hst|]. apply IH.
    eapply (body_next_ok c Hwf); eassumption.
  - constructor; [exact Hst|constructor].
Qed.

(** The number that picks the lane tells the tiles of a launch apart. *)
Lemma global_bucket_index_inj t1 t2 :
  blockDim t1 = blockDim t2 ->
  0 <= meta_group_rank t1 < blockDim t1 ->
  0 <= meta_group_rank t2 < blockDim t2 ->
  global_bucket_index t1 = global_bucket_index t2 ->
  blockIdx t1 = blockIdx t2 /\ meta_group_rank t1 = meta_group_rank t2.
Proof.
  unfold global_bucket_index. intros Hd H1 H2 E. rewrite <- Hd in *.
  assert (blockIdx t1 = blockIdx t2) by nia. split; [assumption|nia].
Qed.

(** A run that returns [FULL] before the chain is full starts with an
    eviction, which stores the key it was called with. *)
Lemma coop_put_loop_full_first c avoid tile fuel rows k h ch :
  wf_cuckoo c -> table_ok c rows -> st_ok c k h ->
  ch < max_chain_length c ->
  run_out (coop_put_loop fuel c avoid tile rows k h ch) = Returned FULL ->
  exists first,
    head (run_log (coop_put_loop fuel c avoid tile rows k h ch)) = Some first
    /\ is_exch first = true
    /\ written first
       = Some (slot c (it_addr first) (cuckoor c tile ch),
               snd (addr_row c h k)).
Proof.
  intros Hwf Hok Hst Hch. destruct fuel as [|fuel]; [discriminate|].
  cbn [coop_put_loop].
  destruct (coop_put_body c avoid tile rows k h ch) as [[act rows'] nxt] eqn:E.
  pose proof (body_progress c Hwf avoid tile _ _ _ _ _ _ _ Hok Hst E)
    as [Hnt Hloop].
  apply coop_put_body_inv in E.
  assert (is_exch {| it_k := k; it_hashid := h; it_chain := ch;
                     it_addr := fst (addr_row c h k);
                     it_row := snd (addr_row c h k); it_act := act |} = true
          /\ written {| it_k := k; it_hashid := h; it_chain := ch;
                        it_addr := fst (addr_row c h k);
                        it_row := snd (addr_row c h k); it_act := act |}
             = Some (slot c (fst (addr_row c h k)) (cuckoor c tile ch),
                     snd (addr_row c h k))
          \/ exists res, nxt = Ret res /\ res <> FULL) as [Hex|(res & -> & Hres)].
  { destruct E as [(_ & _ & ->)|[(old & _ & _ & _ & _ & ->)
      |[(_ & _ & _ & _ & Hmax)
       |(lane & idx & old & -> & -> & -> & _)]]].
    - right. eexists. split; [reflexivity|discriminate].
    - right. destruct (old =? 0);
        [eexists; split; [reflexivity|discriminate]|].
      destruct (avoid && _);
        [eexists; split; [reflexivity|discriminate]|].
      destruct (Hloop _ _ _ eq_refl). lia.
    - lia.
    - left. split; reflexivity. }
  - intros _. destruct nxt as [res|k' h' ch'|]; cbn [run_log head];
      eexists; (split; [reflexivity|exact Hex]).
  - cbn [run_out]. congruence.
Qed.

(** ** The dispatchers *)

Section Monad_facts.
Context {St Rs : Type}.

Lemma bind_ext {X Y} (m m' : @M St Rs X) (f f' : X -> @M St Rs Y) s :
  m s = m' s -> (forall x s', f x s' = f' x s') ->
  bind m f s = bind m' f' s.
Proof.
  intros Hm Hf. unfold bind. rewrite Hm.
  destruct (m' s) as [s' [x|]]; [apply Hf|reflexivity].
Qed.

Lemma for_each_app {X} (f : X -> @M St Rs unit) l1 l2 s :
  for_each f (l1 ++ l2) s
  = bind (for_each f l1) (fun _ => for_each f l2) s.
Proof.
  revert s. induction l1 as [|x l1 IH]; intros s; cbn [for_each app].
  - unfold bind, ret. reflexivity.
  - unfold bind in *. destruct (f x s) as [s' [[]|]]; [apply IH|reflexivity].
Qed.

Lemma for_each_ret {X} (f : X -> @M St Rs unit) l s :
  (forall x s, In x l -> f x s = (s, Some tt)) ->
  for_each f l s = (s, Some tt).
Proof.
  induction l as [|x l IH]; intros Hf; cbn; [reflexivity|].
  unfold bind. rewrite Hf by (left; reflexivity).
  apply IH. intros y s' Hy. apply Hf. right. exact Hy.
Qed.

Lemma for_each_ext {X} (f f' : X -> @M St Rs unit) l s :
  (forall x s, In x l -> f x s = f' x s) ->
  for_each f l s = for_each f' l s.
Proof.
  revert s. induction l as [|x l IH]; intros s Hf; cbn; [reflexivity|].
  unfold bind. rewrite Hf by (left; reflexivity).
  destruct (f' x s) as [s' [[]|]]; [|reflexivity].
  apply IH. intros y s'' Hy. apply Hf. right. exact Hy.
Qed.

Lemma for_each_flat_map {X Y} (f : Y -> @M St Rs unit) (h : X -> list Y) l s :
  for_each (fun x => for_each f (h x)) l s = for_each f (flat_map h l) s.
Proof.
  revert s. induction l as [|x l IH]; intros s; cbn; [reflexivity|].
  rewrite for_each_app. unfold bind.
  destruct (for_each f (h x) s) as [s' [[]|]]; [apply IH|reflexivity].
Qed.

Lemma for_each_fmap {X Y} (f : Y -> @M St Rs unit) (h : X -> Y) l s :
  for_each f (map h l) s = for_each (fun x => f (h x)) l s.
Proof.
  revert s. induction l as [|x l IH]; intros s; cbn; [reflexivity|].
  unfold bind. destruct (f (h x) s) as [s' [[]|]]; [|reflexivity].
  apply IH.
Qed.

(** A property of the state that every step keeps is kept by the loop,
    whether it completes or not. *)
Lemma for_each_keeps {X} (P : dstate St Rs -> Prop) (f : X -> @M St Rs unit) l :
  (forall x s, In x l -> P s -> P (fst (f x s))) ->
  forall s, P s -> P (fst (for_each f l s)).
Proof.
  induction l as [|x l IH]; intros Hf s Hs; cbn; [exact Hs|].
  unfold bind. pose proof (Hf x s ltac:(left; reflexivity) Hs) as Hx.
  destruct (f x s) as [s' [[]|]]; [|exact Hx].
  apply IH; [|exact Hx]. intros y s'' Hy. apply Hf. right. exact Hy.
Qed.

(** A loop of steps that complete completes. *)
Lemma for_each_completes {X} (P : dstate St Rs -> Prop) (f : X -> @M St Rs unit) l :
  (forall x s, In x l -> P s -> P (fst (f x s)) /\ snd (f x s) = Some tt) ->
  forall s, P s -> P (fst (for_each f l s))
                   /\ snd (for_each f l s) = Some tt.
Proof.
  induction l as [|x l IH]; intros Hf s Hs; cbn; [auto|].
  unfold bind. pose proof (Hf x s ltac:(left; reflexivity) Hs) as [Hx Ho].
  destruct (f x s) as [s' o]. cbn in Hx, Ho. subst o.
  apply IH; [|exact Hx]. intros y s'' Hy. apply Hf. right. exact Hy.
Qed.
End Monad_facts.

Section Ballot_facts.
Context {A : Type} (p : A -> bool).

Lemma ffs_ballot_none l :
  ffs (ballot p l) = None -> List.filter p l = [].
Proof.
  unfold ballot. induction l as [|x l IH]; cbn; [reflexivity|].
  destruct (p x); [discriminate|].
  destruct (ffs (map p l)); [discriminate|]. auto.
Qed.

Lemma ffs_ballot_some l n :
  ffs (ballot p l) = Some n ->
  exists pre x rest,
    l = pre ++ x :: rest /\ length pre = n /\ p x = true
    /\ List.filter p pre = [].
Proof.
  unfold ballot. revert n. induction l as [|x l IH]; intros n; cbn;
    [discriminate|].
  destruct (p x) eqn:Ex.
  - intros [= <-]. exists [], x, l. auto.
  - destruct (ffs (map p l)) as [m|] eqn:Em; [|discriminate].
    intros [= <-]. destruct (IH m eq_refl) as (pre & y & rest & -> & <- & Hy & Hpre).
    exists (x :: pre), y, rest. cbn. rewrite Ex. auto.
Qed.
End Ballot_facts.

Section Leader_loop.
Context {St Rs : Type} (F : @per_key St Rs) (tile : Tile)
        (results_at : nat -> nat).

(** The loop of a tile visits its pending lanes in the order of their
    ranks, each once. *)
Lemma leader_loop_visits fuel : forall lanes s,
  (length (List.filter ln_act lanes) <= fuel)%nat ->
  leader_loop fuel F tile results_at lanes s
  = for_each (visit F tile results_at) (List.filter ln_act lanes) s.
Proof.
  induction fuel as [|fuel IH]; intros lanes s Hfuel.
  - assert (List.filter ln_act lanes = []) as E
      by (destruct (List.filter ln_act lanes); [reflexivity|cbn in Hfuel; lia]).
    rewrite E. cbn.
    destruct (ffs (ballot ln_act lanes)) as [n|] eqn:En; [|reflexivity].
    apply ffs_ballot_some in En.
    destruct En as (pre & x & rest & -> & _ & Hx & _).
    rewrite List.filter_app in E. cbn in E. rewrite Hx in E.
    destruct (List.filter ln_act pre); discriminate.
  - cbn [leader_loop].
    destruct (ffs (ballot ln_act lanes)) as [n|] eqn:En.
    + apply ffs_ballot_some in En.
      destruct En as (pre & x & rest & -> & <- & Hx & Hpre).
      rewrite list_lookup_middle by reflexivity.
      rewrite List.filter_app in Hfuel |- *. cbn [List.filter] in Hfuel |- *.
      rewrite Hx, Hpre in Hfuel |- *. cbn [app for_each length] in Hfuel |- *.
      unfold bind at 1 2.
      destruct (visit F tile results_at x s) as [s' [[]|]]; [|reflexivity].
      rewrite IH.
      * rewrite insert_app_r_alt by lia. rewrite Nat.sub_diag. cbn [insert].
        rewrite List.filter_app. cbn [List.filter deactivate ln_act].
        rewrite Hpre. reflexivity.
      * rewrite insert_app_r_alt by lia. rewrite Nat.sub_diag. cbn.
        rewrite List.filter_app. cbn [List.filter deactivate ln_act].
        rewrite Hpre. cbn. lia.
    + apply ffs_ballot_none in En. rewrite En. reflexivity.
Qed.
End Leader_loop.

(** *** [unsigned int] positions *)

Lemma uint_small n : Z.of_nat n < 2 ^ 32 -> uint n = n.
Proof. intros H. unfold uint. rewrite Z.mod_small by lia. lia. Qed.

Lemma uint_lt n : Z.of_nat (uint n) < 2 ^ 32.
Proof.
  unfold uint. pose proof (Z.mod_pos_bound (Z.of_nat n) (2 ^ 32) ltac:(lia)).
  lia.
Qed.

Lemma uint_pred_pos i :
  (0 < i)%nat -> Z.of_nat i <= 2 ^ 32 -> uint_pred i = (i - 1)%nat.
Proof. intros H0 H. unfold uint_pred. rewrite Z.mod_small by lia. lia. Qed.

Lemma uint_pred_0 : Z.of_nat (uint_pred 0) = 2 ^ 32 - 1.
Proof.
  unfold uint_pred. rewrite Z2Nat.id by (apply Z.mod_pos_bound; lia).
  reflexivity.
Qed.

Lemma iterations_from_done fuel i s m :
  (m <= i)%nat -> iterations_from fuel i s m = ([], true).
Proof.
  intros H. apply Nat.leb_le in H. destruct fuel; cbn [iterations_from];
    rewrite H; reflexivity.
Qed.

Lemma iterations_from_step fuel i s m :
  (i < m)%nat ->
  iterations_from (S fuel) i s m
  = (i :: fst (iterations_from fuel (uint (i + s)) s m),
     snd (iterations_from fuel (uint (i + s)) s m)).
Proof.
  intros H. apply Nat.leb_gt in H. cbn [iterations_from]. rewrite H.
  reflexivity.
Qed.

(** When [max + stride] is at most [2^32] the loop variable does not wrap
    around: the loop ends, at positions from [index] on. *)
Lemma iterations_from_nowrap s m :
  Z.of_nat m + Z.of_nat s <= 2 ^ 32 -> (0 < s)%nat ->
  forall fuel i,
    (m - i <= fuel)%nat ->
    snd (iterations_from fuel i s m) = true
    /\ forall b, In b (fst (iterations_from fuel i s m)) ->
         (i <= b < m)%nat.
Proof.
  intros Hnw Hs. induction fuel as [|fuel IH]; intros i Hfuel.
  - rewrite iterations_from_done by lia. split; [reflexivity|intros b []].
  - destruct (Nat.le_gt_cases m i) as [Hi|Hi].
    + rewrite iterations_from_done by lia. split; [reflexivity|intros b []].
    + rewrite iterations_from_step by exact Hi. cbn [fst snd].
      rewrite uint_small by lia.
      destruct (IH (i + s)%nat ltac:(lia)) as [Hfin Hin].
      split; [exact Hfin|]. intros b [<-|Hb]; [lia|].
      apply Hin in Hb. lia.
Qed.

(** The loop has not ended within [fuel] iterations when the first
    [fuel + 1] values of [i] are below [max]. *)
Lemma iterations_from_unfinished s m fuel : forall i,
  snd (iterations_from fuel i s m) = false
  <-> forall j, (j <= fuel)%nat ->
        (Nat.iter j (fun x => uint (x + s)) i < m)%nat.
Proof.
  induction fuel as [|fuel IH]; intros i.
  - cbn [iterations_from]. destruct (Nat.leb_spec m i) as [Hi|Hi]; cbn [snd].
    + split; [discriminate|]. intros H.
      specialize (H 0%nat ltac:(lia)). cbn in H. lia.
    + split; [|reflexivity]. intros _ j Hj.
      assert (j = 0%nat) as -> by lia. exact Hi.
  - destruct (Nat.le_gt_cases m i) as [Hi|Hi].
    + rewrite iterations_from_done by exact Hi. cbn [snd].
      split; [discriminate|]. intros H.
      specialize (H 0%nat ltac:(lia)). cbn in H. lia.
    + rewrite iterations_from_step by exact Hi. cbn [snd]. rewrite IH.
      split; intros H j Hj.
      * destruct j as [|j]; [exact Hi|].
        rewrite Nat.iter_succ_r. apply H. lia.
      * specialize (H (S j) ltac:(lia)). rewrite Nat.iter_succ_r in H.
        exact H.
Qed.

(** Among [n + 1] values below [n] two are equal. *)
Lemma dup_or_NoDup (f : nat -> nat) k :
  (exists a b, (a < b < k)%nat /\ f a = f b) \/ NoDup (map f (seq 0 k)).
Proof.
  induction k as [|k [(a & b & Hab & E)|Hnd]].
  - right. constructor.
  - left. exists a, b. split; [lia|exact E].
  - rewrite seq_S, map_app. cbn [map Nat.add].
    destruct (in_dec Nat.eq_dec (f k) (map f (seq 0 k))) as [Hin|Hout].
    + left. apply in_map_iff in Hin as (a & E & Ha). apply in_seq in Ha.
      exists a, k. split; [lia|exact E].
    + right. apply NoDup_app. split; [exact Hnd|].
      split; [|apply NoDup_singleton].
      intros x Hx Hk. apply list_elem_of_singleton in Hk as ->.
      apply Hout, list_elem_of_In, Hx.
Qed.

Lemma pigeonhole (f : nat -> nat) n :
  (forall j, (j <= n)%nat -> (f j < n)%nat) ->
  exists a b, (a < b <= n)%nat /\ f a = f b.
Proof.
  intros Hf. destruct (dup_or_NoDup f (S n)) as [(a & b & Hab & E)|Hnd].
  - exists a, b. split; [lia|exact E].
  - exfalso.
    assert (map f (seq 0 (S n)) ⊆+ seq 0 n) as Hsub.
    { apply NoDup_submseteq; [exact Hnd|]. intros x Hx.
      apply list_elem_of_In, in_map_iff in Hx as (j & <- & Hj).
      apply in_seq in Hj. apply elem_of_seq. specialize (Hf j). lia. }
    apply submseteq_length in Hsub.
    rewrite length_map, !length_seq in Hsub. lia.
Qed.

(** The loop of a thread ends within [max] iterations or not at all. *)
Lemma iterations_fuel i s m :
  snd (iterations i s m) = false ->
  forall fuel, snd (iterations_from fuel i s m) = false.
Proof.
  unfold iterations. intros H fuel.
  rewrite iterations_from_unfinished in H |- *.
  set (f := fun j => Nat.iter j (fun x => uint (x + s)) i) in *.
  change (forall j, (j <= m)%nat -> (f j < m)%nat) in H.
  cut (forall j, (f j < m)%nat); [intros Hall j _; apply Hall|].
  destruct (pigeonhole f m H) as (a & b & Hab & E).
  assert (forall n, f (a + n)%nat = f (b + n)%nat) as Hper.
  { induction n as [|n IHn]; [rewrite !Nat.add_0_r; exact E|].
    rewrite !Nat.add_succ_r.
    change (uint (f (a + n)%nat + s) = uint (f (b + n)%nat + s)).
    rewrite IHn. reflexivity. }
  intros j. induction j as [j IHj] using lt_wf_ind.
  destruct (Nat.le_gt_cases j m) as [Hj|Hj]; [apply H; exact Hj|].
  replace j with (b + (j - b))%nat by lia. rewrite <- Hper.
  apply IHj. lia.
Qed.

(** Once the loop has ended more fuel changes nothing. *)
Lemma iterations_from_more s m fuel : forall i fuel',
  snd (iterations_from fuel i s m) = true -> (fuel <= fuel')%nat ->
  iterations_from fuel' i s m = iterations_from fuel i s m.
Proof.
  induction fuel as [|fuel IH]; intros i fuel' H Hle.
  - cbn [iterations_from] in H |- *.
    destruct (Nat.leb_spec m i) as [Hi|Hi]; [|discriminate].
    apply iterations_from_done. exact Hi.
  - destruct (Nat.le_gt_cases m i) as [Hi|Hi].
    + rewrite !iterations_from_done by exact Hi. reflexivity.
    + destruct fuel' as [|fuel']; [lia|].
      rewrite iterations_from_step in H by exact Hi. cbn [snd] in H.
      rewrite !iterations_from_step by exact Hi.
      rewrite (IH _ fuel' H) by lia. reflexivity.
Qed.

(** A loop variable that wraps around to 0: the thread runs a second
    iteration, at position 0. *)
Lemma iterations_wrapped i s m :
  (0 < i < m)%nat -> Z.of_nat i + Z.of_nat s = 2 ^ 32 -> (m <= s)%nat ->
  iterations i s m = ([i; 0%nat], true).
Proof.
  intros Hi Hw Hs. unfold iterations.
  destruct m as [|[|m]]; [lia|lia|].
  rewrite iterations_from_step by lia.
  assert (uint (i + s) = 0%nat) as ->.
  { unfold uint. rewrite Nat2Z.inj_add, Hw. reflexivity. }
  rewrite iterations_from_step by lia.
  rewrite iterations_from_done; [reflexivity|].
  rewrite uint_small by lia. lia.
Qed.

(** The thread that is at position 0 with an index that is not 0 reads
    [start[i - 1]] at [i = 0]. *)
Lemma sorted_thread_reads_wrapped start len index :
  (0 < len)%nat -> index <> 0%nat ->
  th_reads (sorted_thread start len index 0) = [0; 2 ^ 32 - 1].
Proof.
  intros Hl Hi. unfold sorted_thread. cbn [th_reads].
  destruct (Nat.ltb_spec 0 len) as [_|]; [|lia].
  destruct (Nat.eqb_spec index 0) as [|_]; [contradiction|].
  cbn [bind_l load pure_l fst snd app]. rewrite uint_pred_0. reflexivity.
Qed.

Section Safety.
Context {St Rs : Type} (c : Cuckoo) (F : @per_key St Rs).
Context (start : nat -> Z) (len : nat) (results_at : nat -> nat).

Lemma range_only_refl (s : dstate St Rs) :
  range_only start len results_at s s.
Proof.
  split; [exists []; rewrite app_nil_r; auto|]. split; reflexivity || auto.
Qed.

Lemma range_only_trans (s s' s'' : dstate St Rs) :
  range_only start len results_at s s' ->
  range_only start len results_at s' s'' ->
  range_only start len results_at s s''.
Proof.
  intros [(e1 & E1 & H1) [L1 R1]] [(e2 & E2 & H2) [L2 R2]].
  split; [|split].
  - exists (e1 ++ e2). rewrite E2, E1, app_assoc. split; [reflexivity|].
    apply Forall_app; auto.
  - congruence.
  - intros p Hp. rewrite R2, R1 by exact Hp. reflexivity.
Qed.

Lemma visit_range_only tile l s :
  (ln_i l < len)%nat -> ln_k l = Some (start (ln_i l)) ->
  range_only start len results_at s
    (fst (visit F tile results_at l s)).
Proof.
  intros Hi Hk. unfold visit, bind, invoke, store. rewrite Hk.
  destruct (F tile (d_st s) (start (ln_i l))) as [[r st']|]; cbn;
    [|apply range_only_refl].
  split; [|split]; cbn.
  - exists [Call (ln_i l) (start (ln_i l)); Store (ln_i l)].
    rewrite <- app_assoc. split; [reflexivity|].
    repeat constructor; assumption.
  - apply length_insert.
  - intros p Hp. apply list_lookup_insert_ne. apply Hp. exact Hi.
Qed.

Lemma visit_completes tile l s :
  (forall tile st k, is_Some (F tile st k)) ->
  is_Some (ln_k l) ->
  snd (visit F tile results_at l s) = Some tt.
Proof.
  intros Htot [k Hk]. unfold visit, bind, invoke, store. rewrite Hk.
  destruct (Htot tile (d_st s) k) as [[r st'] ->]. reflexivity.
Qed.

Lemma leader_loop_range_only tile lanes s0 s :
  Forall (lane_ok start len) lanes ->
  range_only start len results_at s0 s ->
  range_only start len results_at s0
    (fst (leader_loop (length lanes) F tile results_at lanes s)).
Proof.
  intros Hl Hs.
  rewrite leader_loop_visits by apply List.filter_length_le.
  apply (for_each_keeps (range_only start len results_at s0)); [|exact Hs].
  intros l s' Hin Hs'. apply List.filter_In in Hin as [Hin Hact].
  rewrite Forall_forall in Hl.
  destruct (Hl l ltac:(apply list_elem_of_In; exact Hin) Hact) as [Hi Hk].
  eapply range_only_trans; [exact Hs'|]. apply visit_range_only; assumption.
Qed.

Lemma leader_loop_completes tile lanes s :
  (forall tile st k, is_Some (F tile st k)) ->
  Forall (lane_ok start len) lanes ->
  snd (leader_loop (length lanes) F tile results_at lanes s) = Some tt.
Proof.
  intros Htot Hl.
  rewrite leader_loop_visits by apply List.filter_length_le.
  apply (for_each_completes (fun _ => True)); [|exact I].
  intros l s' Hin _. split; [exact I|].
  apply List.filter_In in Hin as [Hin Hact].
  rewrite Forall_forall in Hl.
  destruct (Hl l ltac:(apply list_elem_of_In; exact Hin) Hact) as [_ Hk].
  apply visit_completes; [exact Htot|]. rewrite Hk. eauto.
Qed.

Lemma length_tile_threads mk T base :
  length (tile_threads c mk T base) = bucket_size c.
Proof. unfold tile_threads. rewrite length_map, length_seq. reflexivity. Qed.

Lemma coop_lanes_ok T base :
  Forall (lane_ok start len)
    (map (fun th => lane_of th (th_in_range th))
       (tile_threads c (fun _ i => coop_thread start len i) T base)).
Proof.
  unfold tile_threads. rewrite Forall_fmap, Forall_fmap.
  apply Forall_forall. intros rank _. unfold lane_ok, lane_of, coop_thread.
  cbn [compose ln_act ln_i ln_k th_in_range th_i th_k].
  destruct (base + rank <? len)%nat eqn:E; [|discriminate].
  apply Nat.ltb_lt in E. auto.
Qed.

Lemma sorted_lanes_ok T base :
  Forall (lane_ok start len)
    (map (fun th => lane_of th (th_in_range th && th_first th))
       (tile_threads c (sorted_thread start len) T base)).
Proof.
  unfold tile_threads. rewrite Forall_fmap, Forall_fmap.
  apply Forall_forall. intros rank _. unfold lane_ok, lane_of, sorted_thread.
  cbn [compose ln_act ln_i ln_k th_in_range th_i th_k].
  destruct (base + rank <? len)%nat eqn:E; [|discriminate].
  apply Nat.ltb_lt in E. auto.
Qed.

Lemma kernel_keeps (P : dstate St Rs -> Prop) g
    (body : nat -> nat -> @M St Rs unit) s :
  (forall T base s, P s -> P (fst (body T base s))) ->
  P s -> P (fst (kernel c g len body s)).
Proof.
  intros Hb Hs. unfold kernel.
  apply (for_each_keeps P); [|exact Hs]. intros T s' _ Hs'.
  unfold bind.
  pose proof (for_each_keeps P (body T) (fst (tile_iterations c g len T))
                (fun base s'' _ => Hb T base s'') s' Hs') as H.
  destruct (for_each (body T) (fst (tile_iterations c g len T)) s')
    as [s2 [[]|]]; [|exact H].
  destruct (snd (tile_iterations c g len T)); exact H.
Qed.

Lemma kernel_completes g (body : nat -> nat -> @M St Rs unit) s :
  (forall T, (T < n_threads g / bucket_size c)%nat ->
     snd (tile_iterations c g len T) = true) ->
  (forall T base s, snd (body T base s) = Some tt) ->
  snd (kernel c g len body s) = Some tt.
Proof.
  intros Hfin Hb. unfold kernel.
  apply (for_each_completes (fun _ => True)); [|exact I]. intros T s' HT _.
  split; [exact I|]. apply in_seq in HT. rewrite Hfin by lia.
  unfold bind.
  pose proof (for_each_completes (fun _ => True) (body T)
                (fst (tile_iterations c g len T))
                (fun b s'' _ _ => conj I (Hb T b s'')) s' I) as [_ H].
  destruct (for_each (body T) (fst (tile_iterations c g len T)) s')
    as [s2 o]. cbn [snd] in H. subst o. reflexivity.
Qed.

Lemma kernel_reads_in_range g mk :
  (forall T base rank,
     (T < n_threads g / bucket_size c)%nat -> (rank < bucket_size c)%nat ->
     In base (fst (tile_iterations c g len T)) ->
     Forall (fun j => 0 <= j < Z.of_nat len)
       (th_reads (mk (uint (T * bucket_size c + rank)) (base + rank))%nat)) ->
  Forall (fun j => 0 <= j < Z.of_nat len) (kernel_reads c g len mk).
Proof.
  intros Hmk. unfold kernel_reads.
  apply Forall_forall. intros j Hj. apply list_elem_of_In in Hj.
  apply in_flat_map in Hj as (T & HT & Hj). apply in_seq in HT.
  apply in_flat_map in Hj as (base & Hbase & Hj).
  apply in_flat_map in Hj as (th & Hth & Hj).
  unfold tile_threads in Hth. apply in_map_iff in Hth as (rank & <- & Hr).
  apply in_seq in Hr.
  specialize (Hmk T base rank ltac:(lia) ltac:(lia) Hbase).
  rewrite Forall_forall in Hmk.
  apply Hmk. apply list_elem_of_In. exact Hj.
Qed.

(** When the number of threads is below [2^32] and, added to [max], at
    most [2^32], no [unsigned int] of a kernel wraps around: the loop of
    every tile ends, at positions that are not below the index of its
    first thread. *)
Lemma tile_iterations_nowrap g T :
  Z.of_nat (n_threads g) < 2 ^ 32 ->
  Z.of_nat (max_index c len) + Z.of_nat (n_threads g) <= 2 ^ 32 ->
  (T < n_threads g / bucket_size c)%nat ->
  snd (tile_iterations c g len T) = true
  /\ forall b, In b (fst (tile_iterations c g len T)) ->
       (T * bucket_size c <= b < max_index c len)%nat.
Proof.
  intros Hlt Hnw HT. unfold tile_iterations, iterations, stride.
  assert (T * bucket_size c < n_threads g)%nat as Hlt'.
  { destruct (bucket_size c) as [|B]; [rewrite Nat.div_0_r in HT; lia|].
    pose proof (Nat.div_mod (n_threads g) (S B) ltac:(lia)).
    pose proof (Nat.mod_upper_bound (n_threads g) (S B) ltac:(lia)). nia. }
  rewrite (uint_small (n_threads g)) by exact Hlt.
  rewrite (uint_small (T * bucket_size c)) by lia.
  apply iterations_from_nowrap; lia.
Qed.

End Safety.

Section Visits.
Context {St Rs : Type} (F : @per_key St Rs) (tl : nat -> Tile)
        (start : nat -> Z) (results_at : nat -> nat).

Lemma visit_leader tile i (s : dstate St Rs) :
  visit F tile results_at (leader_at start i) s
  = match F tile (d_st s) (start i) with
    | Some (r, st') =>
        ({| d_st := st'; d_res := <[results_at i := r]> (d_res s);
            d_trace := d_trace s ++ [Call i (start i); Store i] |}, Some tt)
    | None => (s, None)
    end.
Proof.
  unfold visit, bind, invoke, store. cbn [leader_at ln_k ln_i].
  destruct (F tile (d_st s) (start i)) as [[r st']|]; [|reflexivity].
  cbn [d_st d_res d_trace]. rewrite <- app_assoc. reflexivity.
Qed.

(** Visiting the positions [ps] is calling the per-key function for each of
    them in turn and storing the results. *)
Lemma for_each_visit ps : forall (s : dstate St Rs),
  match run_calls F tl start ps (d_st s) with
  | Some (st', rs) =>
      for_each (fun i => visit F (tl i) results_at (leader_at start i)) ps s
      = ({| d_st := st';
            d_res := store_all results_at rs (d_res s);
            d_trace := d_trace s
                       ++ flat_map (fun i => [Call i (start i); Store i]) ps |},
         Some tt)
      /\ map fst rs = ps
  | None =>
      snd (for_each (fun i => visit F (tl i) results_at (leader_at start i))
             ps s) = None
  end.
Proof.
  induction ps as [|i ps IH]; intros s; cbn [run_calls for_each].
  - split; [|reflexivity]. unfold ret, store_all. cbn.
    rewrite app_nil_r. destruct s; reflexivity.
  - unfold bind. rewrite visit_leader.
    destruct (F (tl i) (d_st s) (start i)) as [[r st']|] eqn:EF;
      [|reflexivity].
    specialize (IH {| d_st := st';
                      d_res := <[results_at i := r]> (d_res s);
                      d_trace := d_trace s ++ [Call i (start i); Store i] |}).
    cbn [d_st d_res d_trace] in IH.
    destruct (run_calls F tl start ps st') as [[st'' rs]|]; [|exact IH].
    destruct IH as [IH Hps]. rewrite IH. split; [|cbn; congruence].
    f_equal. f_equal. cbn. rewrite <- !app_assoc. reflexivity.
Qed.
End Visits.

(** The tiles of a launch that covers the range are aligned with the
    grid. *)
Lemma covers_threads c g len :
  covers c g len -> (n_threads g mod bucket_size c = 0)%nat.
Proof.
  intros (HB & Hdiv & _). unfold n_threads.
  apply Nat.Div0.div_exact in Hdiv.
  set (q := (block_dim g / bucket_size c)%nat) in *.
  assert (grid_dim g * block_dim g = grid_dim g * q * bucket_size c)%nat
    as -> by nia.
  apply Nat.Div0.mod_mul.
Qed.

Section Launch.
Context (c : Cuckoo) (g : Grid) (len : nat) (Hcov : covers c g len).

Lemma max_index_spec :
  (len <= max_index c len < len + bucket_size c)%nat
  /\ (max_index c len = max_index c len / bucket_size c * bucket_size c)%nat
  /\ (max_index c len <= n_threads g)%nat.
Proof.
  pose proof (covers_threads c g len Hcov) as Hdiv.
  destruct Hcov as (HB & _ & Hlen & _). unfold max_index.
  set (B := bucket_size c) in *.
  pose proof (Nat.div_mod (len + B - 1) B ltac:(lia)) as Hdm.
  pose proof (Nat.mod_upper_bound (len + B - 1) B ltac:(lia)) as Hm.
  split; [nia|]. split.
  - rewrite Nat.div_mul by lia. reflexivity.
  - apply Nat.Div0.div_exact in Hdiv.
    assert ((len + B - 1) / B < S (n_threads g / B))%nat; [|nia].
    apply Nat.Div0.div_lt_upper_bound. nia.
Qed.

Lemma stride_threads : stride g = n_threads g.
Proof.
  destruct Hcov as (_ & _ & _ & Hlt & _). apply uint_small. exact Hlt.
Qed.

(** The [index] of a thread of the launch is its number. *)
Lemma index_thread T rank :
  (T < n_threads g / bucket_size c)%nat -> (rank < bucket_size c)%nat ->
  uint (T * bucket_size c + rank) = (T * bucket_size c + rank)%nat.
Proof.
  intros HT Hr. pose proof (covers_threads c g len Hcov) as Hdiv.
  destruct Hcov as (HB & _ & _ & Hlt & _).
  apply uint_small. apply Nat.Div0.div_exact in Hdiv. nia.
Qed.

Lemma iterations_one T :
  (T * bucket_size c < max_index c len)%nat ->
  tile_iterations c g len T = ([(T * bucket_size c)%nat], true).
Proof.
  intros HT. destruct max_index_spec as (_ & _ & Hmax).
  destruct Hcov as (HB & _ & _ & Hlt & Hnw).
  unfold tile_iterations, iterations. rewrite stride_threads.
  rewrite (uint_small (T * bucket_size c)) by lia.
  destruct (max_index c len) as [|m] eqn:Em; [lia|].
  rewrite iterations_from_step by lia.
  rewrite iterations_from_done; [reflexivity|].
  rewrite uint_small by lia. lia.
Qed.

Lemma iterations_none T :
  (T < n_threads g / bucket_size c)%nat ->
  (max_index c len <= T * bucket_size c)%nat ->
  tile_iterations c g len T = ([], true).
Proof.
  intros HT Hm. unfold tile_iterations, iterations.
  apply iterations_from_done.
  pose proof (index_thread T 0 HT ltac:(destruct Hcov; lia)) as E.
  rewrite Nat.add_0_r in E. rewrite E. exact Hm.
Qed.

(** In a launch that covers the range every tile that has work runs one
    iteration, at the positions of its threads. *)
Lemma kernel_launch {St Rs : Type} (body : nat -> nat -> @M St Rs unit) s :
  kernel c g len body s
  = for_each (fun T => body T (T * bucket_size c)%nat)
      (seq 0 (max_index c len / bucket_size c)) s.
Proof.
  destruct Hcov as (HB & _ & Hlen & _).
  destruct max_index_spec as (_ & Hmul & Hmax).
  unfold kernel.
  assert (max_index c len / bucket_size c <= n_threads g / bucket_size c)%nat
    as Hle by (apply Nat.Div0.div_le_mono; exact Hmax).
  replace (n_threads g / bucket_size c)%nat
    with (max_index c len / bucket_size c
          + (n_threads g / bucket_size c - max_index c len / bucket_size c))%nat
    by lia.
  rewrite seq_app, for_each_app. unfold bind at 1.
  assert (forall s,
    for_each (fun T =>
        bind (for_each (body T) (fst (tile_iterations c g len T))) (fun _ =>
        if snd (tile_iterations c g len T) then ret tt else halt))
      (seq 0 (max_index c len / bucket_size c)) s
    = for_each (fun T => body T (T * bucket_size c)%nat)
        (seq 0 (max_index c len / bucket_size c)) s) as ->.
  { intros s'. apply for_each_ext. intros T s'' HT.
    apply in_seq in HT. rewrite iterations_one by nia.
    cbn. unfold bind, ret. destruct (body T _ s'') as [s3 [[]|]]; reflexivity. }
  destruct (for_each _ (seq 0 _) s) as [s' [[]|]]; [|reflexivity].
  apply for_each_ret. intros T s'' HT. apply in_seq in HT.
  rewrite iterations_none by nia. reflexivity.
Qed.

(** The threads of a tile of the launch. *)
Lemma tile_threads_launch mk T base :
  (T < n_threads g / bucket_size c)%nat ->
  tile_threads c mk T base
  = map (fun rank => mk (T * bucket_size c + rank)%nat (base + rank)%nat)
      (seq 0 (bucket_size c)).
Proof.
  intros HT. unfold tile_threads. apply map_ext_in. intros rank Hr.
  apply in_seq in Hr. rewrite index_thread by lia. reflexivity.
Qed.

(** The positions of a launch are below [2^32]. *)
Lemma position_lt T rank :
  (T < n_threads g / bucket_size c)%nat -> (rank < bucket_size c)%nat ->
  Z.of_nat (T * bucket_size c + rank) < 2 ^ 32.
Proof.
  intros HT Hr. pose proof (covers_threads c g len Hcov) as Hdiv.
  destruct Hcov as (HB & _ & _ & Hlt & _).
  apply Nat.Div0.div_exact in Hdiv. nia.
Qed.

Lemma tile_lt T :
  (T < max_index c len / bucket_size c)%nat ->
  (T < n_threads g / bucket_size c)%nat.
Proof.
  intros HT. destruct max_index_spec as (_ & _ & Hmax).
  pose proof (Nat.Div0.div_le_mono _ _ (bucket_size c) Hmax). lia.
Qed.

Lemma tile_positions n :
  flat_map (fun T => map (fun rank => (T * bucket_size c + rank)%nat)
                       (seq 0 (bucket_size c))) (seq 0 n)
  = seq 0 (n * bucket_size c).
Proof.
  induction n as [|n IH]; [reflexivity|].
  rewrite seq_S, flat_map_app, IH. cbn [flat_map]. rewrite app_nil_r.
  replace (S n * bucket_size c)%nat
    with (n * bucket_size c + bucket_size c)%nat by lia.
  rewrite seq_app. f_equal. cbn [Nat.add].
  replace (seq (n * bucket_size c) (bucket_size c))
    with (seq (n * bucket_size c + 0) (bucket_size c)) by (f_equal; lia).
  rewrite <- fmap_add_seq. reflexivity.
Qed.

Lemma tile_at_eq T rank :
  (rank < bucket_size c)%nat ->
  tile_at c g (T * bucket_size c + rank) = tile_of c g (T * bucket_size c).
Proof.
  intros Hr. unfold tile_at. f_equal.
  rewrite Nat.div_add_l by lia. rewrite Nat.div_small by lia. lia.
Qed.
End Launch.

Lemma filter_flat_map {A B} (p : B -> bool) (h : A -> list B) l :
  List.filter p (flat_map h l) = flat_map (fun x => List.filter p (h x)) l.
Proof.
  induction l as [|x l IH]; cbn; [reflexivity|].
  rewrite List.filter_app, IH. reflexivity.
Qed.

Lemma filter_map_comm {A B} (p : B -> bool) (f : A -> B) l :
  List.filter p (map f l) = map f (List.filter (fun x => p (f x)) l).
Proof.
  induction l as [|x l IH]; cbn; [reflexivity|].
  destruct (p (f x)); cbn; rewrite IH; reflexivity.
Qed.

Lemma filter_nil_all {A} (p : A -> bool) l :
  (forall x, In x l -> p x = false) -> List.filter p l = [].
Proof.
  induction l as [|x l IH]; intros Hp; cbn; [reflexivity|].
  rewrite Hp by (left; reflexivity). apply IH. intros y Hy. apply Hp.
  right. exact Hy.
Qed.

Lemma filter_act_map {A} (f h : A -> lane) (q : A -> bool) l :
  (forall x, ln_act (f x) = q x) ->
  (forall x, q x = true -> f x = h x) ->
  List.filter ln_act (map f l) = map h (List.filter q l).
Proof.
  intros Hq Hh. induction l as [|x l IH]; [reflexivity|].
  cbn [map List.filter]. rewrite Hq. destruct (q x) eqn:E; [|exact IH].
  cbn [map]. rewrite IH, Hh by exact E. reflexivity.
Qed.

Lemma filter_act_map_in {A} (f h : A -> lane) (q : A -> bool) l :
  (forall x, In x l -> ln_act (f x) = q x) ->
  (forall x, In x l -> q x = true -> f x = h x) ->
  List.filter ln_act (map f l) = map h (List.filter q l).
Proof.
  induction l as [|x l IH]; intros Hq Hh; [reflexivity|].
  cbn [map List.filter]. rewrite Hq by (left; reflexivity).
  destruct (q x) eqn:E.
  - cbn [map]. rewrite IH, Hh; [reflexivity|left; reflexivity|exact E| |].
    + intros y Hy. apply Hq. right. exact Hy.
    + intros y Hy. apply Hh. right. exact Hy.
  - apply IH; intros y Hy; [apply Hq|apply Hh]; right; exact Hy.
Qed.

Lemma filter_pending_seq start len n :
  (len <= n)%nat ->
  List.filter (pending start len) (seq 0 n)
  = List.filter (first_at start) (seq 0 len).
Proof.
  intros Hn. replace n with (len + (n - len))%nat by lia.
  rewrite seq_app, List.filter_app.
  assert (List.filter (pending start len) (seq (0 + len) (n - len)) = [])
    as ->.
  { apply filter_nil_all. intros i Hi. apply in_seq in Hi. unfold pending.
    destruct (Nat.ltb_spec i len); [lia|reflexivity]. }
  rewrite app_nil_r. apply List.filter_ext_in. intros i Hi.
  apply in_seq in Hi. unfold pending.
  destruct (Nat.ltb_spec i len); [reflexivity|lia].
Qed.

Section Sorted_launch.
Context {St Rs : Type} (c : Cuckoo) (F : @per_key St Rs) (g : Grid)
        (start : nat -> Z) (len : nat) (results_at : nat -> nat).
Context (Hcov : covers c g len).

(** A thread whose position is its index, below [2^32]. *)
Lemma sorted_thread_first i :
  Z.of_nat i < 2 ^ 32 ->
  th_first (sorted_thread start len i i)
  = (i <? len)%nat && first_at start i.
Proof.
  intros Hi. unfold sorted_thread, first_at. cbn [th_first].
  destruct (i <? len)%nat; [|reflexivity].
  cbn [bind_l load pure_l fst snd andb].
  destruct (Nat.eqb_spec i 0) as [->|Hnz]; [reflexivity|].
  cbn [fst snd orb]. rewrite uint_pred_pos by lia. reflexivity.
Qed.

Lemma sorted_thread_pending i :
  Z.of_nat i < 2 ^ 32 ->
  th_in_range (sorted_thread start len i i)
  && th_first (sorted_thread start len i i) = pending start len i
  /\ (pending start len i = true ->
      lane_of (sorted_thread start len i i) true = leader_at start i).
Proof.
  intros Hi. rewrite (sorted_thread_first i Hi).
  unfold sorted_thread, pending, lane_of, leader_at.
  cbn [th_in_range th_first th_i th_k].
  destruct (i <? len)%nat; cbn [andb]; [auto|]. split; [reflexivity|].
  discriminate.
Qed.

(** The pending lanes of a tile that works at the positions of its
    threads. *)
Lemma sorted_lanes_pending T :
  (T < n_threads g / bucket_size c)%nat ->
  List.filter ln_act
    (map (fun th => lane_of th (th_in_range th && th_first th))
       (tile_threads c (sorted_thread start len) T (T * bucket_size c)))
  = map (leader_at start)
      (List.filter (pending start len)
         (map (fun rank => (T * bucket_size c + rank)%nat)
            (seq 0 (bucket_size c)))).
Proof.
  intros HT. rewrite (tile_threads_launch c g len Hcov) by exact HT.
  rewrite map_map.
  rewrite (filter_map_comm (pending start len)),
    (map_map _ (leader_at start)).
  apply filter_act_map_in; intros rank Hr; apply in_seq in Hr;
    destruct (sorted_thread_pending (T * bucket_size c + rank)
                (position_lt c g len Hcov T rank HT ltac:(lia)))
      as [E1 E2];
    change (ln_act (lane_of ?th ?b)) with b; rewrite E1.
  - reflexivity.
  - intros Hp. rewrite Hp. apply E2. exact Hp.
Qed.

(** In a launch that covers the range [coop_sorted] visits the first
    occurrences of the range, in the order of their positions. *)
Lemma coop_sorted_visits (s : dstate St Rs) :
  coop_sorted c F g start len results_at s
  = for_each (fun i => visit F (tile_at c g i) results_at (leader_at start i))
      (List.filter (first_at start) (seq 0 len)) s.
Proof.
  pose proof Hcov as (HB & _ & _).
  destruct (max_index_spec c g len Hcov) as ([Hlen _] & Hmul & _).
  unfold coop_sorted. rewrite (kernel_launch c g len Hcov).
  rewrite <- (filter_pending_seq start len (max_index c len) Hlen).
  rewrite Hmul at 2. rewrite <- (tile_positions c).
  rewrite filter_flat_map, <- for_each_flat_map.
  apply for_each_ext. intros T s' HT. apply in_seq in HT.
  rewrite leader_loop_visits
    by (etransitivity; [apply List.filter_length_le|];
        rewrite length_map, length_tile_threads; reflexivity).
  rewrite sorted_lanes_pending
    by (apply (tile_lt c g len Hcov); lia).
  rewrite for_each_fmap.
  apply for_each_ext. intros i s'' Hi.
  apply List.filter_In in Hi as [Hi _]. apply in_map_iff in Hi as (r & <- & Hr).
  apply in_seq in Hr. rewrite (tile_at_eq c g) by lia. reflexivity.
Qed.
End Sorted_launch.

Section Stores.
Context {St Rs : Type} (results_at : nat -> nat) (len : nat).
Context (Hinj : forall i j,
           (i < len)%nat -> (j < len)%nat -> results_at i = results_at j ->
           i = j).

Lemma store_all_app (rs rs' : list (nat * Rs)) res :
  store_all results_at (rs ++ rs') res
  = store_all results_at rs' (store_all results_at rs res).
Proof. unfold store_all. apply foldl_app. Qed.

Lemma length_store_all (rs : list (nat * Rs)) res :
  length (store_all results_at rs res) = length res.
Proof.
  revert res. induction rs as [|[j r] rs IH]; intros res; [reflexivity|].
  cbn. unfold store_all in IH. rewrite IH. apply length_insert.
Qed.

Lemma result_at_None (rs : list (nat * Rs)) i :
  ~ In i (map fst rs) -> result_at rs i = None.
Proof.
  induction rs as [|[j r] rs IH]; cbn; [reflexivity|]. intros Hn.
  destruct (Nat.eqb_spec j i); [tauto|]. apply IH. tauto.
Qed.

Lemma result_at_app (rs rs' : list (nat * Rs)) i :
  result_at (rs ++ rs') i
  = match result_at rs i with
    | Some r => Some r
    | None => result_at rs' i
    end.
Proof.
  induction rs as [|[j r] rs IH]; cbn; [reflexivity|].
  destruct (j =? i)%nat; [reflexivity|exact IH].
Qed.

(** Reading a position of the range after stores at distinct positions of
    the range. *)
Lemma store_all_lookup (rs : list (nat * Rs)) : forall res i,
  NoDup (map fst rs) ->
  Forall (fun j => (j < len)%nat /\ (results_at j < length res)%nat)
    (map fst rs) ->
  (i < len)%nat ->
  store_all results_at rs res !! results_at i
  = match result_at rs i with
    | Some r => Some r
    | None => res !! results_at i
    end.
Proof.
  induction rs as [|[j r] rs IH]; intros res i Hnd Hall Hi; [reflexivity|].
  cbn [map fst] in Hnd, Hall. apply NoDup_cons in Hnd as [Hj Hnd].
  apply Forall_cons in Hall as [[Hjl Hjr] Hall].
  change (store_all results_at ((j, r) :: rs) res)
    with (store_all results_at rs (<[results_at j := r]> res)).
  rewrite IH; [|exact Hnd| |exact Hi].
  - cbn [result_at]. destruct (Nat.eqb_spec j i) as [->|Hne].
    + rewrite result_at_None by (rewrite <- list_elem_of_In; exact Hj).
      apply list_lookup_insert_eq. exact Hjr.
    + destruct (result_at rs i); [reflexivity|].
      apply list_lookup_insert_ne. intros E. apply Hne.
      apply Hinj; assumption.
  - eapply Forall_impl; [exact Hall|]. cbn. intros x [? ?].
    rewrite length_insert. auto.
Qed.

Lemma store_all_frame (rs : list (nat * Rs)) : forall res p,
  Forall (fun j => (j < len)%nat) (map fst rs) ->
  (forall i, (i < len)%nat -> results_at i <> p) ->
  store_all results_at rs res !! p = res !! p.
Proof.
  induction rs as [|[j r] rs IH]; intros res p Hall Hp; [reflexivity|].
  cbn [map fst] in Hall. apply Forall_cons in Hall as [Hj Hall].
  change (store_all results_at ((j, r) :: rs) res)
    with (store_all results_at rs (<[results_at j := r]> res)).
  rewrite IH by assumption. apply list_lookup_insert_ne. auto.
Qed.

Lemma for_each_store (r : Rs) l (s : dstate St Rs) :
  for_each (fun i => store results_at i r) l s
  = ({| d_st := d_st s;
        d_res := store_all results_at (map (fun i => (i, r)) l) (d_res s);
        d_trace := d_trace s ++ map Store l |}, Some tt).
Proof.
  revert s. induction l as [|i l IH]; intros s; cbn [for_each map].
  - unfold ret. cbn. rewrite app_nil_r. destruct s; reflexivity.
  - unfold bind, store at 1. rewrite IH. cbn [d_st d_res d_trace].
    rewrite <- app_assoc. reflexivity.
Qed.

Lemma map_M_pure {X Y} (f : X -> @M St Rs Y) (h : X -> Y) l s :
  (forall x, In x l -> f x s = (s, Some (h x))) ->
  map_M f l s = (s, Some (map h l)).
Proof.
  induction l as [|x l IH]; intros Hf; cbn [map_M map]; [reflexivity|].
  unfold bind. rewrite Hf by (left; reflexivity).
  rewrite IH by (intros y Hy; apply Hf; right; exact Hy). reflexivity.
Qed.

Lemma for_each_seq_inv (J : nat -> dstate St Rs -> Prop)
    (f : nat -> @M St Rs unit) N :
  (forall n s, (n < N)%nat -> J n s ->
     snd (f n s) = Some tt /\ J (S n) (fst (f n s))) ->
  forall s, J 0%nat s ->
  snd (for_each f (seq 0 N) s) = Some tt /\ J N (fst (for_each f (seq 0 N) s)).
Proof.
  induction N as [|N IH]; intros Hf s Hs; [cbn; auto|].
  rewrite seq_S, for_each_app. unfold bind.
  destruct (IH ltac:(intros n s' Hn; apply Hf; lia) s Hs) as [Ho HJ].
  destruct (for_each f (seq 0 N) s) as [s' o]. cbn in Ho, HJ. subst o.
  cbn [for_each Nat.add]. unfold bind, ret.
  destruct (Hf N s' ltac:(lia) HJ) as [Ho' HJ'].
  destruct (f N s') as [s'' o']. cbn in Ho', HJ'. subst o'. auto.
Qed.
End Stores.

Section Run_calls.
Context {St Rs : Type} (F : @per_key St Rs) (tl : nat -> Tile)
        (start : nat -> Z).

Lemma run_calls_app ps ps' st :
  run_calls F tl start (ps ++ ps') st
  = match run_calls F tl start ps st with
    | Some (st', rs) =>
        match run_calls F tl start ps' st' with
        | Some (st'', rs') => Some (st'', rs ++ rs')
        | None => None
        end
    | None => None
    end.
Proof.
  revert st. induction ps as [|i ps IH]; intros st; cbn [run_calls app].
  - destruct (run_calls F tl start ps' st) as [[st'' rs']|]; reflexivity.
  - destruct (F (tl i) st (start i)) as [[r st']|]; [|reflexivity].
    rewrite IH. destruct (run_calls F tl start ps st') as [[st'' rs]|];
      [|reflexivity].
    destruct (run_calls F tl start ps' st'') as [[st3 rs']|]; reflexivity.
Qed.

Lemma run_calls_positions ps st st' rs :
  run_calls F tl start ps st = Some (st', rs) -> map fst rs = ps.
Proof.
  revert st st' rs. induction ps as [|i ps IH]; intros st st' rs; cbn.
  - intros [= <- <-]. reflexivity.
  - destruct (F (tl i) st (start i)) as [[r st1]|]; [|discriminate].
    destruct (run_calls F tl start ps st1) as [[st2 rs1]|] eqn:E;
      [|discriminate].
    intros [= <- <-]. cbn. f_equal. eapply IH. exact E.
Qed.
End Run_calls.

Lemma for_each_filter {St Rs X} (p : X -> bool) (f : X -> @M St Rs unit) l s :
  for_each (fun x => if p x then f x else ret tt) l s
  = for_each f (List.filter p l) s.
Proof.
  revert s. induction l as [|x l IH]; intros s; cbn [for_each List.filter];
    [reflexivity|].
  destruct (p x); cbn [for_each]; unfold bind.
  - destruct (f x s) as [s' [[]|]]; [apply IH|reflexivity].
  - unfold ret. apply IH.
Qed.

Section Second_pass.
Context (c : Cuckoo) (g : Grid) (start : nat -> Z) (len : nat)
        (results_at : nat -> nat).
Context (Hcov : covers c g len).

Lemma duplicate_thread i :
  Z.of_nat i < 2 ^ 32 ->
  th_in_range (sorted_thread start len i i)
  && negb (th_first (sorted_thread start len i i)) = duplicate start len i.
Proof.
  intros Hi. rewrite (sorted_thread_first start len i Hi).
  unfold sorted_thread, duplicate. cbn [th_in_range].
  destruct (i <? len)%nat; reflexivity.
Qed.

(** One iteration of a tile of [put_if_not_found_sorted], in a launch that
    covers the range: the tile visits its pending positions, then stores
    [FOUND] at its duplicates. *)
Lemma put_if_not_found_tile T (s : dstate (list Z) Result) :
  (T < n_threads g / bucket_size c)%nat ->
  (forall i, (i < len)%nat -> (results_at i < length (d_res s))%nat) ->
  let positions :=
    map (fun rank => (T * bucket_size c + rank)%nat) (seq 0 (bucket_size c)) in
  let threads :=
    tile_threads c (sorted_thread start len) T (T * bucket_size c) in
  bind (map_M (fun th =>
          if th_in_range th && th_first th then
            bind (load_result results_at (th_i th)) (fun res =>
            ret (lane_of th (negb (bool_decide (res = FOUND)))))
          else ret (lane_of th false)) threads) (fun lanes =>
  bind (leader_loop (bucket_size c) (put_key c false)
          (tile_of c g (T * bucket_size c)) results_at lanes) (fun _ =>
  for_each (fun th =>
      if th_in_range th && negb (th_first th)
      then store results_at (th_i th) FOUND
      else ret tt) threads)) s
  = bind (for_each (fun i => visit (put_key c false) (tile_at c g i)
                               results_at (leader_at start i))
            (List.filter (pending2 start len results_at (d_res s)) positions))
      (fun _ => for_each (fun i => store results_at i FOUND)
                  (List.filter (duplicate start len) positions)) s.
Proof.
  intros HT Hin positions threads. pose proof Hcov as (HB & _ & _).
  pose proof (position_lt c g len Hcov T) as Hpos.
  unfold threads. rewrite (tile_threads_launch c g len Hcov) by exact HT.
  clear threads.
  set (threads := map _ (seq 0 (bucket_size c))).
  unfold bind at 1.
  rewrite (map_M_pure _ (fun th =>
    lane_of th (th_in_range th && th_first th
                && not_found_at results_at (d_res s) (th_i th)))).
  2:{ intros th Hth. unfold threads in Hth.
      apply in_map_iff in Hth as (rank & <- & Hr). apply in_seq in Hr.
      destruct (sorted_thread_pending start len (T * bucket_size c + rank)
                  (Hpos rank HT ltac:(lia)))
        as [E _].
      rewrite E.
      destruct (pending start len (T * bucket_size c + rank)) eqn:Ep;
        cbn [andb]; [|reflexivity].
      assert (T * bucket_size c + rank < len)%nat as Hlt.
      { unfold pending in Ep. apply andb_true_iff in Ep as [Hlt _].
        apply Nat.ltb_lt in Hlt. exact Hlt. }
      unfold bind, load_result, ret, not_found_at.
      change (th_i (sorted_thread start len ?a ?b)) with b.
      destruct (lookup_lt_is_Some_2 (d_res s) _ (Hin _ Hlt)) as [r ->].
      reflexivity. }
  cbn beta iota. apply bind_ext.
  - rewrite leader_loop_visits
      by (etransitivity; [apply List.filter_length_le|];
          unfold threads; rewrite !length_map, length_seq;
          reflexivity).
    assert (List.filter ln_act
              (map (fun th => lane_of th
                      (th_in_range th && th_first th
                       && not_found_at results_at (d_res s) (th_i th)))
                 threads)
            = map (leader_at start)
                (List.filter (pending2 start len results_at (d_res s))
                   positions)) as ->.
    { unfold threads, positions.
      rewrite map_map.
      rewrite (filter_map_comm (pending2 start len results_at (d_res s))).
      rewrite map_map.
      apply filter_act_map_in; intros rank Hr; apply in_seq in Hr;
        destruct (sorted_thread_pending start len (T * bucket_size c + rank)
                    (Hpos rank HT ltac:(lia)))
          as [E1 E2];
        change (th_i (sorted_thread start len ?a ?b)) with b;
        unfold pending2; rewrite E1.
      - reflexivity.
      - intros Hp. apply andb_true_iff in Hp as [Hp ->]. rewrite Hp.
        apply E2. exact Hp. }
    rewrite for_each_fmap. apply for_each_ext. intros i s'' Hi.
    apply List.filter_In in Hi as [Hi _].
    apply in_map_iff in Hi as (r & <- & Hr). apply in_seq in Hr.
    rewrite (tile_at_eq c g) by lia. reflexivity.
  - intros [] s'. rewrite for_each_filter.
    unfold threads, positions.
    rewrite !filter_map_comm, !for_each_fmap.
    assert (List.filter (fun x =>
              th_in_range (sorted_thread start len (T * bucket_size c + x)
                             (T * bucket_size c + x))
              && negb (th_first (sorted_thread start len
                                   (T * bucket_size c + x)
                                   (T * bucket_size c + x))))
              (seq 0 (bucket_size c))
            = List.filter
                (fun x => duplicate start len (T * bucket_size c + x))
                (seq 0 (bucket_size c))) as ->
      by (apply List.filter_ext_in; intros x Hx; apply in_seq in Hx;
          apply duplicate_thread, Hpos; [exact HT|lia]).
    reflexivity.
Qed.
End Second_pass.

Lemma result_at_Some {Rs} (rs : list (nat * Rs)) i :
  In i (map fst rs) -> is_Some (result_at rs i).
Proof.
  induction rs as [|[j r] rs IH]; cbn; [contradiction|].
  destruct (Nat.eqb_spec j i); [eauto|]. intros [|]; [contradiction|auto].
Qed.

Lemma result_at_const {Rs} (r : Rs) l i :
  In i l -> result_at (map (fun j => (j, r)) l) i = Some r.
Proof.
  induction l as [|j l IH]; cbn; [contradiction|].
  destruct (Nat.eqb_spec j i); [reflexivity|]. intros [|]; [contradiction|auto].
Qed.

Lemma called_visits (start : nat -> Z) ps :
  omap called (flat_map (fun i => [Call i (start i); Store i]) ps)
  = map (fun i => (i, start i)) ps.
Proof. induction ps as [|i ps IH]; cbn; [reflexivity|]. f_equal. exact IH. Qed.

Lemma called_stores l : omap called (map Store l) = [].
Proof. induction l as [|i l IH]; cbn; [reflexivity|exact IH]. Qed.

Lemma run_calls_prefix {St Rs} (F : @per_key St Rs) tl start ps ps' st :
  is_Some (run_calls F tl start (ps ++ ps') st) ->
  is_Some (run_calls F tl start ps st).
Proof.
  rewrite run_calls_app.
  destruct (run_calls F tl start ps st) as [[st' rs]|]; [eauto|].
  intros [x Hx]. discriminate.
Qed.

Section Second_pass_run.
Context (c : Cuckoo) (g : Grid) (start : nat -> Z) (len : nat)
        (results_at : nat -> nat) (s1 : dstate (list Z) Result).
Context (Hcov : covers c g len).
Context (Hinj : forall i j,
           (i < len)%nat -> (j < len)%nat -> results_at i = results_at j ->
           i = j).
Context (Hin : forall i,
           (i < len)%nat -> (results_at i < length (d_res s1))%nat).

Lemma pending2_lt res i :
  pending2 start len results_at res i = true ->
  (i < len)%nat /\ duplicate start len i = false.
Proof.
  unfold pending2, pending, duplicate. intros H.
  apply andb_true_iff in H as [H _]. apply andb_true_iff in H as [Hl Hf].
  apply Nat.ltb_lt in Hl. rewrite Hf, andb_false_r. auto.
Qed.

Lemma duplicate_lt i :
  duplicate start len i = true ->
  (i < len)%nat /\ forall res, pending2 start len results_at res i = false.
Proof.
  unfold pending2, pending, duplicate. intros H.
  apply andb_true_iff in H as [Hl Hf]. apply Nat.ltb_lt in Hl.
  apply negb_true_iff in Hf. rewrite Hf, andb_false_r. auto.
Qed.

(** The step of the tile [n]. *)
Lemma second_pass_step n s :
  is_Some (run_calls (put_key c false) (tile_at c g) start
             (List.filter (pending2 start len results_at (d_res s1))
                (seq 0 (S n * bucket_size c))) (d_st s1)) ->
  second_pass_inv c g start len results_at s1 (n * bucket_size c) s ->
  let positions :=
    map (fun rank => (n * bucket_size c + rank)%nat)
        (seq 0 (bucket_size c)) in
  let step :=
    bind (for_each (fun i => visit (put_key c false) (tile_at c g i)
                               results_at (leader_at start i))
            (List.filter (pending2 start len results_at (d_res s)) positions))
      (fun _ => for_each (fun i => store results_at i FOUND)
                  (List.filter (duplicate start len) positions)) in
  snd (step s) = Some tt
  /\ second_pass_inv c g start len results_at s1 (S n * bucket_size c)
       (fst (step s)).
Proof.
  intros Hsome (rs & Hrun & Hres & Hlen & Hframe & Htrace) positions step.
  set (N := (n * bucket_size c)%nat) in *.
  assert (positions = seq N (bucket_size c)) as Hpos.
  { unfold positions.
    replace (seq N (bucket_size c)) with (seq (N + 0) (bucket_size c))
      by (f_equal; lia).
    rewrite <- fmap_add_seq. reflexivity. }
  assert (seq 0 (S n * bucket_size c) = seq 0 N ++ positions) as Hseq.
  { rewrite Hpos. replace (S n * bucket_size c)%nat
      with (N + bucket_size c)%nat by (unfold N; lia).
    apply seq_app. }
  assert (List.filter (pending2 start len results_at (d_res s)) positions
          = List.filter (pending2 start len results_at (d_res s1)) positions)
    as Hfil.
  { apply List.filter_ext_in. intros i Hi. rewrite Hpos in Hi.
    apply in_seq in Hi. unfold pending2, not_found_at.
    destruct (pending start len i) eqn:Ep; [|reflexivity]. cbn [andb].
    assert (i < len)%nat as Hil.
    { unfold pending in Ep. apply andb_true_iff in Ep as [Hl _].
      apply Nat.ltb_lt in Hl. exact Hl. }
    rewrite (Hres i Hil). destruct (Nat.ltb_spec i N); [lia|]. reflexivity. }
  set (PT := List.filter (pending2 start len results_at (d_res s1)) positions)
    in *.
  set (DT := List.filter (duplicate start len) positions) in *.
  rewrite Hseq, List.filter_app in Hsome. fold PT in Hsome.
  rewrite run_calls_app, Hrun in Hsome.
  destruct (run_calls (put_key c false) (tile_at c g) start PT (d_st s))
    as [[st' rsT]|] eqn:HrunT; [|destruct Hsome; discriminate].
  clear Hsome.
  pose proof (run_calls_positions _ _ _ _ _ _ _ HrunT) as HposT.
  pose proof (for_each_visit (put_key c false) (tile_at c g) start results_at
                PT s) as Hv.
  rewrite HrunT in Hv. destruct Hv as [Hv _].
  unfold step. rewrite Hfil. unfold bind. rewrite Hv.
  rewrite for_each_store. cbn [fst snd d_st d_res d_trace].
  split; [reflexivity|].
  unfold second_pass_inv. cbn [d_st d_res d_trace].
  rewrite <- store_all_app.
  set (W := rsT ++ map (fun i => (i, FOUND)) DT).
  assert (map fst W = PT ++ DT) as HW.
  { unfold W. rewrite map_app, HposT, map_map. cbn. rewrite map_id.
    reflexivity. }
  assert (forall i, In i PT ->
            In i positions
            /\ pending2 start len results_at (d_res s1) i = true) as HPT
    by (intros i Hi; apply List.filter_In in Hi; exact Hi).
  assert (forall i, In i DT -> In i positions /\ duplicate start len i = true)
    as HDT by (intros i Hi; apply List.filter_In in Hi; exact Hi).
  assert (NoDup (map fst W)) as HndW.
  { rewrite HW. apply NoDup_app. split; [|split].
    - apply NoDup_ListNoDup, List.NoDup_filter. rewrite Hpos.
      apply List.seq_NoDup.
    - intros i Hi1 Hi2. apply list_elem_of_In in Hi1, Hi2.
      destruct (HPT i Hi1) as [_ Hp]. destruct (HDT i Hi2) as [_ Hd].
      apply duplicate_lt in Hd as [_ Hd]. rewrite Hd in Hp. discriminate.
    - apply NoDup_ListNoDup, List.NoDup_filter. rewrite Hpos.
      apply List.seq_NoDup. }
  assert (Forall (fun j => (j < len)%nat
                           /\ (results_at j < length (d_res s))%nat)
            (map fst W)) as HallW.
  { rewrite HW. apply Forall_forall. intros j Hj.
    apply list_elem_of_In, in_app_iff in Hj.
    assert (j < len)%nat as Hjl.
    { destruct Hj as [Hj|Hj].
      - destruct (HPT j Hj) as [_ Hp]. apply pending2_lt in Hp. tauto.
      - destruct (HDT j Hj) as [_ Hd]. apply duplicate_lt in Hd. tauto. }
    split; [exact Hjl|]. rewrite Hlen. auto. }
  exists (rs ++ rsT). split; [|split; [|split; [|split]]].
  - rewrite Hseq, List.filter_app. fold PT.
    rewrite run_calls_app, Hrun, HrunT. reflexivity.
  - intros i Hi.
    rewrite (store_all_lookup results_at len Hinj W _ i HndW HallW Hi).
    pose proof (run_calls_positions _ _ _ _ _ _ _ Hrun) as Hposrs.
    assert (forall j, In j (map fst rs) -> (j < N)%nat) as Hrs.
    { intros j Hj. rewrite Hposrs in Hj. apply List.filter_In in Hj as [Hj _].
      apply in_seq in Hj. lia. }
    assert (In i positions <-> (N <= i < S n * bucket_size c)%nat) as Hip.
    { rewrite Hpos, in_seq. unfold N. lia. }
    unfold second_result. rewrite result_at_app.
    destruct (Nat.ltb_spec i (S n * bucket_size c)) as [Hlt|Hge].
    + destruct (Nat.ltb_spec i N) as [HltN|HgeN].
      * (* a position of an earlier tile *)
        assert (result_at W i = None) as ->.
        { apply result_at_None. rewrite HW, in_app_iff.
          intros [Hi'|Hi']; [apply HPT in Hi'|apply HDT in Hi'];
            destruct Hi' as [Hi' _]; apply Hip in Hi'; lia. }
        rewrite (Hres i Hi). destruct (Nat.ltb_spec i N); [|lia].
        unfold second_result.
        destruct (duplicate start len i); [reflexivity|].
        destruct (result_at rs i); [reflexivity|].
        rewrite result_at_None; [reflexivity|].
        rewrite HposT. intros Hi'. apply HPT in Hi' as [Hi' _].
        apply Hip in Hi'. lia.
      * (* a position of this tile *)
        assert (result_at rs i = None) as ->.
        { apply result_at_None. intros Hi'. apply Hrs in Hi'. lia. }
        unfold W. rewrite result_at_app.
        destruct (duplicate start len i) eqn:Ed.
        -- assert (result_at rsT i = None) as ->.
           { apply result_at_None. rewrite HposT. intros Hi'.
             apply HPT in Hi' as [_ Hp]. apply duplicate_lt in Ed as [_ Ed].
             rewrite Ed in Hp. discriminate. }
           rewrite (result_at_const FOUND DT i); [reflexivity|].
           apply List.filter_In. split; [apply Hip; lia|exact Ed].
        -- assert (result_at (map (fun j => (j, FOUND)) DT) i = None) as ->.
           { apply result_at_None. rewrite map_map. cbn. rewrite map_id.
             intros Hi'. apply HDT in Hi' as [_ Hd]. congruence. }
           destruct (result_at rsT i); [reflexivity|].
           rewrite (Hres i Hi). destruct (Nat.ltb_spec i N); [lia|].
           reflexivity.
    + (* a position of a later tile *)
      assert (result_at W i = None) as ->.
      { apply result_at_None. rewrite HW, in_app_iff.
        intros [Hi'|Hi']; [apply HPT in Hi'|apply HDT in Hi'];
          destruct Hi' as [Hi' _]; apply Hip in Hi'; lia. }
      rewrite (Hres i Hi). destruct (Nat.ltb_spec i N); [lia|]. reflexivity.
  - rewrite length_store_all. exact Hlen.
  - intros p Hp. rewrite (store_all_frame results_at len); [auto| |exact Hp].
    eapply Forall_impl; [exact HallW|]. cbn. tauto.
  - rewrite !omap_app, called_visits, called_stores, app_nil_r, Htrace.
    rewrite Hseq, List.filter_app, map_app, app_assoc. reflexivity.
Qed.
Lemma filter_pending2_seq res n :
  (len <= n)%nat ->
  List.filter (pending2 start len results_at res) (seq 0 n)
  = List.filter (pending2 start len results_at res) (seq 0 len).
Proof.
  intros Hn. replace n with (len + (n - len))%nat at 1 by lia.
  rewrite seq_app, List.filter_app.
  rewrite (filter_nil_all _ (seq (0 + len) (n - len))); [apply app_nil_r|].
  intros i Hi. apply in_seq in Hi. unfold pending2, pending.
  destruct (Nat.ltb_spec i len); [lia|reflexivity].
Qed.

(** [put_if_not_found_sorted] in a launch that covers the range: it calls
    [coop_put] for the first occurrences whose result is not [FOUND], in
    the order of their positions, stores what the calls return, and stores
    [FOUND] at every other occurrence. *)
Lemma put_if_not_found_sorted_run stF rsF :
  run_calls (put_key c false) (tile_at c g) start
    (List.filter (pending2 start len results_at (d_res s1)) (seq 0 len))
    (d_st s1) = Some (stF, rsF) ->
  snd (put_if_not_found_sorted c g start len results_at s1) = Some tt
  /\ second_pass_inv c g start len results_at s1 (max_index c len)
       (fst (put_if_not_found_sorted c g start len results_at s1)).
Proof.
  intros Hrun. pose proof Hcov as (HB & _ & _).
  destruct (max_index_spec c g len Hcov) as ([Hlen _] & Hmul & _).
  unfold put_if_not_found_sorted. rewrite (kernel_launch c g len Hcov).
  rewrite Hmul at 2.
  apply (for_each_seq_inv
           (fun n => second_pass_inv c g start len results_at s1
                       (n * bucket_size c))).
  - intros n s Hn HJ.
    assert (forall i, (i < len)%nat -> (results_at i < length (d_res s))%nat)
      as Hin'.
    { destruct HJ as (_ & _ & _ & Hl & _). rewrite Hl. exact Hin. }
    rewrite (put_if_not_found_tile c g start len results_at Hcov n s
               (tile_lt c g len Hcov n Hn) Hin').
    apply second_pass_step; try assumption.
    assert (S n * bucket_size c <= max_index c len)%nat as Hle
      by (rewrite Hmul; apply Nat.mul_le_mono_r; lia).
    apply run_calls_prefix with
      (ps' := List.filter (pending2 start len results_at (d_res s1))
                (seq (S n * bucket_size c)
                     (max_index c len - S n * bucket_size c))).
    rewrite <- List.filter_app.
    replace (seq 0 (S n * bucket_size c)
             ++ seq (S n * bucket_size c)
                  (max_index c len - S n * bucket_size c))
      with (seq 0 (max_index c len)).
    + rewrite (filter_pending2_seq _ _ Hlen), Hrun. eauto.
    + replace (max_index c len)
        with (S n * bucket_size c
              + (max_index c len - S n * bucket_size c))%nat at 1 by lia.
      apply seq_app.
  - exists []. cbn [Nat.mul seq List.filter run_calls map].
    rewrite app_nil_r. repeat split; auto.
Qed.
End Second_pass_run.

Lemma coop_put_body_not_found c tile rows k h ch act rows' r :
  coop_put_body c false tile rows k h ch = (act, rows', Ret r) -> r <> FOUND.
Proof.
  unfold coop_put_body. destruct (addr_row c h k) as [addr row].
  cbn [andb].
  destruct (_ <? bucket_size c)%nat.
  - destruct (rd rows _ =? 0); intros [= _ _ <-]. discriminate.
  - destruct (max_chain_length c <=? ch); [intros [= _ _ <-]; discriminate|].
    destruct (hash_key c addr _) as [[h' k']|]; discriminate.
Qed.

Lemma coop_put_loop_not_found c tile fuel : forall rows k h ch r,
  run_out (coop_put_loop fuel c false tile rows k h ch) = Returned r ->
  r <> FOUND.
Proof.
  induction fuel as [|fuel IH]; intros rows k h ch r; [discriminate|].
  cbn [coop_put_loop].
  destruct (coop_put_body c false tile rows k h ch) as [[act rows'] nxt] eqn:E.
  destruct nxt as [r'|k' h' ch'|]; cbn [run_out]; [| |discriminate].
  - intros [= <-]. eapply coop_put_body_not_found. exact E.
  - apply IH.
Qed.

(** [coop_put] as a per-key function returns on a table, with a table. *)
Lemma put_key_ok c avoid tile rows k :
  wf_cuckoo c -> table_ok c rows -> 0 <= k < 2 ^ key_width c ->
  exists r rows',
    put_key c avoid tile rows k = Some (r, rows')
    /\ table_ok c rows'
    /\ (avoid = false -> r = PUT \/ r = FULL).
Proof.
  intros Hwf Hok Hk. unfold put_key, put_fuel, coop_put.
  assert (st_ok c k 0) as Hst.
  { split; [|exact Hk]. pose proof (wf_hash c Hwf). lia. }
  destruct (coop_put_loop_returns c Hwf avoid tile
              (S (Z.to_nat (max_chain_length c))) rows k 0 0 Hok Hst
              ltac:(lia)) as [[r Hr] Hok'].
  rewrite Hr. do 2 eexists. split; [reflexivity|]. split; [exact Hok'|].
  intros ->. apply coop_put_loop_not_found in Hr. destruct r; tauto.
Qed.

Lemma run_calls_put_total c tl start ps : forall rows,
  wf_cuckoo c -> table_ok c rows ->
  (forall i, In i ps -> 0 <= start i < 2 ^ key_width c) ->
  exists rows' rs,
    run_calls (put_key c false) tl start ps rows = Some (rows', rs)
    /\ table_ok c rows'
    /\ Forall (fun ir => snd ir = PUT \/ snd ir = FULL) rs.
Proof.
  induction ps as [|i ps IH]; intros rows Hwf Hok Hk; cbn [run_calls].
  - exists rows, []. auto.
  - destruct (put_key_ok c false (tl i) rows (start i) Hwf Hok
                ltac:(apply Hk; left; reflexivity)) as (r & rows1 & -> & Hok1 & Hr).
    destruct (IH rows1 Hwf Hok1 ltac:(intros j Hj; apply Hk; right; exact Hj))
      as (rows' & rs & -> & Hok' & Hrs).
    exists rows', ((i, r) :: rs).
    split; [reflexivity|]. split; [exact Hok'|].
    constructor; [apply Hr; reflexivity|exact Hrs].
Qed.

(** Every result of a run of calls is what a call returned. *)
Lemma run_calls_In {St Rs} (F : @per_key St Rs) tl start ps :
  forall st st' rs i r,
  run_calls F tl start ps st = Some (st', rs) -> In (i, r) rs ->
  exists st_before st_after,
    F (tl i) st_before (start i) = Some (r, st_after).
Proof.
  induction ps as [|j ps IH]; intros st st' rs i r; cbn [run_calls].
  - intros [= <- <-] [].
  - destruct (F (tl j) st (start j)) as [[r1 st1]|] eqn:EF; [|discriminate].
    destruct (run_calls F tl start ps st1) as [[st2 rs1]|] eqn:E;
      [|discriminate].
    intros [= <- <-] [[= <- <-]|Hin]; [eauto|]. eapply IH; eassumption.
Qed.

Lemma result_at_In {Rs} (rs : list (nat * Rs)) i r :
  result_at rs i = Some r -> In (i, r) rs.
Proof.
  induction rs as [|[j r'] rs IH]; cbn; [discriminate|].
  destruct (Nat.eqb_spec j i) as [->|]; [intros [= ->]; auto|auto].
Qed.

Lemma run_calls_find c tl start ps rows :
  run_calls (find_key c) tl start ps rows
  = Some (rows, map (fun i => (i, coop_find_as_result c rows (start i))) ps).
Proof.
  induction ps as [|i ps IH]; cbn [run_calls map]; [reflexivity|].
  unfold find_key at 1. rewrite IH. reflexivity.
Qed.

Lemma covers_launch_grid c len :
  (0 < bucket_size c)%nat -> 32 mod Z.of_nat (bucket_size c) = 0 ->
  Z.of_nat len <= 2 ^ 31 ->
  covers c (launch_grid len) len.
Proof.
  intros HB Hdiv Hlen. unfold covers, launch_grid, n_threads, block_size.
  cbn [grid_dim block_dim]. change (Z.to_nat 128) with 128%nat.
  pose proof (Nat.div_mod (len + 128 - 1) 128 ltac:(lia)) as Hdm.
  pose proof (Nat.mod_upper_bound (len + 128 - 1) 128 ltac:(lia)) as Hmb.
  set (n := ((len + 128 - 1) / 128)%nat) in *.
  assert (Z.of_nat n <= 2 ^ 24) as Hn by lia.
  apply Z.mod_divide in Hdiv; [|lia]. destruct Hdiv as [q Hq].
  assert (128 = Z.to_nat (4 * q) * bucket_size c)%nat as E by nia.
  assert (128 mod bucket_size c = 0)%nat as H128
    by (rewrite E at 1; apply Nat.Div0.mod_mul).
  assert ((n * 128) mod bucket_size c = 0)%nat as Hmod
    by (rewrite E, Nat.mul_assoc; apply Nat.Div0.mod_mul).
  split; [exact HB|]. split; [exact H128|]. split; [lia|].
  split; [lia|].
  assert (max_index c len <= n * 128)%nat; [|lia].
  unfold max_index. set (B := bucket_size c) in *.
  apply Nat.Div0.div_exact in Hmod.
  assert ((len + B - 1) / B < S (n * 128 / B))%nat; [|nia].
  apply Nat.Div0.div_lt_upper_bound. nia.
Qed.

Lemma result_at_map {Rs} (f : nat -> Rs) ps i :
  In i ps -> result_at (map (fun j => (j, f j)) ps) i = Some (f i).
Proof.
  induction ps as [|j ps IH]; cbn [map result_at]; [contradiction|].
  destruct (Nat.eqb_spec j i) as [->|Hne]; [reflexivity|].
  intros [|]; [contradiction|auto].
Qed.

Lemma NoDup_filter_seq (p : nat -> bool) n :
  NoDup (List.filter p (seq 0 n)).
Proof.
  apply NoDup_ListNoDup, List.NoDup_filter, List.seq_NoDup.
Qed.

Section First_pass.
Context (c : Cuckoo) (g : Grid) (start : nat -> Z) (len : nat)
        (results_at : nat -> nat) (s0 : dstate (list Z) Result).
Context (Hcov : covers c g len).
Context (Hinj : forall i j,
           (i < len)%nat -> (j < len)%nat -> results_at i = results_at j ->
           i = j).
Context (Hin : forall i,
           (i < len)%nat -> (results_at i < length (d_res s0))%nat).

(** [coop_sorted] with [coop_find_as_result] in a launch that covers the
    range: it looks up the first occurrences in the order of their
    positions, stores what it finds and leaves the table as it is. *)
Lemma coop_sorted_find_run :
  let r := coop_sorted c (find_key c) g start len results_at s0 in
  snd r = Some tt
  /\ d_st (fst r) = d_st s0
  /\ length (d_res (fst r)) = length (d_res s0)
  /\ (forall i, (i < len)%nat ->
        d_res (fst r) !! results_at i
        = if first_at start i
          then Some (coop_find_as_result c (d_st s0) (start i))
          else d_res s0 !! results_at i)
  /\ (forall p, (forall i, (i < len)%nat -> results_at i <> p) ->
        d_res (fst r) !! p = d_res s0 !! p)
  /\ omap called (d_trace (fst r))
     = omap called (d_trace s0)
       ++ map (fun i => (i, start i))
            (List.filter (first_at start) (seq 0 len)).
Proof.
  cbv zeta. rewrite (coop_sorted_visits c (find_key c) g start len
                       results_at Hcov).
  pose proof (for_each_visit (find_key c) (tile_at c g) start results_at
                (List.filter (first_at start) (seq 0 len)) s0) as H.
  rewrite run_calls_find in H. destruct H as [-> Hps].
  cbn [fst snd d_st d_res d_trace].
  assert (Forall (fun j => (j < len)%nat)
            (List.filter (first_at start) (seq 0 len))) as Hlt.
  { apply Forall_forall. intros j Hj. apply list_elem_of_In in Hj.
    apply List.filter_In in Hj as [Hj _]. apply in_seq in Hj. lia. }
  split; [reflexivity|]. split; [reflexivity|].
  split; [apply length_store_all|]. split; [|split].
  - intros i Hi.
    rewrite (store_all_lookup results_at len Hinj); [| | |exact Hi].
    + destruct (first_at start i) eqn:E.
      * rewrite result_at_map; [reflexivity|].
        apply List.filter_In. split; [apply in_seq; lia|exact E].
      * rewrite result_at_None; [reflexivity|]. rewrite Hps.
        intros Hf. apply List.filter_In in Hf as [_ Hf]. congruence.
    + rewrite Hps. apply NoDup_filter_seq.
    + rewrite Hps. eapply Forall_impl; [exact Hlt|]. cbn. auto.
  - intros p Hp. apply (store_all_frame results_at len); [|exact Hp].
    rewrite Hps. exact Hlt.
  - rewrite omap_app, called_visits. reflexivity.
Qed.
End First_pass.

Section Find_or_put_sorted.
Context (c : Cuckoo) (start : nat -> Z) (len : nat)
        (results_at : nat -> nat) (s0 : dstate (list Z) Result).
Context (HB : (0 < bucket_size c)%nat)
        (Hdiv : 32 mod Z.of_nat (bucket_size c) = 0).
Context (Hshort : Z.of_nat len <= 2 ^ 31).
Context (Hinj : forall i j,
           (i < len)%nat -> (j < len)%nat -> results_at i = results_at j ->
           i = j).
Context (Hin : forall i,
           (i < len)%nat -> (results_at i < length (d_res s0))%nat).

(** [find_or_put_sorted], when its calls of [coop_put] return: the table
    is what the calls leave, the results are [fops_result], and the calls
    are the lookups of the first occurrences followed by the puts of those
    that were not found. *)
Lemma find_or_put_sorted_run rowsF rsF :
  fops_calls c start len (d_st s0) = Some (rowsF, rsF) ->
  let r := find_or_put_sorted c start len results_at s0 in
  snd r = Some tt
  /\ d_st (fst r) = rowsF
  /\ length (d_res (fst r)) = length (d_res s0)
  /\ (forall i, (i < len)%nat ->
        d_res (fst r) !! results_at i
        = fops_result c start (d_st s0) rsF i)
  /\ (forall p, (forall i, (i < len)%nat -> results_at i <> p) ->
        d_res (fst r) !! p = d_res s0 !! p)
  /\ omap called (d_trace (fst r))
     = omap called (d_trace s0)
       ++ map (fun i => (i, start i))
            (List.filter (first_at start) (seq 0 len))
       ++ map (fun i => (i, start i))
            (List.filter (to_put c start len (d_st s0)) (seq 0 len)).
Proof.
  intros Hrun. cbv zeta.
  pose proof (covers_launch_grid c len HB Hdiv Hshort) as Hcov.
  destruct (coop_sorted_find_run c (launch_grid len) start len results_at s0
              Hcov Hinj Hin) as (H1 & Hst & Hlen & Hres & Hfr & Htr).
  unfold find_or_put_sorted, bind.
  destruct (coop_sorted c (find_key c) (launch_grid len) start len
              results_at s0) as [s1 [[]|]] eqn:E1; [|discriminate].
  cbn [fst snd] in *.
  assert (forall i,
            pending2 start len results_at (d_res s1) i
            = to_put c start len (d_st s0) i) as Hp.
  { intros i. unfold pending2, to_put, pending.
    destruct (Nat.ltb_spec i len) as [Hi|]; [|reflexivity].
    destruct (first_at start i) eqn:Ef; [|reflexivity]. cbn [andb].
    unfold not_found_at. rewrite (Hres i Hi), Ef.
    unfold coop_find_as_result.
    destruct (coop_find c (d_st s0) (start i)); reflexivity. }
  assert (forall i, (i < len)%nat -> (results_at i < length (d_res s1))%nat)
    as Hin1 by (intros i Hi; rewrite Hlen; auto).
  destruct (put_if_not_found_sorted_run c (launch_grid len) start len
              results_at s1 Hcov Hinj Hin1 rowsF rsF) as [H2 Hinv].
  { rewrite (List.filter_ext _ _ Hp), Hst. exact Hrun. }
  destruct (put_if_not_found_sorted c (launch_grid len) start len
              results_at s1) as [s2 o2] eqn:E2.
  cbn [fst snd] in *. split; [exact H2|].
  destruct Hinv as (rs & Hcalls & Hres2 & Hlen2 & Hfr2 & Htr2).
  destruct (max_index_spec c (launch_grid len) len Hcov)
    as ([Hmax _] & _ & _).
  rewrite (filter_pending2_seq start len results_at _ _ Hmax) in Hcalls, Htr2.
  rewrite (List.filter_ext _ _ Hp) in Hcalls, Htr2.
  rewrite Hst in Hcalls. unfold fops_calls in Hrun.
  rewrite Hrun in Hcalls. injection Hcalls as <- <-.
  split; [reflexivity|]. split; [congruence|]. split; [|split].
  - intros i Hi. rewrite (Hres2 i Hi).
    destruct (Nat.ltb_spec i (max_index c len)) as [_|]; [|lia].
    unfold second_result, fops_result, duplicate.
    destruct (Nat.ltb_spec i len) as [_|]; [|lia]. cbn [andb].
    destruct (first_at start i) eqn:Ef; [|reflexivity]. cbn [negb].
    destruct (coop_find c (d_st s0) (start i)) eqn:Ec.
    + rewrite result_at_None.
      * rewrite (Hres i Hi), Ef. unfold coop_find_as_result.
        rewrite Ec. reflexivity.
      * erewrite run_calls_positions by exact Hrun.
        intros Hf. apply List.filter_In in Hf as [_ Hf].
        unfold to_put in Hf. rewrite Ec in Hf.
        rewrite andb_false_r in Hf. discriminate.
    + destruct (result_at_Some rsF i) as [r Hr]; [|rewrite Hr; reflexivity].
      erewrite run_calls_positions by exact Hrun.
      apply List.filter_In. split; [apply in_seq; lia|].
      unfold to_put, pending. rewrite Ec, Ef.
      destruct (Nat.ltb_spec i len); [reflexivity|lia].
  - intros p Hpp. rewrite (Hfr2 p Hpp). apply Hfr. exact Hpp.
  - rewrite Htr2, Htr, <- app_assoc. reflexivity.
Qed.
End Find_or_put_sorted.


(** ** First occurrences of a sorted range *)

Lemma first_at_spec start i :
  first_at start i = true <-> i = 0%nat \/ start i <> start (i - 1)%nat.
Proof.
  unfold first_at. rewrite orb_true_iff, negb_true_iff.
  rewrite Nat.eqb_eq, Z.eqb_neq. reflexivity.
Qed.

Lemma sorted_le start len i j :
  sorted start len -> (i <= j)%nat -> (j < len)%nat -> start i <= start j.
Proof.
  intros Hs Hij. induction Hij as [|j Hij IH]; intros Hj; [lia|].
  etransitivity; [apply IH; lia|]. apply Hs. exact Hj.
Qed.

Lemma sorted_S start len : sorted start (S len) -> sorted start len.
Proof. intros Hs i Hi. apply Hs. lia. Qed.

(** The first occurrences of a sorted range, and any selection of them,
    hold distinct keys. *)
Lemma firsts_NoDup start (q : nat -> bool) len :
  sorted start len ->
  List.NoDup
    (map start (List.filter (fun i => first_at start i && q i) (seq 0 len))).
Proof.
  induction len as [|n IH]; intros Hs; [constructor|].
  rewrite seq_S, List.filter_app, map_app. cbn [List.filter Nat.add].
  specialize (IH (sorted_S start n Hs)).
  destruct (first_at start n && q n) eqn:E;
    [|cbn [map]; rewrite app_nil_r; exact IH].
  apply andb_true_iff in E as [E _]. apply first_at_spec in E.
  cbn [map]. apply NoDup_ListNoDup, NoDup_app.
  split; [apply NoDup_ListNoDup; exact IH|].
  split; [|apply NoDup_singleton].
  intros k Hk Hn. apply list_elem_of_singleton in Hn as ->.
  apply list_elem_of_In, in_map_iff in Hk as (j & Hj & Hin).
  apply List.filter_In in Hin as [Hin _]. apply in_seq in Hin.
  destruct E as [->|E]; [lia|].
  pose proof (sorted_le start (S n) j (n - 1) Hs ltac:(lia) ltac:(lia)).
  pose proof (Hs (n - 1)%nat ltac:(lia)) as Hn.
  replace (S (n - 1)) with n in Hn by lia. lia.
Qed.

(** Every key of a range is the key of a first occurrence. *)
Lemma firsts_cover start len i :
  (i < len)%nat ->
  In (start i) (map start (List.filter (first_at start) (seq 0 len))).
Proof.
  induction i as [|i IH]; intros Hi.
  - apply in_map, List.filter_In. split; [apply in_seq; lia|reflexivity].
  - destruct (first_at start (S i)) eqn:E.
    + apply in_map, List.filter_In. split; [apply in_seq; lia|exact E].
    + unfold first_at in E. apply orb_false_iff in E as [_ E].
      apply negb_false_iff, Z.eqb_eq in E.
      replace (S i - 1)%nat with i in E by lia.
      rewrite E. apply IH. lia.
Qed.

(** ** The stable sort of [find_or_put] *)

Lemma StronglySorted_lookup {A} (R : A -> A -> Prop) (l : list A) :
  StronglySorted R l
  <-> (forall i j x y, (i < j)%nat ->
         l !! i = Some x -> l !! j = Some y -> R x y).
Proof.
  induction l as [|a l IH].
  - split; [intros _ i j x y _ Hi; discriminate|constructor].
  - rewrite StronglySorted_cons, IH, Forall_lookup. split.
    + intros [Ha Hl] i j x y Hij Hi Hj.
      destruct j as [|j]; [lia|]. destruct i as [|i].
      * injection Hi as <-. eapply Ha. exact Hj.
      * eapply Hl; [|exact Hi|exact Hj]. lia.
    + intros H. split.
      * intros j y Hj. apply (H 0%nat (S j) a y); [lia|reflexivity|exact Hj].
      * intros i j x y Hij Hi Hj. apply (H (S i) (S j) x y); [lia|auto..].
Qed.

Lemma insert_by_key_perm x l : insert_by_key x l ≡ₚ x :: l.
Proof.
  induction l as [|y l IH]; cbn [insert_by_key]; [reflexivity|].
  destruct (fst x <=? fst y); [reflexivity|].
  rewrite IH. apply Permutation_swap.
Qed.

Lemma sort_pairs_perm l : sort_pairs l ≡ₚ l.
Proof.
  induction l as [|x l IH]; [reflexivity|].
  cbn [sort_pairs foldr]. rewrite insert_by_key_perm.
  constructor. exact IH.
Qed.

Lemma insert_by_key_sorted x l :
  StronglySorted key_then_index l ->
  Forall (fun y => snd x < snd y) l ->
  StronglySorted key_then_index (insert_by_key x l).
Proof.
  induction l as [|y l IH]; intros Hs Hx; cbn [insert_by_key].
  - repeat constructor.
  - apply StronglySorted_cons in Hs as [Hy Hs].
    apply Forall_cons in Hx as [Hxy Hx].
    destruct (Z.leb_spec (fst x) (fst y)) as [Hle|Hgt].
    + apply StronglySorted_cons. split.
      * constructor; [unfold key_then_index; lia|].
        rewrite Forall_forall in Hy, Hx |- *. intros z Hz.
        specialize (Hy z Hz). specialize (Hx z Hz).
        unfold key_then_index in *. lia.
      * apply StronglySorted_cons. split; assumption.
    + apply StronglySorted_cons. split; [|apply IH; assumption].
      rewrite insert_by_key_perm. constructor; [|exact Hy].
      unfold key_then_index. lia.
Qed.

(** A sort of pairs whose second components increase sorts by key and,
    among equal keys, keeps the order. *)
Lemma sort_pairs_sorted l :
  StronglySorted (fun a b => snd a < snd b) l ->
  StronglySorted key_then_index (sort_pairs l).
Proof.
  induction l as [|x l IH]; intros Hs; [constructor|].
  apply StronglySorted_cons in Hs as [Hx Hs].
  cbn [sort_pairs foldr]. apply insert_by_key_sorted; [apply IH; exact Hs|].
  fold (sort_pairs l). rewrite sort_pairs_perm. exact Hx.
Qed.

Lemma zip_positions_lookup (keys : list Z) j k i :
  zip keys (seqZ 0 (Z.of_nat (length keys))) !! j = Some (k, i)
  <-> keys !! j = Some k /\ i = Z.of_nat j.
Proof.
  rewrite lookup_zip_with_Some. split.
  - intros (x & y & [= -> ->] & Hx & Hy).
    apply lookup_seqZ in Hy as [-> _]. split; [exact Hx|lia].
  - intros [Hk ->]. exists k, (Z.of_nat j). split; [reflexivity|].
    split; [exact Hk|]. apply lookup_seqZ. split; [lia|].
    apply lookup_lt_Some in Hk. lia.
Qed.

Lemma zip_positions_sorted (keys : list Z) :
  StronglySorted (fun a b => snd a < snd b)
    (zip keys (seqZ 0 (Z.of_nat (length keys)))).
Proof.
  apply StronglySorted_lookup. intros i j [k1 i1] [k2 i2] Hij Hi Hj.
  apply zip_positions_lookup in Hi as [_ ->].
  apply zip_positions_lookup in Hj as [_ ->]. cbn. lia.
Qed.

Lemma sorted_pairs_perm keys :
  sorted_pairs keys ≡ₚ zip keys (seqZ 0 (Z.of_nat (length keys))).
Proof. apply sort_pairs_perm. Qed.

Lemma sorted_pairs_sorted keys :
  StronglySorted key_then_index (sorted_pairs keys).
Proof. apply sort_pairs_sorted, zip_positions_sorted. Qed.

Lemma length_sorted_pairs keys : length (sorted_pairs keys) = length keys.
Proof.
  rewrite (Permutation_length (sorted_pairs_perm keys)).
  rewrite length_zip, length_seqZ. lia.
Qed.

(** Every sorted pair is a key of the range with its position. *)
Lemma sorted_pairs_elem keys k i :
  (k, i) ∈ sorted_pairs keys <-> keys !! Z.to_nat i = Some k /\ 0 <= i.
Proof.
  rewrite (sorted_pairs_perm keys), list_elem_of_lookup. split.
  - intros [j Hj]. apply zip_positions_lookup in Hj as [Hk ->].
    rewrite Nat2Z.id. split; [exact Hk|lia].
  - intros [Hk Hi]. exists (Z.to_nat i). apply zip_positions_lookup.
    split; [exact Hk|lia].
Qed.

Lemma lookup_map {A B} (f : A -> B) (l : list A) i :
  map f l !! i = f <$> (l !! i).
Proof. exact (list_lookup_fmap f l i). Qed.

Section Views.
Context (b : buffers).

(** What the views and the copies hold at a position of the range. *)
Lemma view_lookup j :
  (j < length (b_keys b))%nat ->
  exists k i,
    sorted_pairs (b_keys b) !! j = Some (k, i)
    /\ res_view (sorted_buffers b) j = Z.to_nat i
    /\ key_view (sorted_buffers b) j = k
    /\ kcopies_at (sorted_buffers b) j = k
    /\ b_keys b !! Z.to_nat i = Some k
    /\ 0 <= i.
Proof.
  intros Hj.
  destruct (lookup_lt_is_Some_2 (sorted_pairs (b_keys b)) j) as [[k i] Hp];
    [rewrite length_sorted_pairs; exact Hj|].
  exists k, i.
  assert ((k, i) ∈ sorted_pairs (b_keys b)) as Hel
    by (apply list_elem_of_lookup; eauto).
  apply sorted_pairs_elem in Hel as [Hk Hi].
  assert (rd (b_tmp (sorted_buffers b)) j = i) as Hidx.
  { unfold rd, sorted_buffers. cbn [b_tmp].
    rewrite lookup_app_l
      by (rewrite length_map, length_sorted_pairs; exact Hj).
    rewrite lookup_map, Hp. reflexivity. }
  split; [exact Hp|]. split; [unfold res_view; rewrite Hidx; reflexivity|].
  split; [|split; [|split; assumption]].
  - unfold key_view. rewrite Hidx. unfold rd, sorted_buffers. cbn [b_keys].
    rewrite Hk. reflexivity.
  - unfold kcopies_at, rd, sorted_buffers. cbn [b_tmp b_keys].
    rewrite lookup_app_r
      by (rewrite length_map, length_sorted_pairs; lia).
    rewrite length_map, length_sorted_pairs.
    replace (length (b_keys b) + j - length (b_keys b))%nat with j by lia.
    rewrite lookup_app_l
      by (rewrite length_map, length_sorted_pairs; exact Hj).
    rewrite lookup_map, Hp. reflexivity.
Qed.

Lemma view_ordered j j' :
  (j < j')%nat -> (j' < length (b_keys b))%nat ->
  key_view (sorted_buffers b) j <= key_view (sorted_buffers b) j'
  /\ (key_view (sorted_buffers b) j = key_view (sorted_buffers b) j' ->
      (res_view (sorted_buffers b) j < res_view (sorted_buffers b) j')%nat).
Proof.
  intros Hjj Hj'.
  destruct (view_lookup j ltac:(lia)) as (k & i & Hp & -> & -> & _ & _ & Hi).
  destruct (view_lookup j' Hj')
    as (k' & i' & Hp' & -> & -> & _ & _ & Hi').
  pose proof (proj1 (StronglySorted_lookup _ _)
                (sorted_pairs_sorted (b_keys b)) j j' _ _ Hjj Hp Hp') as H.
  unfold key_then_index in H. cbn [fst snd] in H. lia.
Qed.

(** [kcopies[j] <= kcopies[j + 1]] and [keys[indices[j]] = kcopies[j]] *)
Lemma view_sorted : sorted (key_view (sorted_buffers b)) (length (b_keys b)).
Proof. intros j Hj. apply view_ordered; lia. Qed.

Lemma view_copies j :
  (j < length (b_keys b))%nat ->
  key_view (sorted_buffers b) j = kcopies_at (sorted_buffers b) j.
Proof.
  intros Hj. destruct (view_lookup j Hj) as (k & i & _ & _ & -> & -> & _).
  reflexivity.
Qed.

Lemma view_key j :
  (j < length (b_keys b))%nat ->
  b_keys b !! res_view (sorted_buffers b) j
  = Some (key_view (sorted_buffers b) j).
Proof.
  intros Hj. destruct (view_lookup j Hj) as (k & i & _ & -> & -> & _ & H & _).
  exact H.
Qed.

Lemma view_lt j :
  (j < length (b_keys b))%nat ->
  (res_view (sorted_buffers b) j < length (b_keys b))%nat.
Proof.
  intros Hj. eapply lookup_lt_Some. apply view_key. exact Hj.
Qed.

Lemma view_inj j j' :
  (j < length (b_keys b))%nat -> (j' < length (b_keys b))%nat ->
  res_view (sorted_buffers b) j = res_view (sorted_buffers b) j' -> j = j'.
Proof.
  intros Hj Hj' E.
  assert (key_view (sorted_buffers b) j = key_view (sorted_buffers b) j')
    as Ek.
  { pose proof (view_key j Hj) as H. pose proof (view_key j' Hj') as H'.
    rewrite E in H. congruence. }
  destruct (Nat.lt_trichotomy j j') as [Hlt|[->|Hlt]]; [|reflexivity|].
  - pose proof (proj2 (view_ordered j j' Hlt Hj') Ek). lia.
  - pose proof (proj2 (view_ordered j' j Hlt Hj) (eq_sym Ek)). lia.
Qed.

Lemma view_surj i :
  (i < length (b_keys b))%nat ->
  exists j, (j < length (b_keys b))%nat /\ res_view (sorted_buffers b) j = i.
Proof.
  intros Hi.
  destruct (lookup_lt_is_Some_2 (b_keys b) i Hi) as [k Hk].
  assert ((k, Z.of_nat i) ∈ sorted_pairs (b_keys b)) as Hel.
  { apply sorted_pairs_elem. rewrite Nat2Z.id. split; [exact Hk|lia]. }
  apply list_elem_of_lookup in Hel as [j Hj].
  assert (j < length (b_keys b))%nat as Hlt
    by (rewrite <- length_sorted_pairs; eapply lookup_lt_Some; exact Hj).
  exists j. split; [exact Hlt|].
  destruct (view_lookup j Hlt) as (k' & i' & Hp & -> & _).
  rewrite Hj in Hp. injection Hp as <- <-. apply Nat2Z.id.
Qed.

(** The sorted positions are a permutation of the positions. *)
Lemma view_perm :
  map (res_view (sorted_buffers b)) (seq 0 (length (b_keys b)))
  ≡ₚ seq 0 (length (b_keys b)).
Proof.
  apply NoDup_Permutation.
  - apply (NoDup_fmap_2_strong (res_view (sorted_buffers b)));
      [|apply NoDup_seq].
    intros j j' Hj Hj' E. apply elem_of_seq in Hj, Hj'.
    apply view_inj; [lia..|exact E].
  - apply NoDup_seq.
  - intros i. rewrite elem_of_seq. split.
    + intros Hi. apply list_elem_of_fmap in Hi as (j & -> & Hj).
      apply elem_of_seq in Hj. pose proof (view_lt j ltac:(lia)). lia.
    + intros Hi. destruct (view_surj i ltac:(lia)) as (j & Hj & <-).
      apply (list_elem_of_fmap_2 (res_view (sorted_buffers b))).
      apply elem_of_seq. lia.
Qed.

Lemma view_rd j :
  (j < length (b_keys b))%nat ->
  rd (b_keys b) (res_view (sorted_buffers b) j)
  = key_view (sorted_buffers b) j.
Proof. intros Hj. unfold rd. rewrite (view_key j Hj). reflexivity. Qed.

(** A position of the sorted view is a first occurrence there exactly when
    the position of the caller that it stands for holds the first
    occurrence of its key in the range of the caller. *)
Lemma view_first j :
  (j < length (b_keys b))%nat ->
  first_at (key_view (sorted_buffers b)) j
  = first_in (b_keys b) (res_view (sorted_buffers b) j).
Proof.
  intros Hj. destruct (first_at (key_view (sorted_buffers b)) j) eqn:E.
  - symmetry. apply forallb_forall. intros i' Hi'. apply in_seq in Hi'.
    apply negb_true_iff, Z.eqb_neq. intros Heq.
    pose proof (view_lt j Hj) as Hlt.
    destruct (view_surj i' ltac:(lia)) as (j' & Hj' & <-).
    rewrite !view_rd in Heq by assumption.
    apply first_at_spec in E.
    destruct (Nat.lt_trichotomy j j') as [Hjj|[->|Hjj]]; [|lia|].
    + pose proof (proj2 (view_ordered j j' Hjj Hj') (eq_sym Heq)). lia.
    + destruct E as [->|E]; [lia|]. apply E.
      pose proof (proj1 (view_ordered (j - 1) j ltac:(lia) Hj)).
      destruct (Nat.eq_dec j' (j - 1)%nat) as [->|Hne]; [lia|].
      pose proof (proj1 (view_ordered j' (j - 1) ltac:(lia) ltac:(lia))).
      lia.
  - unfold first_at in E. apply orb_false_iff in E as [E0 E].
    apply Nat.eqb_neq in E0. apply negb_false_iff, Z.eqb_eq in E.
    pose proof (proj2 (view_ordered (j - 1) j ltac:(lia) Hj) (eq_sym E))
      as Hlt.
    destruct (first_in (b_keys b) (res_view (sorted_buffers b) j)) eqn:Ef;
      [|reflexivity].
    unfold first_in in Ef. rewrite forallb_forall in Ef.
    specialize (Ef (res_view (sorted_buffers b) (j - 1))
                  ltac:(apply in_seq; lia)).
    rewrite !view_rd in Ef by lia. rewrite E, Z.eqb_refl in Ef.
    discriminate.
Qed.
End Views.

Lemma sequence_fits w n :
  0 <= w -> n <= 2 ^ w - 1 -> map (wrap w) (seqZ 0 n) = seqZ 0 n.
Proof.
  intros Hw Hn. rewrite <- (map_id (seqZ 0 n)) at 2.
  apply map_ext_in. intros x Hx.
  apply list_elem_of_In, elem_of_seqZ in Hx.
  apply wrap_small; lia.
Qed.

(** [find_or_put] when its asserts hold and [tmp] is long enough. *)
Lemma find_or_put_sorts c b s :
  0 <= key_bits c ->
  Z.of_nat (length (b_keys b)) <= 2 ^ key_bits c - 1 ->
  Z.of_nat (length (b_keys b)) <= 2 ^ 31 - 1 ->
  (2 * length (b_keys b) <= length (b_tmp b))%nat ->
  find_or_put c b s
  = bind (find_or_put_sorted c (key_view (sorted_buffers b))
            (length (b_keys b)) (res_view (sorted_buffers b)))
      (fun _ => ret (sorted_buffers b)) s.
Proof.
  intros Hw H1 H2 H3. unfold find_or_put.
  destruct (Z.leb_spec (Z.of_nat (length (b_keys b))) (2 ^ key_bits c - 1));
    [|lia].
  destruct (Z.leb_spec (Z.of_nat (length (b_keys b))) (2 ^ 31 - 1)); [|lia].
  destruct (Nat.leb_spec (2 * length (b_keys b)) (length (b_tmp b)));
    [|lia].
  cbn [negb]. rewrite (sequence_fits _ _ Hw H1). reflexivity.
Qed.

(** ** The example tables are tables *)

Lemma test_table_constructed :
  Cuckoo_new 64 32 32 32 identity_permute 3 21 5
  = Some (test_table, replicate 4096 0).
Proof. reflexivity. Qed.

Lemma wide_table_constructed :
  Cuckoo_new 64 32 32 4 identity_permute 3 33 3
  = Some (wide_table, replicate 128 0).
Proof. reflexivity. Qed.

Lemma tiny_table_constructed :
  Cuckoo_new 64 32 32 2 identity_permute 1 4 0
  = Some (tiny_table, replicate 8 0).
Proof. reflexivity. Qed.

Ltac solve_wf :=
  split; unfold key_width; cbn; try lia; try reflexivity;
  try (intros; assumption).

Lemma test_table_wf : wf_cuckoo test_table.
Proof. solve_wf. Qed.

Lemma wide_table_wf : wf_cuckoo wide_table.
Proof. solve_wf. Qed.

Lemma tiny_table_wf : wf_cuckoo tiny_table.
Proof. solve_wf. Qed.

Lemma small_table_wf : wf_cuckoo small_table.
Proof. solve_wf. Qed.

Lemma tiny_rows_eq : tiny_rows = [2147483649; 2147483650; 0; 0; 0; 0; 0; 0].
Proof. reflexivity. Qed.

Lemma tiny_rows_ok : table_ok tiny_table tiny_rows.
Proof.
  assert (forall k, st_ok tiny_table k 0 <-> 0 <= k < 16) as Hst
    by (intros k; unfold st_ok, key_width; cbn; lia).
  unfold tiny_rows, coop_put.
  apply (coop_put_loop_returns tiny_table tiny_table_wf);
    [|apply Hst; lia|unfold max_chain_length; cbn; lia].
  apply (coop_put_loop_returns tiny_table tiny_table_wf);
    [|apply Hst; lia|unfold max_chain_length; cbn; lia].
  apply (table_ok_clear tiny_table (replicate 8 0) tiny_table_wf).
  reflexivity.
Qed.

(** ** The claims *)

(** C1 (the code departs from the claim).  The claim: decoding the compact
    encoding recovers the pair, [hash_key (addr_row i k) = (i, k)] for every
    hash id and every key of the universe.  In a table of 33-bit keys with
    32-bit rows, which the constructor accepts, the key [2^32 + 5] is encoded
    at address 5 as the row [0x60000000], and [hash_key] restores the key 5
    from it: the shift of the remainder is evaluated in the row type and
    loses its top bit.  Lemma [hash_key_addr_row] is the round trip for the
    tables whose keys are not wider than a row. *)
Theorem C1_wide_key_not_restored :
  Cuckoo_new 64 32 32 4 identity_permute 3 33 3
  = Some (wide_table, replicate 128 0)
  /\ wf_cuckoo wide_table
  /\ 0 <= 2 ^ 32 + 5 < 2 ^ key_width wide_table
  /\ addr_row wide_table 0 (2 ^ 32 + 5) = (5, 1610612736)
  /\ hash_key wide_table 5 1610612736 = Some (0, 5).
Proof.
  split; [reflexivity|]. split; [exact wide_table_wf|].
  split; [unfold key_width; cbn; lia|]. split; reflexivity.
Qed.

(** C2.  Every value that [coop_put] writes into a slot, by the
    compare-and-swap or by the exchange, is a nonzero row with an occupied
    state; an exchange overwrites a nonzero row; so a slot that holds a
    nonzero value holds a nonzero value afterwards.  The log is the faithful
    account of the run: its reads are the contents of the array and the rows
    afterwards are the rows before with the logged writes applied. *)
Theorem C2_coop_put_writes_occupied c avoid tile fuel rows k :
  wf_cuckoo c -> 0 <= k < 2 ^ key_width c ->
  let r := coop_put fuel c avoid tile rows k in
  replays rows (run_log r)
  /\ run_rows r = foldl apply_write rows (run_log r)
  /\ Forall (fun it => forall idx row,
               written it = Some (idx, row) -> row <> 0 /\ occupied c row)
       (run_log r)
  /\ Forall (fun it => forall lane idx old,
               it_act it = Exch lane idx old -> old <> 0 /\ it_row it <> 0)
       (run_log r)
  /\ forall i, rd rows i <> 0 -> rd (run_rows r) i <> 0.
Proof.
  intros Hwf Hk r.
  assert (st_ok c k 0) as Hst.
  { split; [|exact Hk]. pose proof (wf_hash c Hwf). lia. }
  destruct (coop_put_loop_writes c Hwf avoid tile fuel rows k 0 0 Hst)
    as (Hrep & Hrows & Hall).
  fold (coop_put fuel c avoid tile rows k) in Hrep, Hrows, Hall.
  fold r in Hrep, Hrows, Hall.
  assert (Forall (fun it => forall idx row,
            written it = Some (idx, row) -> row <> 0 /\ occupied c row)
            (run_log r)) as Hw.
  { eapply Forall_impl; [exact Hall|]. cbn. intros it [Hocc _] idx row Hwr.
    assert (row = it_row it) as ->.
    { unfold written in Hwr. destruct (it_act it) as [|? old| |? ? ?];
        try discriminate; [destruct (old =? 0); [|discriminate]|];
        congruence. }
    split; [destruct Hocc; lia|exact Hocc]. }
  repeat split; try assumption.
  - eapply Forall_impl; [exact Hall|]. cbn.
    intros it [Hocc Hold] lane idx old Hact.
    split; [eauto|destruct Hocc; lia].
  - rewrite Hrows. apply foldl_apply_write_nonzero.
    eapply Forall_impl; [exact Hw|]. cbn. intros it Hit idx row Hwr.
    apply (Hit idx row Hwr).
Qed.

Lemma C2_coop_put_writes_occupied_witness :
  let r := coop_put 21 tiny_table false tile0 tiny_rows 3 in
  replays tiny_rows (run_log r)
  /\ run_rows r = foldl apply_write tiny_rows (run_log r)
  /\ Forall (fun it => forall idx row,
               written it = Some (idx, row) ->
               row <> 0 /\ occupied tiny_table row)
       (run_log r)
  /\ Forall (fun it => forall lane idx old,
               it_act it = Exch lane idx old -> old <> 0 /\ it_row it <> 0)
       (run_log r)
  /\ forall i, rd tiny_rows i <> 0 -> rd (run_rows r) i <> 0.
Proof.
  apply (C2_coop_put_writes_occupied tiny_table false tile0 21 tiny_rows 3).
  - exact tiny_table_wf.
  - unfold key_width. cbn. lia.
Defined.

(** The number of rows that the constructor allocates and [clear] zeroes:
    the number of slots times the size of a row in bytes. *)
Lemma Cuckoo_new_n_rows kb ab rw B P H W A c rows :
  0 <= A ->
  Cuckoo_new kb ab rw B P H W A = Some (c, rows) ->
  Z.of_nat (n_rows c) = wrap 64 (2 ^ A * (rw / 8) * Z.of_nat B)
  /\ length rows = n_rows c
  /\ Forall (fun x => x = 0) rows.
Proof.
  intros HA. unfold Cuckoo_new.
  destruct (_ <=? rw); [|discriminate]. intros [= <- <-].
  cbn [n_rows]. unfold clear. cbn [n_rows].
  rewrite Z.shiftl_mul_pow2, Z.mul_1_l by exact HA.
  split; [|split].
  - rewrite Z2Nat.id; [reflexivity|]. apply wrap_range. lia.
  - rewrite drop_ge by (rewrite length_replicate; lia).
    rewrite app_nil_r. apply length_replicate.
  - rewrite drop_ge by (rewrite length_replicate; lia).
    rewrite app_nil_r. apply Forall_replicate. reflexivity.
Qed.

(** C5 (the code departs from the claim).  The claim: a table of address
    width [A] and bucket size [B] has exactly [2^A * B] slots, slot [j] of
    bucket [a] at index [a * B + j]; with [A = 5] and [B = 32] that is 1024
    slots, and [clear] zeroes as many rows.  The table of the tests is
    addressed as the claim says, below 1024, but its [n_rows] is 4096: the
    constructor multiplies the number of slots by the size of a row in
    bytes, and [clear] zeroes 4096 rows. *)
Theorem C5_n_rows_counts_bytes :
  Cuckoo_new 64 32 32 32 identity_permute 3 21 5
  = Some (test_table, replicate 4096 0)
  /\ n_rows test_table = 4096%nat
  /\ clear test_table (replicate 4096 1) = replicate 4096 0
  /\ 2 ^ addr_width test_table * Z.of_nat (bucket_size test_table) = 1024
  /\ forall addr rank,
       0 <= addr < 2 ^ addr_width test_table ->
       (rank < bucket_size test_table)%nat ->
       slot test_table addr rank = (Z.to_nat addr * 32 + rank)%nat
       /\ (slot test_table addr rank < 1024)%nat.
Proof.
  split; [reflexivity|]. split; [reflexivity|]. split; [reflexivity|].
  split; [reflexivity|]. intros addr rank Ha Hr.
  rewrite (slot_eq test_table test_table_wf) by exact Ha.
  cbn in Ha, Hr |- *. lia.
Qed.

(** C6.  In the sequential embedding [coop_put] terminates on every table
    that the code produces: it returns within [max_chain_length + 1]
    iterations.  [max_chain_length] is [20 * H]; an eviction is performed
    only while the chain counter is below it, so there are at most [20 * H]
    of them, and an iteration that finds the chain full has the counter at
    exactly [20 * H] and returns [FULL].  After an eviction that recovered
    the hash id [h'] and the key [k'] from the evicted row, the next
    iteration runs on [k'] with the hash id [(h' + 1) mod H] and the counter
    incremented: that is [chained].  The rows afterwards are again a
    table. *)
Theorem C6_coop_put_terminates c avoid tile fuel rows k :
  wf_cuckoo c -> table_ok c rows -> 0 <= k < 2 ^ key_width c ->
  (Z.to_nat (max_chain_length c) < fuel)%nat ->
  let r := coop_put fuel c avoid tile rows k in
  (exists res, run_out r = Returned res)
  /\ max_chain_length c = 20 * n_hash_functions c
  /\ Z.of_nat (length (evictions (run_log r))) <= 20 * n_hash_functions c
  /\ Forall (chain_bound c tile 0) (run_log r)
  /\ (run_out r = Returned FULL <->
      exists it, last (run_log r) = Some it /\ it_act it = Chain_full)
  /\ chained c (run_log r)
  /\ table_ok c (run_rows r)
  /\ coop_put (S fuel) c avoid tile rows k = r.
Proof.
  intros Hwf Hok Hk Hfuel r.
  assert (st_ok c k 0) as Hst.
  { split; [|exact Hk]. pose proof (wf_hash c Hwf). lia. }
  assert (0 <= max_chain_length c) as Hmax
    by (unfold max_chain_length; pose proof (wf_hash c Hwf); lia).
  destruct (coop_put_loop_returns c Hwf avoid tile fuel rows k 0 0 Hok Hst
              ltac:(rewrite Z.sub_0_r; exact Hfuel)) as [[res Hres] Hok'].
  destruct (coop_put_loop_chain c avoid tile fuel rows k 0 0 Hmax)
    as (Hch & Hb & Hn & _).
  fold (coop_put fuel c avoid tile rows k) in Hres, Hok', Hch, Hb, Hn.
  fold r in Hres, Hok', Hch, Hb, Hn.
  split; [eauto|]. split; [reflexivity|].
  split; [unfold max_chain_length in Hn; lia|].
  split; [exact Hb|]. split; [|split; [exact Hch|split; [exact Hok'|]]].
  - split.
    + intros Hfull.
      destruct (coop_put_loop_full c avoid tile fuel rows k 0 0 Hmax Hfull)
        as (it & Hlast & Hact & _).
      eauto.
    + intros (it & Hlast & Hact).
      exact (coop_put_loop_chain_full c avoid tile fuel rows k 0 0 it
               Hlast Hact).
  - unfold r, coop_put. apply coop_put_loop_fuel.
    fold (coop_put fuel c avoid tile rows k). fold r. rewrite Hres.
    discriminate.
Qed.

Lemma C6_coop_put_terminates_witness :
  let r := coop_put 21 tiny_table false tile0 tiny_rows 3 in
  (exists res, run_out r = Returned res)
  /\ max_chain_length tiny_table = 20 * n_hash_functions tiny_table
  /\ Z.of_nat (length (evictions (run_log r)))
     <= 20 * n_hash_functions tiny_table
  /\ Forall (chain_bound tiny_table tile0 0) (run_log r)
  /\ (run_out r = Returned FULL <->
      exists it, last (run_log r) = Some it /\ it_act it = Chain_full)
  /\ chained tiny_table (run_log r)
  /\ table_ok tiny_table (run_rows r)
  /\ coop_put 22 tiny_table false tile0 tiny_rows 3 = r.
Proof.
  apply (C6_coop_put_terminates tiny_table false tile0 21 tiny_rows 3).
  - exact tiny_table_wf.
  - exact tiny_rows_ok.
  - unfold key_width. cbn. lia.
  - unfold max_chain_length. cbn. lia.
Defined.

(** C7.  On every eviction of [coop_put], made with the chain counter at
    [c], the slot that is exchanged is the one of the lane
    [(global_bucket_index + c) mod B] of the probed bucket, where
    [global_bucket_index] is the number [blockIdx.x * blockDim.x +
    tile.meta_group_rank()] of the tile that runs the chain (lemma
    [global_bucket_index_inj]: it tells the tiles of a launch apart); the
    exchange is the only write of the iteration. *)
Theorem C7_coop_put_victim_lane c avoid tile fuel rows k :
  wf_cuckoo c -> 0 <= k < 2 ^ key_width c ->
  let r := coop_put fuel c avoid tile rows k in
  Forall (fun it => forall lane idx old,
            it_act it = Exch lane idx old ->
            Z.of_nat lane
            = (global_bucket_index tile + it_chain it)
              mod Z.of_nat (bucket_size c)
            /\ idx = (Z.to_nat (it_addr it) * bucket_size c + lane)%nat
            /\ written it = Some (idx, it_row it))
    (run_log r)
  /\ run_rows r = foldl apply_write rows (run_log r).
Proof.
  intros Hwf Hk r.
  assert (st_ok c k 0) as Hst.
  { split; [|exact Hk]. pose proof (wf_hash c Hwf). lia. }
  assert (0 <= max_chain_length c) as Hmax
    by (unfold max_chain_length; pose proof (wf_hash c Hwf); lia).
  destruct (coop_put_loop_chain c avoid tile fuel rows k 0 0 Hmax)
    as (_ & Hb & _ & Hco).
  pose proof (coop_put_loop_st_ok c avoid tile fuel Hwf rows k 0 0 Hst) as Hs.
  destruct (coop_put_loop_writes c Hwf avoid tile fuel rows k 0 0 Hst)
    as (_ & Hrows & _).
  split; [|exact Hrows].
  apply Forall_forall. intros it Hin lane idx old Hact.
  rewrite Forall_forall in Hb, Hco, Hs.
  specialize (Hb it Hin). specialize (Hco it Hin). specialize (Hs it Hin).
  destruct Hb as [_ Hb]. destruct Hco as (Haddr & _ & Hidx).
  rewrite Hact in Hb, Hidx. destruct Hb as [_ ->]. destruct Hs as [Hh Hk'].
  split; [apply (cuckoor_eq c Hwf)|]. split.
  - rewrite Hidx. apply (slot_eq c Hwf). rewrite Haddr.
    apply (addr_row_addr_range c Hwf); assumption.
  - unfold written. rewrite Hact. reflexivity.
Qed.

Lemma C7_coop_put_victim_lane_witness :
  let r := coop_put 21 tiny_table false tile0 tiny_rows 3 in
  Forall (fun it => forall lane idx old,
            it_act it = Exch lane idx old ->
            Z.of_nat lane
            = (global_bucket_index tile0 + it_chain it)
              mod Z.of_nat (bucket_size tiny_table)
            /\ idx = (Z.to_nat (it_addr it) * bucket_size tiny_table
                      + lane)%nat
            /\ written it = Some (idx, it_row it))
    (run_log r)
  /\ run_rows r = foldl apply_write tiny_rows (run_log r).
Proof.
  apply (C7_coop_put_victim_lane tiny_table false tile0 21 tiny_rows 3).
  - exact tiny_table_wf.
  - unfold key_width. cbn. lia.
Defined.

(** C4, the claim as it is stated, fails.  The claim: when [coop_put]
    returns [FULL] for a key, that key is not in the table afterwards and
    every key evicted during the chain is.  In the table of one bucket that
    holds the keys 1 and 2, [coop_put] of the key 3 returns [FULL]; the key
    3 is then in the table, and the key 2, which the chain evicted, is
    not. *)
Lemma C4_full_keeps_the_inserted_key :
  let r := coop_put 21 tiny_table false tile0 tiny_rows 3 in
  table_ok tiny_table tiny_rows
  /\ run_out r = Returned FULL
  /\ count tiny_table (run_rows r) 3 = 1%nat
  /\ 2 ∈ evicted tiny_table (run_log r)
  /\ count tiny_table (run_rows r) 2 = 0%nat.
Proof.
  split; [exact tiny_rows_ok|]. split; [reflexivity|].
  split; [reflexivity|]. split; [|reflexivity].
  vm_compute. apply list_elem_of_In. cbn. tauto.
Qed.

(** C4, amended.  When [coop_put] returns [FULL] for a key [k], on a table
    whose keys are not wider than a row, it has performed exactly
    [max_chain_length] evictions, the first of which stored [k]; the key
    that is left out of the table is the key that the last eviction
    recovered, and the keys stored afterwards together with that key are
    the keys stored before together with [k]. *)
Theorem C4_coop_put_full_drops_last_evicted c avoid tile fuel rows k :
  wf_cuckoo c -> key_width c <= row_width c -> table_ok c rows ->
  0 <= k < 2 ^ key_width c ->
  let r := coop_put fuel c avoid tile rows k in
  run_out r = Returned FULL ->
  exists first dropped,
    head (run_log r) = Some first
    /\ is_exch first = true
    /\ written first = Some (slot c (it_addr first)
                               (cuckoor c tile 0),
                             snd (addr_row c 0 k))
    /\ Z.of_nat (length (evictions (run_log r))) = max_chain_length c
    /\ last (evicted c (run_log r)) = Some dropped
    /\ dropped :: stored c (run_rows r) ≡ₚ k :: stored c rows.
Proof.
  intros Hwf Hfit Hok Hk r Hfull.
  assert (st_ok c k 0) as Hst.
  { split; [|exact Hk]. pose proof (wf_hash c Hwf). lia. }
  assert (0 < max_chain_length c) as Hmax
    by (unfold max_chain_length; pose proof (wf_hash c Hwf); lia).
  destruct (coop_put_loop_full c avoid tile fuel rows k 0 0 ltac:(lia) Hfull)
    as (it & Hlast & Hact & Hn & _ & Hkit).
  destruct (coop_put_loop_stored c Hwf avoid tile fuel rows k 0 0 Hfit Hok
              Hst Hfull) as (it' & Hlast' & _ & Hperm).
  destruct (coop_put_loop_full_first c avoid tile fuel rows k 0 0 Hwf Hok
              Hst Hmax Hfull) as (first & Hhead & Hex & Hwr).
  specialize (Hkit Hmax).
  fold (coop_put fuel c avoid tile rows k) in Hlast, Hn, Hkit, Hlast', Hperm,
    Hhead.
  fold r in Hlast, Hn, Hkit, Hlast', Hperm, Hhead.
  rewrite Hlast in Hlast'. injection Hlast' as <-.
  rewrite Z.sub_0_r in Hn.
  exists first, (it_k it). repeat split; assumption.
Qed.

Lemma C4_coop_put_full_drops_last_evicted_witness :
  let r := coop_put 21 tiny_table false tile0 tiny_rows 3 in
  exists first dropped,
    head (run_log r) = Some first
    /\ is_exch first = true
    /\ written first = Some (slot tiny_table (it_addr first)
                               (cuckoor tiny_table tile0 0),
                             snd (addr_row tiny_table 0 3))
    /\ Z.of_nat (length (evictions (run_log r)))
       = max_chain_length tiny_table
    /\ last (evicted tiny_table (run_log r)) = Some dropped
    /\ dropped :: stored tiny_table (run_rows r)
       ≡ₚ 3 :: stored tiny_table tiny_rows.
Proof.
  apply (C4_coop_put_full_drops_last_evicted
           tiny_table false tile0 21 tiny_rows 3).
  - exact tiny_table_wf.
  - unfold key_width. cbn. lia.
  - exact tiny_rows_ok.
  - unfold key_width. cbn. lia.
  - reflexivity.
Defined.

(** C10.  [coop_sorted] reads a key beyond the range when the range has
    [2^31 + 1] keys: in the launch that [find_or_put_sorted] makes for it,
    [2^24 + 1] blocks of 128 threads, the stride is [2^31 + 128], and the
    thread [2^31 - 128], after its iteration at the position of its index,
    has [i + stride = 2^32], which is 0 in an [unsigned int]: it runs a
    second iteration at position 0, where its [index] is not 0, and reads
    [start[i - 1]], that is [start[4294967295]], for [first].  So the
    reads of the kernel are not all below [len]. *)
Theorem C10_coop_sorted_reads_beyond_range (start : nat -> Z) :
  let len := wrap_len in
  let g := launch_grid len in
  let c := small_table in
  Z.of_nat len = 2 ^ 31 + 1
  /\ Z.of_nat (grid_dim g) = 2 ^ 24 + 1
  /\ Z.of_nat (stride g) = 2 ^ 31 + 128
  /\ (wrap_tile < n_threads g / bucket_size c)%nat
  /\ Z.of_nat (uint (wrap_tile * bucket_size c)) = 2 ^ 31 - 128
  /\ tile_iterations c g len wrap_tile
     = ([Z.to_nat (2 ^ 31 - 128); 0%nat], true)
  /\ th_reads (sorted_thread start len (uint (wrap_tile * bucket_size c)) 0)
     = [0; 2 ^ 32 - 1]
  /\ In (2 ^ 32 - 1) (kernel_reads c g len (sorted_thread start len))
  /\ ~ Forall (fun j => 0 <= j < Z.of_nat len)
        (kernel_reads c g len (sorted_thread start len)).
Proof.
  cbv zeta.
  assert (Z.of_nat wrap_len = 2 ^ 31 + 1) as Hlen
    by (unfold wrap_len; lia).
  assert (Z.of_nat wrap_tile = 2 ^ 30 - 64) as Htile
    by (unfold wrap_tile; lia).
  assert (Z.of_nat (grid_dim (launch_grid wrap_len)) = 2 ^ 24 + 1) as Hgrid.
  { unfold launch_grid, block_size. cbn [grid_dim].
    change (Z.to_nat 128) with 128%nat.
    pose proof (Nat.div_mod (wrap_len + 128 - 1) 128 ltac:(lia)).
    pose proof (Nat.mod_upper_bound (wrap_len + 128 - 1) 128 ltac:(lia)).
    lia. }
  assert (Z.of_nat (n_threads (launch_grid wrap_len)) = 2 ^ 31 + 128)
    as Hthreads.
  { unfold n_threads. rewrite Nat2Z.inj_mul, Hgrid. reflexivity. }
  assert (Z.of_nat (stride (launch_grid wrap_len)) = 2 ^ 31 + 128) as Hstride.
  { unfold stride. rewrite uint_small; lia. }
  change (bucket_size small_table) with 2%nat.
  assert (Z.of_nat (max_index small_table wrap_len) = 2 ^ 31 + 2) as Hmax.
  { unfold max_index. change (bucket_size small_table) with 2%nat.
    pose proof (Nat.div_mod (wrap_len + 2 - 1) 2 ltac:(lia)).
    pose proof (Nat.mod_upper_bound (wrap_len + 2 - 1) 2 ltac:(lia)).
    lia. }
  assert (Z.of_nat (n_threads (launch_grid wrap_len) / 2) = 2 ^ 30 + 64)
    as Htiles.
  { pose proof (Nat.div_mod (n_threads (launch_grid wrap_len)) 2
                  ltac:(lia)).
    pose proof (Nat.mod_upper_bound (n_threads (launch_grid wrap_len)) 2
                  ltac:(lia)).
    lia. }
  assert (uint (wrap_tile * 2) = Z.to_nat (2 ^ 31 - 128)) as Hindex.
  { rewrite uint_small; lia. }
  assert (tile_iterations small_table (launch_grid wrap_len) wrap_len
            wrap_tile = ([Z.to_nat (2 ^ 31 - 128); 0%nat], true)) as Hit.
  { unfold tile_iterations. change (bucket_size small_table) with 2%nat.
    rewrite Hindex. apply iterations_wrapped; lia. }
  assert (th_reads (sorted_thread start wrap_len (uint (wrap_tile * 2)) 0)
          = [0; 2 ^ 32 - 1]) as Hreads.
  { apply sorted_thread_reads_wrapped; [lia|]. rewrite Hindex. lia. }
  assert (In (2 ^ 32 - 1)
            (kernel_reads small_table (launch_grid wrap_len) wrap_len
               (sorted_thread start wrap_len))) as Hin.
  { unfold kernel_reads. rewrite in_flat_map. exists wrap_tile. split.
    - apply (proj2 (in_seq _ _ _)).
      change (bucket_size small_table) with 2%nat. lia.
    - rewrite in_flat_map. exists 0%nat. rewrite Hit.
      split; [right; left; reflexivity|].
      rewrite in_flat_map.
      exists (sorted_thread start wrap_len (uint (wrap_tile * 2)) 0).
      split; [|rewrite Hreads; right; left; reflexivity].
      unfold tile_threads. change (bucket_size small_table) with 2%nat.
      rewrite in_map_iff. exists 0%nat.
      rewrite !Nat.add_0_r. split; [reflexivity|]. left. reflexivity. }
  split; [exact Hlen|]. split; [exact Hgrid|]. split; [exact Hstride|].
  split; [lia|]. split; [rewrite Hindex; lia|]. split; [exact Hit|].
  split; [exact Hreads|]. split; [exact Hin|].
  intros Hall. rewrite Forall_forall in Hall.
  specialize (Hall (2 ^ 32 - 1) ltac:(apply list_elem_of_In; exact Hin)).
  lia.
Qed.




(** C9, counterexample.  A range of [2^31] keys has a length that
    [key_type] represents (here a 64-bit type), but [find_or_put] stops at
    its second [assert], [klen <= std::numeric_limits<int>::max()], before
    it sorts or looks anything up. *)
Lemma C9_long_range_stops_at_assert :
  Z.of_nat (length (b_keys long_range)) = 2 ^ 31
  /\ 2 ^ 31 <= 2 ^ key_bits small_table - 1
  /\ forall s, find_or_put small_table long_range s = (s, None).
Proof.
  assert (Z.of_nat (length (b_keys long_range)) = 2 ^ 31) as E.
  { unfold long_range. cbn [b_keys]. rewrite length_replicate.
    apply Z2Nat.id. apply Z.pow_nonneg. lia. }
  split; [exact E|]. split; [cbn [key_bits small_table]; lia|].
  intros s. unfold find_or_put. cbv zeta. rewrite E.
  change (2 ^ 31 <=? 2 ^ key_bits small_table - 1) with true.
  change (2 ^ 31 <=? 2 ^ 31 - 1) with false.
  reflexivity.
Qed.

(** C9, amended.  For a range [keys] of [L] keys of the universe, with [L] not above
    the largest value of [key_type] nor of [int], a scratch buffer of at
    least [2 * L] values and a result buffer of at least [L] results,
    [find_or_put] leaves in [tmp] the positions [0 .. L - 1] stably sorted
    by their keys, followed by the sorted copies of the keys: the copies
    are sorted, [keys[indices[j]] = kcopies[j]], the indices are a
    permutation of the positions, and equal keys keep the order of their
    positions.  It then is [find_or_put_sorted] on the views of the keys and
    of the results through these indices, and it completes.  So the result
    at position [i] of the caller is the result for [keys[i]]: [FOUND] when
    an earlier position of the range holds the same key or [coop_find] finds
    the key in the table as it was, and otherwise what the call of
    [coop_put] for that key returned, [PUT] or [FULL].  The results beyond
    the range and the keys of the caller are left as they are. *)
Theorem C9_find_or_put_through_stable_sort (c : Cuckoo) (b : buffers)
    (s : dstate (list Z) Result) :
  wf_cuckoo c -> table_ok c (d_st s) ->
  Forall (fun k => 0 <= k < 2 ^ key_width c) (b_keys b) ->
  Z.of_nat (length (b_keys b)) <= 2 ^ key_bits c - 1 ->
  Z.of_nat (length (b_keys b)) <= 2 ^ 31 - 1 ->
  (2 * length (b_keys b) <= length (b_tmp b))%nat ->
  (length (b_keys b) <= length (d_res s))%nat ->
  let keys := b_keys b in
  let L := length keys in
  let b' := sorted_buffers b in
  let r := find_or_put c b s in
  let r' := find_or_put_sorted c (key_view b') L (res_view b') s in
  sorted (kcopies_at b') L
  /\ (forall j, (j < L)%nat -> key_view b' j = kcopies_at b' j)
  /\ map (res_view b') (seq 0 L) ≡ₚ seq 0 L
  /\ (forall j j', (j < j')%nat -> (j' < L)%nat ->
        key_view b' j = key_view b' j' ->
        (res_view b' j < res_view b' j')%nat)
  /\ snd r = Some b'
  /\ b_keys b' = keys
  /\ fst r = fst r'
  /\ snd r' = Some tt
  /\ exists rowsF rsF,
       fops_calls c (key_view b') L (d_st s) = Some (rowsF, rsF)
       /\ d_st (fst r) = rowsF
       /\ (forall i, (i < L)%nat ->
             exists j, (j < L)%nat /\ res_view b' j = i
               /\ (first_in keys i = false ->
                   d_res (fst r) !! i = Some FOUND)
               /\ (first_in keys i = true ->
                   if coop_find c (d_st s) (rd keys i)
                   then d_res (fst r) !! i = Some FOUND
                   else exists res,
                          d_res (fst r) !! i = Some res
                          /\ (res = PUT \/ res = FULL)
                          /\ In (j, res) rsF))
       /\ (forall p, (L <= p)%nat -> d_res (fst r) !! p = d_res s !! p).
Proof.
  intros Hwf Hok Hkeys H1 H2 H3 H4. cbv zeta.
  assert (0 <= key_bits c) as Hw.
  { pose proof (wf_key c Hwf). pose proof (wf_addr c Hwf).
    pose proof (wf_rem c Hwf). unfold key_width in *. lia. }
  split; [|split; [|split; [|split]]].
  - intros j Hj. rewrite <- !view_copies by lia. apply view_sorted. exact Hj.
  - intros j Hj. apply view_copies. exact Hj.
  - apply view_perm.
  - intros j j' Hjj Hj' E. apply view_ordered; assumption.
  - pose proof (view_inj b) as Hinj.
    assert (forall j, (j < length (b_keys b))%nat ->
              (res_view (sorted_buffers b) j < length (d_res s))%nat) as Hin.
    { intros j Hj. pose proof (view_lt b j Hj). lia. }
    destruct (run_calls_put_total c
                (tile_at c (launch_grid (length (b_keys b))))
                (key_view (sorted_buffers b))
                (List.filter
                   (to_put c (key_view (sorted_buffers b))
                      (length (b_keys b)) (d_st s))
                   (seq 0 (length (b_keys b))))
                (d_st s) Hwf Hok) as (rowsF & rsF & Hrun & _ & Hrs).
    { intros j Hj. apply List.filter_In in Hj as [Hj _]. apply in_seq in Hj.
      rewrite Forall_lookup in Hkeys.
      apply (Hkeys (res_view (sorted_buffers b) j)). apply view_key. lia. }
    destruct (find_or_put_sorted_run c (key_view (sorted_buffers b))
                (length (b_keys b)) (res_view (sorted_buffers b)) s
                (wf_bucket_pos c Hwf) (wf_bucket_div c Hwf) ltac:(lia)
                Hinj Hin rowsF rsF Hrun) as (Hr & Hst & _ & Hres & Hfr & _).
    rewrite (find_or_put_sorts c b s Hw H1 H2 H3). unfold bind.
    destruct (find_or_put_sorted c (key_view (sorted_buffers b))
                (length (b_keys b)) (res_view (sorted_buffers b)) s)
      as [s' o].
    cbn [fst snd] in *. subst o. cbn [ret fst snd].
    split; [reflexivity|]. split; [reflexivity|]. split; [reflexivity|].
    split; [reflexivity|].
    exists rowsF, rsF. split; [exact Hrun|]. split; [exact Hst|]. split.
    + intros i Hi. destruct (view_surj b i Hi) as (j & Hj & Hji).
      exists j. split; [exact Hj|]. split; [exact Hji|].
      rewrite <- Hji, (Hres j Hj). unfold fops_result.
      rewrite (view_first b j Hj), (view_rd b j Hj).
      split; [intros ->; reflexivity|]. intros Hfirst. rewrite Hfirst.
      destruct (coop_find c (d_st s) (key_view (sorted_buffers b) j)) eqn:Ec;
        [reflexivity|].
      destruct (result_at_Some rsF j) as [res Hres'].
      { erewrite run_calls_positions by exact Hrun.
        apply List.filter_In. split; [apply in_seq; lia|].
        unfold to_put, pending.
        rewrite Ec, (view_first b j Hj), Hfirst.
        destruct (Nat.ltb_spec j (length (b_keys b))); [reflexivity|lia]. }
      rewrite Hres'. apply result_at_In in Hres'.
      exists res. split; [reflexivity|]. split; [|exact Hres'].
      rewrite Forall_forall in Hrs.
      apply (Hrs (j, res)). apply list_elem_of_In. exact Hres'.
    + intros p Hp. apply Hfr. intros j Hj E.
      pose proof (view_lt b j Hj). lia.
Qed.

Lemma C9_find_or_put_through_stable_sort_witness :
  let keys := b_keys small_buffers in
  let L := length keys in
  let b' := sorted_buffers small_buffers in
  let r := find_or_put small_table small_buffers small_state in
  let r' := find_or_put_sorted small_table (key_view b') L (res_view b')
              small_state in
  sorted (kcopies_at b') L
  /\ (forall j, (j < L)%nat -> key_view b' j = kcopies_at b' j)
  /\ map (res_view b') (seq 0 L) ≡ₚ seq 0 L
  /\ (forall j j', (j < j')%nat -> (j' < L)%nat ->
        key_view b' j = key_view b' j' ->
        (res_view b' j < res_view b' j')%nat)
  /\ snd r = Some b'
  /\ b_keys b' = keys
  /\ fst r = fst r'
  /\ snd r' = Some tt
  /\ exists rowsF rsF,
       fops_calls small_table (key_view b') L (d_st small_state)
       = Some (rowsF, rsF)
       /\ d_st (fst r) = rowsF
       /\ (forall i, (i < L)%nat ->
             exists j, (j < L)%nat /\ res_view b' j = i
               /\ (first_in keys i = false ->
                   d_res (fst r) !! i = Some FOUND)
               /\ (first_in keys i = true ->
                   if coop_find small_table (d_st small_state) (rd keys i)
                   then d_res (fst r) !! i = Some FOUND
                   else exists res,
                          d_res (fst r) !! i = Some res
                          /\ (res = PUT \/ res = FULL)
                          /\ In (j, res) rsF))
       /\ (forall p, (L <= p)%nat ->
             d_res (fst r) !! p = d_res small_state !! p).
Proof.
  apply (C9_find_or_put_through_stable_sort small_table small_buffers
           small_state).
  - exact small_table_wf.
  - apply table_ok_zeros; [cbn; lia|apply Forall_replicate; reflexivity].
  - unfold key_width. repeat constructor; cbn; lia.
  - cbn. lia.
  - cbn. lia.
  - cbn. lia.
  - cbn. lia.
Defined.

(** * Further properties of the code *)

(** ** The compact encoding *)

Lemma addr_row_inj c i k i' k' :
  wf_cuckoo c -> key_width c <= row_width c ->
  st_ok c k i -> st_ok c k' i' ->
  addr_row c i k = addr_row c i' k' -> i = i' /\ k = k'.
Proof.
  intros Hwf Hfit [Hi Hk] [Hi' Hk'] E.
  pose proof (hash_key_addr_row c Hwf i k Hfit Hi Hk) as H.
  pose proof (hash_key_addr_row c Hwf i' k' Hfit Hi' Hk') as H'.
  rewrite E, H' in H. injection H as -> ->. auto.
Qed.

Lemma hash_key_Some_occupied c addr row :
  wf_cuckoo c -> 0 <= row < 2 ^ row_width c ->
  is_Some (hash_key c addr row) -> occupied c row.
Proof.
  intros Hwf Hrow [[h k] E]. unfold hash_key in E.
  destruct (Z.eqb_spec row 0) as [|Hnz]; [discriminate|].
  destruct (Z.ltb_spec
              (wrap (row_width c)
                 (Z.shiftr row (row_width c - state_width c) - 1))
              (n_hash_functions c)) as [Hlt|]; [|discriminate].
  pose proof (state_width_bound c Hwf) as Hsw.
  pose proof (shift_nonneg c Hwf) as Hs.
  pose proof (wf_rem c Hwf) as HR.
  pose proof (wf_hash c Hwf) as HH.
  pose proof (bit_width_nonneg (n_hash_functions c)) as Hsw0.
  fold (state_width c) in Hsw0.
  assert (2 ^ state_width c <= 2 ^ row_width c)
    by (apply Z.pow_le_mono_r; lia).
  assert (0 <= Z.shiftr row (row_width c - state_width c) <= row) as Ht.
  { rewrite Z.shiftr_div_pow2 by lia. split; [apply Z.div_pos; lia|].
    apply Z.div_le_upper_bound; [lia|].
    pose proof (Z.pow_pos_nonneg 2 (row_width c - state_width c)
                  ltac:(lia) ltac:(lia)).
    nia. }
  split; [lia|].
  destruct (Z.eq_dec (Z.shiftr row (row_width c - state_width c)) 0)
    as [E0|Hne].
  - rewrite E0 in Hlt. unfold wrap in Hlt.
    assert ((0 - 1) mod 2 ^ row_width c = 2 ^ row_width c - 1) as Em.
    { symmetry. apply (Z.mod_unique _ _ (-1)); lia. }
    rewrite Em in Hlt. lia.
  - rewrite wrap_small in Hlt by lia. lia.
Qed.

(** X1.  Decoding a row that [addr_row] built restores the hash id and the
    key: for a table whose keys are not wider than a row, every hash id
    below [n_hash_functions] and every key of the universe,
    [hash_key(addr_row(i, k)) = (i, k)], and neither [assert] of [hash_key]
    fails. *)
Theorem X1_hash_key_restores_addr_row (c : Cuckoo) (i k : Z) :
  wf_cuckoo c -> key_width c <= row_width c ->
  0 <= i < n_hash_functions c -> 0 <= k < 2 ^ key_width c ->
  hash_key c (fst (addr_row c i k)) (snd (addr_row c i k)) = Some (i, k).
Proof. intros Hwf Hfit Hi Hk. apply hash_key_addr_row; assumption. Qed.

Lemma X1_hash_key_restores_addr_row_witness :
  hash_key test_table (fst (addr_row test_table 1 365))
    (snd (addr_row test_table 1 365)) = Some (1, 365).
Proof.
  apply (X1_hash_key_restores_addr_row test_table 1 365).
  - exact test_table_wf.
  - unfold key_width. cbn. lia.
  - cbn. lia.
  - unfold key_width. cbn. lia.
Defined.

(** X2.  [addr_row] tells keys and hash functions apart, within the table:
    for a table whose keys are not wider than a row, the address is one of
    the [2^addr_width] buckets, the row is not the empty row 0 and fits the
    row type, and two pairs of a hash id and a key that get the same
    address and the same row are the same pair. *)
Theorem X2_addr_row_injective (c : Cuckoo) (i k i' k' : Z) :
  wf_cuckoo c -> key_width c <= row_width c ->
  0 <= i < n_hash_functions c -> 0 <= k < 2 ^ key_width c ->
  0 <= i' < n_hash_functions c -> 0 <= k' < 2 ^ key_width c ->
  0 <= fst (addr_row c i k) < 2 ^ addr_width c
  /\ 0 < snd (addr_row c i k) < 2 ^ row_width c
  /\ (addr_row c i k = addr_row c i' k' -> i = i' /\ k = k').
Proof.
  intros Hwf Hfit Hi Hk Hi' Hk'.
  split; [apply addr_row_addr_range; assumption|].
  split; [apply row_bounds; assumption|].
  apply addr_row_inj; [assumption..|split; assumption|split; assumption].
Qed.

Lemma X2_addr_row_injective_witness :
  0 <= fst (addr_row test_table 0 42) < 2 ^ addr_width test_table
  /\ 0 < snd (addr_row test_table 0 42) < 2 ^ row_width test_table
  /\ (addr_row test_table 0 42 = addr_row test_table 2 31415 ->
      0 = 2 /\ 42 = 31415).
Proof.
  apply (X2_addr_row_injective test_table 0 42 2 31415).
  - exact test_table_wf.
  - unfold key_width. cbn. lia.
  - cbn. lia.
  - unfold key_width. cbn. lia.
  - cbn. lia.
  - unfold key_width. cbn. lia.
Defined.

(** X3.  For a row type of at least 32 bits ([uint32_t], [uint64_t]: a
    narrower row is promoted to [int], where [hash_id] may be -1 and pass
    the second [assert]), [hash_key] on a value of the row type passes its
    two [assert]s exactly when the row is occupied, that is, nonzero with a
    state between 1 and [n_hash_functions] in its top [state_width] bits;
    the empty row 0 and a row with another state fail.  When it returns,
    for an address of the table, the hash id is below [n_hash_functions]
    and the key is a key of the universe. *)
Theorem X3_hash_key_asserts (c : Cuckoo) (addr row : Z) :
  wf_cuckoo c -> 32 <= row_width c -> 0 <= addr < 2 ^ addr_width c ->
  0 <= row < 2 ^ row_width c ->
  (is_Some (hash_key c addr row) <-> occupied c row)
  /\ hash_key c addr 0 = None
  /\ forall h k, hash_key c addr row = Some (h, k) ->
       0 <= h < n_hash_functions c /\ 0 <= k < 2 ^ key_width c.
Proof.
  intros Hwf _ Ha Hrow. split; [|split].
  - split; [apply hash_key_Some_occupied; assumption|].
    apply hash_key_occupied. exact Hwf.
  - reflexivity.
  - intros h k. apply hash_key_range; assumption.
Qed.

Lemma X3_hash_key_asserts_witness :
  (is_Some (hash_key test_table 5 (3 * 2 ^ 30 + 9))
   <-> occupied test_table (3 * 2 ^ 30 + 9))
  /\ hash_key test_table 5 0 = None
  /\ forall h k, hash_key test_table 5 (3 * 2 ^ 30 + 9) = Some (h, k) ->
       0 <= h < n_hash_functions test_table
       /\ 0 <= k < 2 ^ key_width test_table.
Proof.
  apply (X3_hash_key_asserts test_table 5 (3 * 2 ^ 30 + 9)).
  - exact test_table_wf.
  - cbn. lia.
  - cbn. lia.
  - cbn. lia.
Defined.

(** ** Tables that the code builds *)

Lemma any_eqb_In x l : any (Z.eqb x) l = true <-> In x l.
Proof.
  unfold any. rewrite existsb_exists. split.
  - intros (y & Hy & E). apply Z.eqb_eq in E as <-. exact Hy.
  - intros H. exists x. split; [exact H|apply Z.eqb_refl].
Qed.

Lemma In_bucket c rows addr x :
  In x (bucket c rows addr)
  <-> exists rank, (rank < bucket_size c)%nat
                   /\ rd rows (slot c addr rank) = x.
Proof.
  unfold bucket. rewrite in_map_iff. split.
  - intros (rank & <- & Hr). apply in_seq in Hr. exists rank. split; [lia|auto].
  - intros (rank & Hr & <-). exists rank. split; [reflexivity|].
    apply in_seq. lia.
Qed.

Lemma holds_spec c rows h k :
  holds c rows h k = true
  <-> exists rank, (rank < bucket_size c)%nat
        /\ rd rows (slot c (fst (addr_row c h k)) rank)
           = snd (addr_row c h k).
Proof.
  unfold holds. destruct (addr_row c h k) as [addr row]. cbn [fst snd].
  rewrite any_eqb_In. apply In_bucket.
Qed.

Lemma is_full_spec c rows addr :
  is_full c rows addr = true
  <-> forall rank, (rank < bucket_size c)%nat ->
        rd rows (slot c addr rank) <> 0.
Proof.
  unfold is_full. rewrite negb_true_iff, <- not_true_iff_false, any_eqb_In.
  rewrite In_bucket. split.
  - intros H rank Hr E. apply H. eauto.
  - intros H (rank & Hr & E). exact (H rank Hr E).
Qed.

Lemma rd_insert_any rows i j v :
  rd (<[i := v]> rows) j
  = if decide (i = j /\ (i < length rows)%nat) then v else rd rows j.
Proof.
  destruct (Nat.lt_ge_cases i (length rows)) as [Hlt|Hge].
  - rewrite rd_insert by exact Hlt.
    destruct (decide (i = j)) as [->|Hne];
      destruct (decide _) as [H|H]; try reflexivity; tauto.
  - rewrite list_insert_ge by lia.
    destruct (decide _) as [[_ H]|_]; [lia|reflexivity].
Qed.

Lemma is_full_insert c rows addr i v :
  v <> 0 -> is_full c rows addr = true ->
  is_full c (<[i := v]> rows) addr = true.
Proof.
  intros Hv. rewrite !is_full_spec. intros H rank Hr.
  apply rd_insert_nonzero; auto.
Qed.

Lemma reachable_insert c rows k h i v :
  v <> 0 -> reachable c rows k h -> reachable c (<[i := v]> rows) k h.
Proof. intros Hv H h' Hh'. apply is_full_insert; auto. Qed.

Lemma is_full_popc c rows addr :
  popc (ballot (fun x => negb (x =? 0)) (bucket c rows addr)) = bucket_size c
  -> is_full c rows addr = true.
Proof.
  intros H. apply is_full_spec. intros rank Hr.
  apply (full_bucket_nonzero c rows addr rank H Hr).
Qed.

Lemma built_zeros c (rows : list Z) :
  2 ^ addr_width c * Z.of_nat (bucket_size c) <= Z.of_nat (length rows) ->
  Forall (fun y => y = 0) rows -> built c rows.
Proof.
  intros Hlen Hz. split; [apply table_ok_zeros; assumption|].
  intros idx Hnz. destruct Hnz. unfold rd.
  destruct (rows !! idx) as [x|] eqn:E; [|reflexivity].
  rewrite Forall_lookup in Hz. apply (Hz idx x E).
Qed.

Lemma built_clear c (rows : list Z) :
  wf_cuckoo c -> length rows = n_rows c -> built c (clear c rows).
Proof.
  intros Hwf Hlen. unfold clear.
  rewrite drop_ge by lia. rewrite app_nil_r.
  apply built_zeros.
  - rewrite length_replicate. apply (wf_n_rows c Hwf).
  - apply Forall_replicate. reflexivity.
Qed.

Section Built.
Context (c : Cuckoo) (Hwf : wf_cuckoo c).
Context (Hfit : key_width c <= row_width c).

(** Writing the row of a key into its bucket, when [coop_find] gets as far
    as that bucket, keeps the slots as the code builds them. *)
Lemma slots_insert rows k h rank :
  table_ok c rows -> (forall idx, slot_ok c rows idx) ->
  st_ok c k h -> reachable c rows k h -> (rank < bucket_size c)%nat ->
  forall idx,
    slot_ok c (<[slot c (fst (addr_row c h k)) rank := snd (addr_row c h k)]>
                 rows) idx.
Proof.
  intros Hok Hslots [Hh Hk] Hreach Hrank idx.
  pose proof (addr_row_addr_range c Hwf h k Hh Hk) as Ha.
  pose proof (row_bounds c Hwf h k Hh Hk) as Hrow.
  pose proof (slot_lt c Hwf rows _ rank Hok Ha Hrank) as Hlt.
  unfold slot_ok. rewrite rd_insert by exact Hlt.
  destruct (decide (slot c (fst (addr_row c h k)) rank = idx)) as [<-|Hne].
  - intros _. exists h, k. split; [split; assumption|]. split.
    + rewrite (slot_div c Hwf) by assumption.
      destruct (addr_row c h k); reflexivity.
    + apply reachable_insert; [lia|exact Hreach].
  - intros Hnz. destruct (Hslots idx Hnz) as (h0 & k0 & Hst & E & Hr).
    exists h0, k0. split; [exact Hst|]. split; [exact E|].
    apply reachable_insert; [lia|exact Hr].
Qed.

(** The key that an eviction recovers is the key whose row was in the
    slot, and [coop_find] gets as far as its next bucket. *)
Lemma evicted_reachable rows addr rank h' k' :
  (forall idx, slot_ok c rows idx) ->
  0 <= addr < 2 ^ addr_width c -> (rank < bucket_size c)%nat ->
  is_full c rows addr = true ->
  hash_key c addr (rd rows (slot c addr rank)) = Some (h', k') ->
  addr_row c h' k' = (addr, rd rows (slot c addr rank))
  /\ reachable c rows k' (h' + 1).
Proof.
  intros Hslots Ha Hrank Hfull Ehk.
  pose proof (proj1 (is_full_spec c rows addr) Hfull rank Hrank) as Hnz.
  destruct (Hslots _ Hnz) as (h0 & k0 & [Hh0 Hk0] & E & Hr).
  rewrite (slot_div c Hwf) in E by assumption.
  pose proof (hash_key_addr_row c Hwf h0 k0 Hfit Hh0 Hk0) as Hrt.
  rewrite E in Hrt. cbn [fst snd] in Hrt. rewrite Hrt in Ehk.
  injection Ehk as <- <-. split; [exact E|].
  intros h1 Hh1. destruct (Z.eq_dec h1 h0) as [->|Hne].
  - rewrite E. exact Hfull.
  - apply Hr. lia.
Qed.

Lemma reachable_mod rows k h :
  0 <= h < n_hash_functions c ->
  reachable c rows k (h + 1) ->
  reachable c rows k ((h + 1) mod n_hash_functions c).
Proof.
  intros Hh Hr h' Hh'. apply Hr.
  pose proof (Z.mod_le (h + 1) (n_hash_functions c) ltac:(lia) ltac:(lia)).
  lia.
Qed.

Section Body_built.
Context (avoid : bool) (tile : Tile).

Lemma body_built rows k h ch act rows' nxt :
  built c rows -> st_ok c k h -> reachable c rows k h ->
  coop_put_body c avoid tile rows k h ch = (act, rows', nxt) ->
  built c rows'
  /\ forall k' h' ch', nxt = Loop k' h' ch' -> reachable c rows' k' h'.
Proof.
  intros [Hok Hslots] Hst Hreach E.
  pose proof (body_table_ok c Hwf avoid tile _ _ _ _ _ _ _ Hok Hst E) as Hok'.
  pose proof (body_progress c Hwf avoid tile _ _ _ _ _ _ _ Hok Hst E)
    as [_ Hloop].
  pose proof Hst as [Hh Hk].
  pose proof (addr_row_addr_range c Hwf h k Hh Hk) as Ha.
  pose proof (row_bounds c Hwf h k Hh Hk) as Hrow.
  pose proof (cuckoor_lt c Hwf tile ch) as Hl.
  apply coop_put_body_inv in E.
  destruct E as [(_ & -> & ->)|[(old & _ & Hold & Hlt & -> & ->)
    |[(_ & -> & -> & _)
     |(lane & idx & old & _ & -> & -> & Hold & -> & Hfull & _ & ->)]]].
  - split; [split; assumption|discriminate].
  - destruct (old =? 0) eqn:E0.
    + split; [|discriminate]. split; [exact Hok'|].
      apply slots_insert; assumption.
    + split; [split; assumption|].
      intros k' h' ch' E. destruct (Hloop _ _ _ E) as [Hch _].
      destruct (avoid && _); [discriminate|]. injection E as _ _ Hc. lia.
  - split; [split; assumption|discriminate].
  - split; [split; [exact Hok'|apply slots_insert; assumption]|].
    intros k' h' ch' E.
    destruct (avoid && _); [discriminate|].
    destruct (hash_key c _ old) as [[h0 k0]|] eqn:Ehk; [|discriminate].
    injection E as <- <- _.
    apply is_full_popc in Hfull. rewrite Hold in Ehk.
    destruct (evicted_reachable rows _ _ h0 k0 Hslots Ha Hl Hfull Ehk)
      as [E0 Hr].
    pose proof (hash_key_range c Hwf _ _ _ _ Ha Ehk) as [Hh0 _].
    apply reachable_insert; [lia|]. apply reachable_mod; assumption.
Qed.

Lemma coop_put_loop_built fuel : forall rows k h ch,
  built c rows -> st_ok c k h -> reachable c rows k h ->
  built c (run_rows (coop_put_loop fuel c avoid tile rows k h ch)).
Proof.
  induction fuel as [|fuel IH]; intros rows k h ch Hb Hst Hr; [exact Hb|].
  cbn [coop_put_loop].
  destruct (coop_put_body c avoid tile rows k h ch) as [[act rows'] nxt] eqn:E.
  destruct (body_built _ _ _ _ _ _ _ Hb Hst Hr E) as [Hb' Hnext].
  destruct nxt as [r|k' h' ch'|]; cbn [run_rows]; try exact Hb'.
  apply IH; [exact Hb'| |apply (Hnext k' h' ch'); reflexivity].
  eapply body_next_ok; eassumption.
Qed.
End Body_built.

Lemma reachable_0 rows k : reachable c rows k 0.
Proof. intros h' Hh'. lia. Qed.

Lemma st_ok_0 k : 0 <= k < 2 ^ key_width c -> st_ok c k 0.
Proof. intros Hk. split; [|exact Hk]. pose proof (wf_hash c Hwf). lia. Qed.

Lemma coop_put_built fuel avoid tile rows k :
  built c rows -> 0 <= k < 2 ^ key_width c ->
  built c (run_rows (coop_put fuel c avoid tile rows k)).
Proof.
  intros Hb Hk. apply coop_put_loop_built;
    [exact Hb|apply st_ok_0; exact Hk|apply reachable_0].
Qed.
End Built.

(** ** Lookup *)

Lemma coop_find_from_sound c rows k hids :
  coop_find_from c rows k hids = true ->
  exists h, In h hids /\ holds c rows h k = true.
Proof.
  induction hids as [|h hids IH]; cbn [coop_find_from]; [discriminate|].
  destruct (addr_row c h k) as [addr row] eqn:E.
  destruct (any (Z.eqb row) (bucket c rows addr)) eqn:Ea.
  - intros _. exists h. split; [left; reflexivity|].
    unfold holds. rewrite E. exact Ea.
  - destruct (any (Z.eqb 0) (bucket c rows addr)); [discriminate|].
    intros H. destruct (IH H) as (h' & Hin & Hh). eauto using in_cons.
Qed.

Lemma coop_find_from_complete c rows k h d : forall a n,
  d = Z.to_nat (h - a) -> a <= h < a + n ->
  holds c rows h k = true ->
  (forall h', a <= h' < h -> is_full c rows (fst (addr_row c h' k)) = true) ->
  coop_find_from c rows k (seqZ a n) = true.
Proof.
  induction d as [|d IH]; intros a n Hd Hh Hholds Hfull;
    rewrite seqZ_cons by lia; cbn [coop_find_from].
  - assert (a = h) as -> by lia. unfold holds in Hholds.
    destruct (addr_row c h k) as [addr row]. rewrite Hholds. reflexivity.
  - pose proof (Hfull a ltac:(lia)) as Hfa. unfold is_full in Hfa.
    destruct (addr_row c a k) as [addr row]. cbn [fst] in Hfa.
    destruct (any (Z.eqb row) (bucket c rows addr)); [reflexivity|].
    apply negb_true_iff in Hfa. rewrite Hfa.
    apply IH; [lia|lia|exact Hholds|]. intros h' Hh'. apply Hfull. lia.
Qed.

Lemma coop_find_holds c rows k :
  coop_find c rows k = true ->
  exists h, 0 <= h < n_hash_functions c /\ holds c rows h k = true.
Proof.
  intros H. apply coop_find_from_sound in H as (h & Hin & Hh).
  exists h. split; [|exact Hh].
  apply list_elem_of_In, elem_of_seqZ in Hin. lia.
Qed.

Lemma length_filter_pos {A} (p : A -> bool) l :
  (0 < length (List.filter p l))%nat <-> existsb p l = true.
Proof.
  induction l as [|x l IH]; cbn; [split; [lia|discriminate]|].
  destruct (p x); cbn; [split; [reflexivity|lia]|exact IH].
Qed.

Lemma sum_list_pos l :
  (0 < sum_list l)%nat <-> exists x, In x l /\ (0 < x)%nat.
Proof.
  induction l as [|x l IH]; cbn.
  - split; [lia|intros (x & [] & _)].
  - split.
    + intros H. destruct (Nat.eq_dec x 0%nat) as [->|Hx].
      * destruct (proj1 IH ltac:(lia)) as (y & Hy & Hpos). eauto.
      * exists x. split; [auto|lia].
    + intros (y & [->|Hy] & Hpos); [lia|].
      pose proof (proj2 IH (ex_intro _ y (conj Hy Hpos))). lia.
Qed.

(** [count] is positive exactly when some bucket of the key holds its
    row. *)
Lemma count_pos c rows k :
  (0 < count c rows k)%nat
  <-> exists h, 0 <= h < n_hash_functions c /\ holds c rows h k = true.
Proof.
  unfold count. rewrite sum_list_pos. split.
  - intros (x & Hx & Hpos). apply in_map_iff in Hx as (h & <- & Hin).
    exists h. split; [apply list_elem_of_In, elem_of_seqZ in Hin; lia|].
    unfold holds. destruct (addr_row c h k) as [addr row].
    apply length_filter_pos in Hpos. exact Hpos.
  - intros (h & Hh & Hholds). unfold holds in Hholds.
    eexists. split.
    + apply in_map_iff. exists h. split; [reflexivity|].
      apply list_elem_of_In, elem_of_seqZ. lia.
    + cbv beta. destruct (addr_row c h k) as [addr row].
      apply length_filter_pos. exact Hholds.
Qed.

Section Lookup.
Context (c : Cuckoo) (Hwf : wf_cuckoo c).
Context (Hfit : key_width c <= row_width c).

Lemma coop_find_complete rows k h :
  built c rows -> st_ok c k h -> holds c rows h k = true ->
  coop_find c rows k = true.
Proof.
  intros [Hok Hslots] [Hh Hk] Hholds.
  apply (coop_find_from_complete c rows k h (Z.to_nat (h - 0)) 0);
    [reflexivity|lia|exact Hholds|].
  apply holds_spec in Hholds as (rank & Hrank & Hrd).
  pose proof (row_bounds c Hwf h k Hh Hk) as Hrow.
  destruct (Hslots (slot c (fst (addr_row c h k)) rank) ltac:(lia))
    as (h0 & k0 & Hst0 & E & Hr).
  pose proof (addr_row_addr_range c Hwf h k Hh Hk) as Ha.
  rewrite (slot_div c Hwf) in E by assumption. rewrite Hrd in E.
  assert (addr_row c h0 k0 = addr_row c h k) as E'
    by (rewrite E; destruct (addr_row c h k); reflexivity).
  apply (addr_row_inj c _ _ _ _ Hwf Hfit Hst0 (conj Hh Hk)) in E'
    as [-> ->].
  intros h' Hh'. apply Hr. lia.
Qed.

Lemma stored_elem rows k :
  k ∈ stored c rows
  <-> exists idx row, rows !! idx = Some row /\ decode c idx row = Some k.
Proof.
  unfold stored. rewrite list_elem_of_omap. split.
  - intros (o & Ho & E). apply list_elem_of_lookup in Ho as [idx Hidx].
    rewrite list_lookup_imap in Hidx.
    destruct (rows !! idx) as [row|] eqn:Er; [|discriminate].
    cbn in Hidx. injection Hidx as <-. cbn in E. eauto.
  - intros (idx & row & Er & Ed). exists (Some k). split; [|reflexivity].
    apply list_elem_of_lookup. exists idx.
    rewrite list_lookup_imap, Er. cbn. rewrite Ed. reflexivity.
Qed.

Lemma holds_stored rows k h :
  table_ok c rows -> st_ok c k h -> holds c rows h k = true ->
  k ∈ stored c rows.
Proof.
  intros Hok [Hh Hk] Hholds.
  apply holds_spec in Hholds as (rank & Hrank & Hrd).
  pose proof (addr_row_addr_range c Hwf h k Hh Hk) as Ha.
  pose proof (slot_lt c Hwf rows _ rank Hok Ha Hrank) as Hlt.
  destruct (lookup_lt_is_Some_2 rows _ Hlt) as [row Er].
  unfold rd in Hrd. rewrite Er in Hrd. cbn in Hrd. subst row.
  apply stored_elem. eexists _, _. split; [exact Er|].
  unfold decode. rewrite (slot_div c Hwf) by assumption.
  rewrite (hash_key_addr_row c Hwf) by assumption. reflexivity.
Qed.

Lemma stored_holds rows k :
  built c rows -> k ∈ stored c rows ->
  exists h, st_ok c k h /\ holds c rows h k = true.
Proof.
  intros [Hok Hslots] Hk.
  apply stored_elem in Hk as (idx & row & Er & Ed).
  assert (rd rows idx = row) as Hrd by (unfold rd; rewrite Er; reflexivity).
  assert (row <> 0) as Hnz by (intros ->; discriminate).
  destruct (Hslots idx ltac:(rewrite Hrd; exact Hnz))
    as (h0 & k0 & [Hh0 Hk0] & E & _).
  rewrite Hrd in E.
  pose proof (hash_key_addr_row c Hwf h0 k0 Hfit Hh0 Hk0) as Hrt.
  rewrite E in Hrt. cbn [fst snd] in Hrt.
  unfold decode in Ed. rewrite Hrt in Ed. injection Ed as <-.
  exists h0. split; [split; assumption|].
  apply holds_spec.
  pose proof (addr_row_addr_range c Hwf h0 k0 Hh0 Hk0) as Ha.
  rewrite E in *. cbn [fst snd] in *.
  pose proof (wf_bucket_pos c Hwf) as HB.
  exists (idx mod bucket_size c)%nat.
  split; [apply Nat.mod_upper_bound; lia|].
  rewrite (slot_eq c Hwf) by assumption.
  rewrite Nat2Z.id.
  replace (idx / bucket_size c * bucket_size c + idx mod bucket_size c)%nat
    with idx; [exact Hrd|].
  pose proof (Nat.div_mod idx (bucket_size c) ltac:(lia)). lia.
Qed.

(** On a table that the code built, [coop_find] finds exactly the keys
    that are stored. *)
Lemma coop_find_stored rows k :
  built c rows -> 0 <= k < 2 ^ key_width c ->
  coop_find c rows k = true <-> k ∈ stored c rows.
Proof.
  intros Hb Hk. split.
  - intros H. apply coop_find_holds in H as (h & Hh & Hholds).
    eapply holds_stored; [apply Hb|split; eassumption|exact Hholds].
  - intros H. destruct (stored_holds rows k Hb H) as (h & Hst & Hholds).
    eapply coop_find_complete; eassumption.
Qed.
End Lookup.

(** ** What a put keeps *)

Section Conserves.
Context (c : Cuckoo) (Hwf : wf_cuckoo c).
Context (Hfit : key_width c <= row_width c).
Context (avoid : bool) (tile : Tile).

Lemma decode_empty idx : decode c idx 0 = None.
Proof. reflexivity. Qed.

Lemma stored_insert_empty rows idx row k :
  (idx < length rows)%nat -> rd rows idx = 0 ->
  decode c idx row = Some k ->
  stored c (<[idx := row]> rows) ≡ₚ k :: stored c rows.
Proof.
  intros Hlt Hold Hnew.
  destruct (lookup_lt_is_Some_2 rows idx Hlt) as [old Eold].
  unfold rd in Hold. rewrite Eold in Hold. cbn in Hold. subst old.
  rewrite insert_take_drop by assumption.
  rewrite <- (take_drop_middle rows idx 0 Eold) at 3.
  rewrite !stored_middle.
  rewrite length_take_le by lia. rewrite Hnew, decode_empty.
  cbn [option_list app]. symmetry. apply Permutation_middle.
Qed.

Lemma body_conserves rows k h ch act rows' r :
  table_ok c rows -> st_ok c k h ->
  coop_put_body c avoid tile rows k h ch = (act, rows', Ret r) ->
  match r with
  | PUT => stored c rows' ≡ₚ k :: stored c rows
  | FOUND => rows' = rows /\ k ∈ stored c rows
  | FULL => rows' = rows
  end.
Proof.
  intros Hok Hst. pose proof Hst as [Hh Hk].
  pose proof (addr_row_addr_range c Hwf h k Hh Hk) as Ha.
  pose proof (cuckoor_lt c Hwf tile ch) as Hl.
  assert (forall rank, (rank < bucket_size c)%nat ->
            decode c (slot c (fst (addr_row c h k)) rank)
              (snd (addr_row c h k)) = Some k) as Hdec.
  { intros rank Hr. unfold decode. rewrite (slot_div c Hwf) by assumption.
    rewrite (hash_key_addr_row c Hwf) by assumption. reflexivity. }
  unfold coop_put_body.
  destruct (addr_row c h k) as [addr row] eqn:Ear. cbn [fst snd] in *.
  destruct (avoid && any (Z.eqb row) (bucket c rows addr)) eqn:Eseen.
  { intros [= _ <- <-]. split; [reflexivity|].
    apply andb_true_iff in Eseen as [_ Eseen].
    apply (holds_stored c Hwf Hfit rows k h Hok Hst).
    unfold holds. rewrite Ear. exact Eseen. }
  set (load := popc _).
  destruct (Nat.ltb_spec load (bucket_size c)) as [Hlt|Hge].
  - pose proof (prefix_filled_load _ (ok_prefix c rows Hok addr Ha)) as Hz.
    cbv zeta in Hz. fold load in Hz.
    rewrite length_bucket in Hz. specialize (Hz Hlt).
    rewrite (bucket_lookup c) in Hz by exact Hlt. injection Hz as Hz.
    rewrite Hz. cbn [Z.eqb]. intros [= _ <- <-].
    apply stored_insert_empty; [|exact Hz|apply Hdec; exact Hlt].
    apply (slot_lt c Hwf); assumption.
  - destruct (max_chain_length c <=? ch).
    { intros [= _ <- <-]. reflexivity. }
    destruct (avoid && (rd rows (slot c addr (cuckoor c tile ch)) =? row))
      eqn:Esame.
    + intros [= _ <- <-].
      apply andb_true_iff in Esame as [_ Esame]. apply Z.eqb_eq in Esame.
      pose proof (slot_lt c Hwf rows addr _ Hok Ha Hl) as Hlt.
      split.
      * apply list_insert_id. unfold rd in Esame.
        destruct (rows !! slot c addr (cuckoor c tile ch)) as [x|] eqn:Ex.
        -- cbn in Esame. congruence.
        -- apply lookup_ge_None in Ex. lia.
      * apply (holds_stored c Hwf Hfit rows k h Hok Hst).
        apply holds_spec. rewrite Ear. cbn [fst snd]. eauto.
    + destruct (hash_key c addr _) as [[h0 k0]|]; discriminate.
Qed.

Lemma coop_put_loop_conserves fuel : forall rows k h ch r,
  table_ok c rows -> st_ok c k h ->
  run_out (coop_put_loop fuel c avoid tile rows k h ch) = Returned r ->
  conserves c rows k r
    (run_rows (coop_put_loop fuel c avoid tile rows k h ch)).
Proof.
  induction fuel as [|fuel IH]; intros rows k h ch r Hok Hst;
    [discriminate|].
  cbn [coop_put_loop].
  destruct (coop_put_body c avoid tile rows k h ch) as [[act rows'] nxt] eqn:E.
  destruct nxt as [r'|k' h' ch'|]; cbn [run_rows run_out]; [| |discriminate].
  - intros [= ->]. pose proof (body_conserves _ _ _ _ _ _ _ Hok Hst E) as H.
    destruct r; cbn [conserves].
    + destruct H as [-> H]. exists k. split; [reflexivity|exact H].
    + exact H.
    + subst rows'. exists k. reflexivity.
  - intros Hout.
    pose proof (body_stored c Hwf avoid tile _ _ _ _ _ _ _ _ _ Hfit Hok Hst E)
      as Hstep.
    pose proof (body_table_ok c Hwf avoid tile _ _ _ _ _ _ _ Hok Hst E)
      as Hok'.
    pose proof (body_next_ok c Hwf avoid tile _ _ _ _ _ _ _ _ _ Hst E)
      as Hst'.
    specialize (IH rows' k' h' ch' r Hok' Hst' Hout).
    destruct r; cbn [conserves] in *.
    + destruct IH as (d & Hd & Hin). exists d. split; [|exact Hin].
      rewrite Hd. exact Hstep.
    + rewrite IH. exact Hstep.
    + destruct IH as (d & Hd). exists d. rewrite Hd. exact Hstep.
Qed.

(** A put on a table that the code built returns, and leaves such a
    table with the keys that [conserves] tells. *)
Lemma put_key_conserves rows k :
  built c rows -> 0 <= k < 2 ^ key_width c ->
  exists r rows',
    put_key c avoid tile rows k = Some (r, rows')
    /\ built c rows'
    /\ conserves c rows k r rows'
    /\ (avoid = false -> r <> FOUND).
Proof.
  intros Hb Hk. pose proof (st_ok_0 c Hwf k Hk) as Hst.
  destruct (put_key_ok c avoid tile rows k Hwf (built_ok c rows Hb) Hk)
    as (r & rows' & E & _ & Hr).
  exists r, rows'. split; [exact E|].
  unfold put_key in E. cbv zeta in E.
  destruct (run_out (coop_put (put_fuel c) c avoid tile rows k)) as [r0| |]
    eqn:Eout; try discriminate.
  injection E as -> <-. split; [|split].
  - apply (coop_put_built c Hwf Hfit); assumption.
  - exact (coop_put_loop_conserves (put_fuel c) rows k 0 0 r
             (built_ok c rows Hb) Hst Eout).
  - intros Ha. destruct (Hr Ha) as [->| ->]; discriminate.
Qed.
End Conserves.

(** ** What a put leaves alone *)

Section Frame.
Context (c : Cuckoo) (Hwf : wf_cuckoo c).
Context (avoid : bool) (tile : Tile).

Lemma slot_lt_range addr rank :
  0 <= addr < 2 ^ addr_width c -> (rank < bucket_size c)%nat ->
  Z.of_nat (slot c addr rank) < 2 ^ addr_width c * Z.of_nat (bucket_size c).
Proof.
  intros Ha Hr. rewrite (slot_eq c Hwf) by exact Ha. nia.
Qed.

(** An iteration keeps the length of the array, the rows beyond the
    buckets, and every filled row filled. *)
Lemma body_frame rows k h ch act rows' nxt :
  st_ok c k h ->
  coop_put_body c avoid tile rows k h ch = (act, rows', nxt) ->
  length rows' = length rows
  /\ (forall idx, rd rows idx <> 0 -> rd rows' idx <> 0)
  /\ (forall idx,
        2 ^ addr_width c * Z.of_nat (bucket_size c) <= Z.of_nat idx ->
        rd rows' idx = rd rows idx).
Proof.
  intros [Hh Hk] E.
  pose proof (addr_row_addr_range c Hwf h k Hh Hk) as Ha.
  pose proof (row_bounds c Hwf h k Hh Hk) as Hrow.
  pose proof (cuckoor_lt c Hwf tile ch) as Hl.
  assert (forall rank, (rank < bucket_size c)%nat ->
            let rows1 := <[slot c (fst (addr_row c h k)) rank
                           := snd (addr_row c h k)]> rows in
            length rows1 = length rows
            /\ (forall idx, rd rows idx <> 0 -> rd rows1 idx <> 0)
            /\ (forall idx,
                  2 ^ addr_width c * Z.of_nat (bucket_size c)
                  <= Z.of_nat idx ->
                  rd rows1 idx = rd rows idx)) as Hins.
  { intros rank Hr rows1. split; [apply length_insert|]. split.
    - intros idx. apply rd_insert_nonzero. lia.
    - intros idx Hidx. unfold rows1. rewrite rd_insert_any.
      destruct (decide _) as [[Heq _]|_]; [|reflexivity].
      pose proof (slot_lt_range _ rank Ha Hr). lia. }
  apply coop_put_body_inv in E.
  destruct E as [(_ & -> & _)|[(old & _ & _ & Hlt & -> & _)
    |[(_ & -> & _)|(lane & idx & old & _ & -> & -> & _ & -> & _)]]];
    auto.
  destruct (old =? 0); auto.
Qed.

Lemma coop_put_loop_frame fuel : forall rows k h ch,
  st_ok c k h ->
  let rows' := run_rows (coop_put_loop fuel c avoid tile rows k h ch) in
  length rows' = length rows
  /\ (forall idx, rd rows idx <> 0 -> rd rows' idx <> 0)
  /\ (forall idx,
        2 ^ addr_width c * Z.of_nat (bucket_size c) <= Z.of_nat idx ->
        rd rows' idx = rd rows idx).
Proof.
  induction fuel as [|fuel IH]; intros rows k h ch Hst; [cbn; auto|].
  cbn [coop_put_loop].
  destruct (coop_put_body c avoid tile rows k h ch) as [[act rows1] nxt] eqn:E.
  pose proof (body_frame _ _ _ _ _ _ _ Hst E) as (Hlen & Hnz & Hfr).
  destruct nxt as [r|k' h' ch'|]; cbn [run_rows]; auto.
  pose proof (body_next_ok c Hwf avoid tile _ _ _ _ _ _ _ _ _ Hst E) as Hst'.
  destruct (IH rows1 k' h' ch' Hst') as (Hlen' & Hnz' & Hfr').
  cbv zeta. split; [congruence|]. split.
  - intros idx H. apply Hnz', Hnz, H.
  - intros idx H. rewrite Hfr', Hfr by exact H. reflexivity.
Qed.
End Frame.

Lemma stored_zeros c (rows : list Z) :
  Forall (fun y => y = 0) rows -> stored c rows = [].
Proof.
  intros Hz. destruct (stored c rows) as [|k l] eqn:E; [reflexivity|].
  assert (k ∈ stored c rows) as Hk by (rewrite E; left).
  apply stored_elem in Hk as (idx & row & Er & Ed).
  rewrite Forall_lookup in Hz. rewrite (Hz idx row Er) in Ed. discriminate.
Qed.

Lemma lookup_eq_iff c rows rows' k k2 :
  wf_cuckoo c -> key_width c <= row_width c ->
  built c rows -> built c rows' ->
  0 <= k2 < 2 ^ key_width c ->
  (k2 ∈ stored c rows' <-> k2 = k \/ k2 ∈ stored c rows) ->
  coop_find c rows' k2 = coop_find c rows k2 || (k2 =? k).
Proof.
  intros Hwf Hfit Hb Hb' Hk2 Hiff.
  apply eq_true_iff_eq.
  rewrite orb_true_iff, Z.eqb_eq.
  rewrite !(coop_find_stored c Hwf Hfit) by assumption. tauto.
Qed.

Lemma perm_elem c rows rows' k d k2 :
  d :: stored c rows' ≡ₚ k :: stored c rows ->
  k2 <> d \/ d ∈ stored c rows' ->
  (k2 ∈ stored c rows' <-> k2 = k \/ k2 ∈ stored c rows).
Proof.
  intros Hperm Hd.
  assert (k2 ∈ d :: stored c rows' <-> k2 ∈ k :: stored c rows) as Hiff
    by (rewrite Hperm; reflexivity).
  rewrite !elem_of_cons in Hiff. split.
  - intros H. apply Hiff. right. exact H.
  - intros H. destruct (proj2 Hiff H) as [->|H']; [|exact H'].
    destruct Hd as [Hd|Hd]; [congruence|exact Hd].
Qed.

Lemma conserves_elem c rows rows' k r k2 :
  conserves c rows k r rows' -> r <> FULL ->
  (k2 ∈ stored c rows' <-> k2 = k \/ k2 ∈ stored c rows).
Proof.
  intros Hc Hr. destruct r; cbn [conserves] in Hc; [| |congruence].
  - destruct Hc as (d & Hperm & Hin). apply (perm_elem c _ _ _ d); auto.
  - rewrite Hc, elem_of_cons. reflexivity.
Qed.

Lemma conserves_sub c rows rows' k r k2 :
  conserves c rows k r rows' ->
  k2 ∈ stored c rows' -> k2 = k \/ k2 ∈ stored c rows.
Proof.
  intros Hc Hin.
  assert (forall d, d :: stored c rows' ≡ₚ k :: stored c rows ->
            k2 = k \/ k2 ∈ stored c rows) as Hd.
  { intros d Hperm.
    assert (k2 ∈ k :: stored c rows) as H
      by (rewrite <- Hperm; right; exact Hin).
    apply elem_of_cons in H. exact H. }
  destruct r; cbn [conserves] in Hc.
  - destruct Hc as (d & Hperm & _). eauto.
  - rewrite Hc in Hin. apply elem_of_cons in Hin. exact Hin.
  - destruct Hc as (d & Hperm). eauto.
Qed.

Lemma conserves_NoDup c rows rows' k r :
  conserves c rows k r rows' ->
  NoDup (k :: stored c rows) -> NoDup (stored c rows').
Proof.
  intros Hc Hnd.
  assert (forall d, d :: stored c rows' ≡ₚ k :: stored c rows ->
            NoDup (stored c rows')) as Hd.
  { intros d Hperm. rewrite <- Hperm in Hnd.
    apply NoDup_cons in Hnd as [_ Hnd]. exact Hnd. }
  destruct r; cbn [conserves] in Hc.
  - destruct Hc as (d & Hperm & _). eauto.
  - rewrite Hc. exact Hnd.
  - destruct Hc as (d & Hperm). eauto.
Qed.

(** ** The table: clearing, lookup, put *)

Lemma rd_zeros (rows : list Z) i : Forall (fun y => y = 0) rows -> rd rows i = 0.
Proof.
  intros Hz. unfold rd. destruct (rows !! i) as [x|] eqn:E; [|reflexivity].
  rewrite Forall_lookup in Hz. apply (Hz i x E).
Qed.

Lemma holds_zeros c (rows : list Z) h k :
  wf_cuckoo c -> Forall (fun y => y = 0) rows -> st_ok c k h ->
  holds c rows h k = false.
Proof.
  intros Hwf Hz [Hh Hk]. apply not_true_iff_false. intros H.
  apply holds_spec in H as (rank & _ & E). rewrite rd_zeros in E by exact Hz.
  pose proof (row_bounds c Hwf h k Hh Hk). lia.
Qed.

Lemma zeros_no_key c (rows : list Z) k :
  wf_cuckoo c -> Forall (fun y => y = 0) rows ->
  0 <= k < 2 ^ key_width c ->
  count c rows k = 0%nat /\ coop_find c rows k = false.
Proof.
  intros Hwf Hz Hk.
  assert (forall h, 0 <= h < n_hash_functions c ->
            holds c rows h k = false) as Hno
    by (intros h Hh; apply holds_zeros; [assumption..|split; assumption]).
  split.
  - destruct (count c rows k) as [|n] eqn:En; [reflexivity|].
    destruct (proj1 (count_pos c rows k) ltac:(lia)) as (h & Hh & Hholds).
    rewrite (Hno h Hh) in Hholds. discriminate.
  - apply not_true_iff_false. intros H.
    apply coop_find_holds in H as (h & Hh & Hholds).
    rewrite (Hno h Hh) in Hholds. discriminate.
Qed.

Lemma tiny_rows_built : built tiny_table tiny_rows.
Proof.
  assert (key_width tiny_table <= row_width tiny_table) as Hfit
    by (unfold key_width; cbn; lia).
  unfold tiny_rows.
  apply (coop_put_built tiny_table tiny_table_wf Hfit);
    [|unfold key_width; cbn; lia].
  apply (coop_put_built tiny_table tiny_table_wf Hfit);
    [|unfold key_width; cbn; lia].
  apply built_zeros; [cbn; lia|apply Forall_replicate; reflexivity].
Qed.

(** X4.  [clear] empties the table: after it, on an array of [n_rows] rows
    with any content, no key is stored, [count] is 0 and [coop_find] is
    false for every key of the universe, the array has the length it had,
    and the table is one that [coop_put] and [coop_find] work on. *)
Theorem X4_clear_empties (c : Cuckoo) (rows : list Z) :
  wf_cuckoo c -> length rows = n_rows c ->
  built c (clear c rows)
  /\ stored c (clear c rows) = []
  /\ length (clear c rows) = length rows
  /\ forall k, 0 <= k < 2 ^ key_width c ->
       count c (clear c rows) k = 0%nat
       /\ coop_find c (clear c rows) k = false.
Proof.
  intros Hwf Hlen.
  assert (clear c rows = replicate (n_rows c) 0) as E
    by (unfold clear; rewrite drop_ge by lia; apply app_nil_r).
  assert (Forall (fun y => y = 0) (clear c rows)) as Hz
    by (rewrite E; apply Forall_replicate; reflexivity).
  split; [apply built_clear; assumption|].
  split; [apply stored_zeros; exact Hz|].
  split; [rewrite E, length_replicate; lia|].
  intros k Hk. apply zeros_no_key; assumption.
Qed.

Lemma X4_clear_empties_witness :
  built tiny_table (clear tiny_table tiny_rows)
  /\ stored tiny_table (clear tiny_table tiny_rows) = []
  /\ length (clear tiny_table tiny_rows) = length tiny_rows
  /\ forall k, 0 <= k < 2 ^ key_width tiny_table ->
       count tiny_table (clear tiny_table tiny_rows) k = 0%nat
       /\ coop_find tiny_table (clear tiny_table tiny_rows) k = false.
Proof.
  apply (X4_clear_empties tiny_table tiny_rows).
  - exact tiny_table_wf.
  - reflexivity.
Defined.

(** X5.  On a table that [clear] and [coop_put] built, with keys not wider
    than a row, [coop_find] is exact: it returns true for a key of the
    universe if and only if [count] of the key is positive, and if and only
    if some slot stores the key.  It has no false negative although it
    stops at the first bucket that has an empty row. *)
Theorem X5_coop_find_exact (c : Cuckoo) (rows : list Z) (k : Z) :
  wf_cuckoo c -> key_width c <= row_width c -> built c rows ->
  0 <= k < 2 ^ key_width c ->
  (coop_find c rows k = true <-> (0 < count c rows k)%nat)
  /\ (coop_find c rows k = true <-> k ∈ stored c rows).
Proof.
  intros Hwf Hfit Hb Hk. split; [|apply coop_find_stored; assumption].
  split; [apply coop_find_count|].
  intros H. apply count_pos in H as (h & Hh & Hholds).
  apply (coop_find_complete c Hwf Hfit rows k h Hb); [split|]; assumption.
Qed.

Lemma X5_coop_find_exact_witness :
  (coop_find tiny_table tiny_rows 2 = true
   <-> (0 < count tiny_table tiny_rows 2)%nat)
  /\ (coop_find tiny_table tiny_rows 2 = true
      <-> 2 ∈ stored tiny_table tiny_rows).
Proof.
  apply (X5_coop_find_exact tiny_table tiny_rows 2).
  - exact tiny_table_wf.
  - unfold key_width. cbn. lia.
  - exact tiny_rows_built.
  - unfold key_width. cbn. lia.
Defined.

(** X6.  [coop_put], with or without [avoid_dups] and whatever it returns,
    leaves a table that the code built: it keeps the length of the array,
    never empties a filled row (what [coop_find] relies on), and writes no
    row beyond the [2^addr_width] buckets. *)
Theorem X6_coop_put_keeps_built (c : Cuckoo) (avoid : bool) (tile : Tile)
    (fuel : nat) (rows : list Z) (k : Z) :
  wf_cuckoo c -> key_width c <= row_width c -> built c rows ->
  0 <= k < 2 ^ key_width c ->
  let rows' := run_rows (coop_put fuel c avoid tile rows k) in
  built c rows'
  /\ length rows' = length rows
  /\ (forall idx, rd rows idx <> 0 -> rd rows' idx <> 0)
  /\ (forall idx,
        2 ^ addr_width c * Z.of_nat (bucket_size c) <= Z.of_nat idx ->
        rd rows' idx = rd rows idx).
Proof.
  intros Hwf Hfit Hb Hk rows'.
  split; [apply coop_put_built; assumption|].
  apply (coop_put_loop_frame c Hwf avoid tile fuel rows k 0 0).
  apply st_ok_0; assumption.
Qed.

Lemma X6_coop_put_keeps_built_witness :
  let rows' := run_rows (coop_put 21 tiny_table false tile0 tiny_rows 3) in
  built tiny_table rows'
  /\ length rows' = length tiny_rows
  /\ (forall idx, rd tiny_rows idx <> 0 -> rd rows' idx <> 0)
  /\ (forall idx,
        2 ^ addr_width tiny_table * Z.of_nat (bucket_size tiny_table)
        <= Z.of_nat idx ->
        rd rows' idx = rd tiny_rows idx).
Proof.
  apply (X6_coop_put_keeps_built tiny_table false tile0 21 tiny_rows 3).
  - exact tiny_table_wf.
  - unfold key_width. cbn. lia.
  - exact tiny_rows_built.
  - unfold key_width. cbn. lia.
Defined.

(** X7.  When [coop_put] returns [PUT] for the key [k], on a table that the
    code built, the keys stored afterwards are the keys stored before and
    one more copy of [k]: evictions move keys, none is lost and none is
    added.  Without [avoid_dups] this holds also when [k] was stored
    already, which then is stored twice. *)
Theorem X7_coop_put_adds_one_copy (c : Cuckoo) (avoid : bool) (tile : Tile)
    (fuel : nat) (rows : list Z) (k : Z) :
  wf_cuckoo c -> key_width c <= row_width c -> built c rows ->
  0 <= k < 2 ^ key_width c ->
  let r := coop_put fuel c avoid tile rows k in
  run_out r = Returned PUT ->
  stored c (run_rows r) ≡ₚ k :: stored c rows.
Proof.
  intros Hwf Hfit Hb Hk r Hout.
  exact (coop_put_loop_conserves c Hwf Hfit avoid tile fuel rows k 0 0 PUT
           (built_ok c rows Hb) (st_ok_0 c Hwf k Hk) Hout).
Qed.

Lemma X7_coop_put_adds_one_copy_witness :
  stored small_table
    (run_rows (coop_put 61 small_table false tile0
                 (d_st found_state) 1))
  ≡ₚ 1 :: stored small_table (d_st found_state).
Proof.
  assert (key_width small_table <= row_width small_table) as Hfit
    by (unfold key_width; cbn; lia).
  apply (X7_coop_put_adds_one_copy small_table false tile0 61
           (d_st found_state) 1).
  - exact small_table_wf.
  - exact Hfit.
  - apply (coop_put_built small_table small_table_wf Hfit);
      [|unfold key_width; cbn; lia].
    apply built_zeros; [cbn; lia|apply Forall_replicate; reflexivity].
  - unfold key_width. cbn. lia.
  - reflexivity.
Defined.

(** X8.  Lookup after a put, on a table that the code built.  When
    [coop_put] returns [PUT] or [FOUND] for [k], [coop_find] afterwards
    finds [k], finds every key that it found before, and finds no other
    key.  When it returns [FULL] the same holds for every key except one
    key [d], the key that the put gave up on. *)
Theorem X8_coop_find_after_put (c : Cuckoo) (avoid : bool) (tile : Tile)
    (fuel : nat) (rows : list Z) (k : Z) (res : Result) :
  wf_cuckoo c -> key_width c <= row_width c -> built c rows ->
  0 <= k < 2 ^ key_width c ->
  let r := coop_put fuel c avoid tile rows k in
  run_out r = Returned res ->
  (res <> FULL ->
   forall k2, 0 <= k2 < 2 ^ key_width c ->
     coop_find c (run_rows r) k2 = coop_find c rows k2 || (k2 =? k))
  /\ (res = FULL ->
      exists d, forall k2, 0 <= k2 < 2 ^ key_width c -> k2 <> d ->
        coop_find c (run_rows r) k2 = coop_find c rows k2 || (k2 =? k)).
Proof.
  intros Hwf Hfit Hb Hk r Hout.
  pose proof (coop_put_built c Hwf Hfit fuel avoid tile rows k Hb Hk) as Hb'.
  pose proof (coop_put_loop_conserves c Hwf Hfit avoid tile fuel rows k 0 0
                res (built_ok c rows Hb) (st_ok_0 c Hwf k Hk) Hout) as Hc.
  fold (coop_put fuel c avoid tile rows k) in Hc. fold r in Hc, Hb'.
  split.
  - intros Hres k2 Hk2.
    apply (lookup_eq_iff c rows (run_rows r) k k2); auto.
    apply (conserves_elem c rows (run_rows r) k res k2 Hc Hres).
  - intros ->. cbn [conserves] in Hc. destruct Hc as (d & Hperm).
    exists d. intros k2 Hk2 Hne.
    apply (lookup_eq_iff c rows (run_rows r) k k2); auto.
    apply (perm_elem c _ _ _ d); auto.
Qed.

Lemma X8_coop_find_after_put_witness :
  let r := coop_put 21 tiny_table false tile0 tiny_rows 3 in
  (FULL <> FULL ->
   forall k2, 0 <= k2 < 2 ^ key_width tiny_table ->
     coop_find tiny_table (run_rows r) k2
     = coop_find tiny_table tiny_rows k2 || (k2 =? 3))
  /\ (FULL = FULL ->
      exists d, forall k2, 0 <= k2 < 2 ^ key_width tiny_table -> k2 <> d ->
        coop_find tiny_table (run_rows r) k2
        = coop_find tiny_table tiny_rows k2 || (k2 =? 3)).
Proof.
  apply (X8_coop_find_after_put tiny_table false tile0 21 tiny_rows 3 FULL).
  - exact tiny_table_wf.
  - unfold key_width. cbn. lia.
  - exact tiny_rows_built.
  - unfold key_width. cbn. lia.
  - reflexivity.
Defined.

(** ** The unsorted dispatcher and the host functions *)

Lemma filter_lt_seq len n :
  (len <= n)%nat ->
  List.filter (fun i => (i <? len)%nat) (seq 0 n) = seq 0 len.
Proof.
  intros Hn. replace n with (len + (n - len))%nat by lia.
  rewrite seq_app, List.filter_app.
  rewrite (filter_nil_all _ (seq (0 + len) (n - len))).
  - rewrite app_nil_r. rewrite <- (List.filter_ext_in (fun _ => true)).
    + induction (seq 0 len) as [|x l IH]; cbn; [reflexivity|].
      f_equal. exact IH.
    + intros i Hi. apply in_seq in Hi.
      destruct (Nat.ltb_spec i len); [reflexivity|lia].
  - intros i Hi. apply in_seq in Hi.
    destruct (Nat.ltb_spec i len); [lia|reflexivity].
Qed.

Section Coop_launch.
Context {St Rs : Type} (c : Cuckoo) (F : @per_key St Rs) (g : Grid)
        (start : nat -> Z) (len : nat) (results_at : nat -> nat).
Context (Hcov : covers c g len).

Lemma coop_lanes_pending T :
  List.filter ln_act
    (map (fun th => lane_of th (th_in_range th))
       (tile_threads c (fun _ i => coop_thread start len i) T
          (T * bucket_size c)))
  = map (leader_at start)
      (List.filter (fun i => (i <? len)%nat)
         (map (fun rank => (T * bucket_size c + rank)%nat)
            (seq 0 (bucket_size c)))).
Proof.
  unfold tile_threads. rewrite map_map.
  rewrite (filter_map_comm (fun i => (i <? len)%nat)), (map_map _ (leader_at start)).
  apply filter_act_map.
  - intros rank. reflexivity.
  - intros rank E. unfold lane_of, coop_thread, leader_at.
    cbn [th_i th_k th_in_range]. rewrite E. reflexivity.
Qed.

(** In a launch that covers the range [coop] visits every position of
    the range, in the order of the positions. *)
Lemma coop_visits (s : dstate St Rs) :
  coop c F g start len results_at s
  = for_each (fun i => visit F (tile_at c g i) results_at (leader_at start i))
      (seq 0 len) s.
Proof.
  pose proof Hcov as (HB & _ & _).
  destruct (max_index_spec c g len Hcov) as ([Hlen _] & Hmul & _).
  unfold coop. rewrite (kernel_launch c g len Hcov).
  rewrite <- (filter_lt_seq len (max_index c len) Hlen).
  rewrite Hmul at 2. rewrite <- (tile_positions c).
  rewrite filter_flat_map, <- for_each_flat_map.
  apply for_each_ext. intros T s' _.
  rewrite leader_loop_visits
    by (etransitivity; [apply List.filter_length_le|];
        rewrite length_map, length_tile_threads; reflexivity).
  rewrite coop_lanes_pending, for_each_fmap.
  apply for_each_ext. intros i s'' Hi.
  apply List.filter_In in Hi as [Hi _]. apply in_map_iff in Hi as (r & <- & Hr).
  apply in_seq in Hr. rewrite (tile_at_eq c g) by lia. reflexivity.
Qed.

Context (Hinj : forall i j,
           (i < len)%nat -> (j < len)%nat -> results_at i = results_at j ->
           i = j).

(** What [coop] leaves when the calls of the per-key function return. *)
Lemma coop_run (s : dstate St Rs) st' rs :
  (forall i, (i < len)%nat -> (results_at i < length (d_res s))%nat) ->
  run_calls F (tile_at c g) start (seq 0 len) (d_st s) = Some (st', rs) ->
  let r := coop c F g start len results_at s in
  snd r = Some tt
  /\ d_st (fst r) = st'
  /\ map fst rs = seq 0 len
  /\ (forall i, (i < len)%nat ->
        d_res (fst r) !! results_at i = result_at rs i)
  /\ length (d_res (fst r)) = length (d_res s)
  /\ (forall p, (forall i, (i < len)%nat -> results_at i <> p) ->
        d_res (fst r) !! p = d_res s !! p)
  /\ omap called (d_trace (fst r))
     = omap called (d_trace s) ++ map (fun i => (i, start i)) (seq 0 len).
Proof.
  intros Hin Hrun. cbv zeta. rewrite coop_visits.
  pose proof (for_each_visit F (tile_at c g) start results_at (seq 0 len) s)
    as H.
  rewrite Hrun in H. destruct H as [-> Hps]. cbn [fst snd d_st d_res d_trace].
  assert (Forall (fun j => (j < len)%nat) (seq 0 len)) as Hlt.
  { apply Forall_forall. intros j Hj. apply elem_of_seq in Hj. lia. }
  split; [reflexivity|]. split; [reflexivity|]. split; [exact Hps|].
  split; [|split; [apply length_store_all|split]].
  - intros i Hi.
    rewrite (store_all_lookup results_at len Hinj); [| | |exact Hi].
    + destruct (result_at_Some rs i) as [x Hx]; [|rewrite Hx; reflexivity].
      rewrite Hps. apply in_seq. lia.
    + rewrite Hps. apply NoDup_seq.
    + rewrite Hps. eapply Forall_impl; [exact Hlt|]. cbn. auto.
  - intros p Hp. apply (store_all_frame results_at len); [|exact Hp].
    rewrite Hps. exact Hlt.
  - rewrite omap_app, called_visits. reflexivity.
Qed.

End Coop_launch.

Lemma run_calls_find_bool c tl start ps rows :
  run_calls (find_bool c) tl start ps rows
  = Some (rows, map (fun i => (i, coop_find c rows (start i))) ps).
Proof.
  induction ps as [|i ps IH]; cbn [run_calls map]; [reflexivity|].
  unfold find_bool at 1. rewrite IH. reflexivity.
Qed.

Section Put_calls.
Context (c : Cuckoo) (Hwf : wf_cuckoo c).
Context (Hfit : key_width c <= row_width c).
Context (avoid : bool) (tl : nat -> Tile) (start : nat -> Z).

(** The calls of [coop_put] for the positions [ps], on a table that the
    code built: they return, and when none returns [FULL] the keys stored
    afterwards are the keys of [ps] and those stored before. *)
Lemma run_calls_put_conserves ps : forall rows,
  built c rows ->
  (forall i, In i ps -> 0 <= start i < 2 ^ key_width c) ->
  exists rows' rs,
    run_calls (put_key c avoid) tl start ps rows = Some (rows', rs)
    /\ built c rows'
    /\ (avoid = false -> Forall (fun ir => snd ir <> FOUND) rs)
    /\ (forall k, k ∈ stored c rows' ->
          In k (map start ps) \/ k ∈ stored c rows)
    /\ (Forall (fun ir => snd ir <> FULL) rs ->
        (forall k, k ∈ stored c rows'
                   <-> In k (map start ps) \/ k ∈ stored c rows)
        /\ (avoid = false ->
            stored c rows' ≡ₚ map start ps ++ stored c rows)).
Proof.
  induction ps as [|i ps IH]; intros rows Hb Hk; cbn [run_calls map].
  - exists rows, []. split; [reflexivity|]. split; [exact Hb|].
    split; [constructor|]. split; [auto|]. intros _. split; [|reflexivity].
    intros k. cbn. tauto.
  - destruct (put_key_conserves c Hwf Hfit avoid (tl i) rows (start i) Hb
                ltac:(apply Hk; left; reflexivity))
      as (r & rows1 & -> & Hb1 & Hc & Hr).
    destruct (IH rows1 Hb1 ltac:(intros j Hj; apply Hk; right; exact Hj))
      as (rows' & rs & -> & Hb' & Hnf & Hsub & Hall).
    exists rows', ((i, r) :: rs). split; [reflexivity|].
    split; [exact Hb'|]. split; [|split].
    + intros Ha. constructor; [apply Hr; exact Ha|apply Hnf; exact Ha].
    + intros k Hin. destruct (Hsub k Hin) as [H|H]; [cbn; tauto|].
      destruct (conserves_sub c rows rows1 (start i) r k Hc H) as [->|Hk'];
        cbn; tauto.
    + intros Hfull. apply Forall_cons in Hfull as [Hri Hfull].
      cbn [snd] in Hri. destruct (Hall Hfull) as [Hiff Hperm].
      pose proof (conserves_elem c rows rows1 (start i) r) as He.
      split.
      * intros k. rewrite Hiff, (He k Hc Hri). cbn. split.
        -- intros [H|[->|H]]; auto.
        -- intros [[<-|H]|H]; auto.
      * intros Ha. rewrite (Hperm Ha).
        destruct r; [destruct (Hr Ha eq_refl)| |congruence].
        cbn [conserves] in Hc. rewrite Hc. cbn [app].
        symmetry. apply Permutation_middle.
Qed.

(** Puts of distinct keys that are not stored, into a table that stores
    no key twice, leave such a table. *)
Lemma run_calls_put_NoDup ps : forall rows rows' rs,
  built c rows -> NoDup (stored c rows) ->
  (forall i, In i ps -> 0 <= start i < 2 ^ key_width c) ->
  NoDup (map start ps) ->
  (forall i, In i ps -> start i ∉ stored c rows) ->
  run_calls (put_key c false) tl start ps rows = Some (rows', rs) ->
  NoDup (stored c rows').
Proof.
  induction ps as [|i ps IH]; intros rows rows' rs Hb Hnd Hk Hkeys Hnew;
    cbn [run_calls map].
  - intros [= <- <-]. exact Hnd.
  - destruct (put_key_conserves c Hwf Hfit false (tl i) rows (start i) Hb
                ltac:(apply Hk; left; reflexivity))
      as (r & rows1 & E & Hb1 & Hc & Hr).
    rewrite E.
    destruct (run_calls (put_key c false) tl start ps rows1)
      as [[rows2 rs2]|] eqn:E2; [|discriminate].
    intros [= <- <-].
    cbn [map] in Hkeys. apply NoDup_cons in Hkeys as [Hi Hkeys].
    assert (NoDup (start i :: stored c rows)) as Hnd1.
    { apply NoDup_cons. split; [|exact Hnd]. apply Hnew. left. reflexivity. }
    pose proof (conserves_NoDup c rows rows1 (start i) r Hc Hnd1) as Hnd'.
    pose proof (fun k => conserves_sub c rows rows1 (start i) r k Hc)
      as Hsub.
    apply (IH rows1 rows2 rs2 Hb1 Hnd'); [| | |exact E2].
    + intros j Hj. apply Hk. right. exact Hj.
    + exact Hkeys.
    + intros j Hj Hin. apply Hsub in Hin. destruct Hin as [Heq|Hin].
      * apply Hi. rewrite <- Heq. apply list_elem_of_In, in_map. exact Hj.
      * apply (Hnew j); [right; exact Hj|exact Hin].
Qed.
End Put_calls.

Lemma result_at_NoDup {Rs} (rs : list (nat * Rs)) i r :
  NoDup (map fst rs) -> In (i, r) rs -> result_at rs i = Some r.
Proof.
  induction rs as [|[j x] rs IH]; cbn [map fst result_at]; [intros _ []|].
  intros Hnd [[= -> ->]|Hin]; [rewrite Nat.eqb_refl; reflexivity|].
  apply NoDup_cons in Hnd as [Hj Hnd].
  destruct (Nat.eqb_spec j i) as [->|_]; [|auto].
  destruct Hj. apply list_elem_of_In, in_map_iff. exists (i, r). auto.
Qed.

Lemma existsb_eqb_In k l : existsb (Z.eqb k) l = true <-> In k l.
Proof. apply any_eqb_In. Qed.

Lemma lookup_eq_set c rows rows' (l : list Z) k :
  wf_cuckoo c -> key_width c <= row_width c ->
  built c rows -> built c rows' ->
  0 <= k < 2 ^ key_width c ->
  (k ∈ stored c rows' <-> In k l \/ k ∈ stored c rows) ->
  coop_find c rows' k = coop_find c rows k || existsb (Z.eqb k) l.
Proof.
  intros Hwf Hfit Hb Hb' Hk Hiff.
  apply eq_true_iff_eq.
  rewrite orb_true_iff, existsb_eqb_In.
  rewrite !(coop_find_stored c Hwf Hfit) by assumption. tauto.
Qed.

Section Put_launch.
Context (c : Cuckoo) (Hwf : wf_cuckoo c).
Context (Hfit : key_width c <= row_width c).
Context (avoid : bool) (start : nat -> Z) (len : nat)
        (results_at : nat -> nat) (s : dstate (list Z) Result).
Context (Hb : built c (d_st s)).
Context (Hshort : Z.of_nat len <= 2 ^ 31).
Context (Hkeys : forall i, (i < len)%nat -> 0 <= start i < 2 ^ key_width c).
Context (Hinj : forall i j,
           (i < len)%nat -> (j < len)%nat -> results_at i = results_at j ->
           i = j).
Context (Hin : forall i,
           (i < len)%nat -> (results_at i < length (d_res s))%nat).

(** A launch of [coop] with [coop_put], as [put] and [put_avoid_dups]
    make it, on a table that the code built. *)
Lemma put_launch :
  let r := coop c (put_key c avoid) (launch_grid len) start len results_at s in
  snd r = Some tt
  /\ built c (d_st (fst r))
  /\ (forall i, (i < len)%nat ->
        exists res, d_res (fst r) !! results_at i = Some res
                    /\ (avoid = false -> res <> FOUND))
  /\ length (d_res (fst r)) = length (d_res s)
  /\ (forall p, (forall i, (i < len)%nat -> results_at i <> p) ->
        d_res (fst r) !! p = d_res s !! p)
  /\ (forall k, k ∈ stored c (d_st (fst r)) ->
        In k (map start (seq 0 len)) \/ k ∈ stored c (d_st s))
  /\ ((forall i, (i < len)%nat ->
         d_res (fst r) !! results_at i <> Some FULL) ->
      (forall k, k ∈ stored c (d_st (fst r))
                 <-> In k (map start (seq 0 len)) \/ k ∈ stored c (d_st s))
      /\ (avoid = false ->
          stored c (d_st (fst r))
          ≡ₚ map start (seq 0 len) ++ stored c (d_st s))).
Proof.
  pose proof (covers_launch_grid c len (wf_bucket_pos c Hwf)
                (wf_bucket_div c Hwf) Hshort) as Hcov.
  destruct (run_calls_put_conserves c Hwf Hfit avoid
              (tile_at c (launch_grid len)) start (seq 0 len) (d_st s) Hb)
    as (rows' & rs & Hrun & Hb' & Hnf & Hsub & Hall).
  { intros i Hi. apply in_seq in Hi. apply Hkeys. lia. }
  destruct (coop_run c (put_key c avoid) (launch_grid len) start len
              results_at Hcov Hinj s rows' rs Hin Hrun)
    as (Hr & Hst & Hps & Hres & Hlen & Hfr & _).
  cbv zeta. split; [exact Hr|]. rewrite Hst.
  split; [exact Hb'|]. split; [|split; [exact Hlen|split; [exact Hfr|]]].
  - intros i Hi. rewrite (Hres i Hi).
    destruct (result_at_Some rs i) as [res Hx];
      [rewrite Hps; apply in_seq; lia|].
    exists res. split; [exact Hx|]. intros Ha.
    apply result_at_In in Hx. specialize (Hnf Ha).
    rewrite Forall_forall in Hnf.
    apply (Hnf (i, res)), list_elem_of_In, Hx.
  - split; [exact Hsub|]. intros Hfull. apply Hall.
    apply Forall_forall. intros [i res] Hir. cbn [snd]. intros ->.
    apply list_elem_of_In in Hir.
    assert (In i (seq 0 len)) as Hi
      by (rewrite <- Hps; apply in_map_iff; exists (i, FULL); auto).
    apply in_seq in Hi. apply (Hfull i ltac:(lia)).
    rewrite (Hres i ltac:(lia)). apply result_at_NoDup; [|exact Hir].
    rewrite Hps. apply NoDup_seq.
Qed.
End Put_launch.

Section Fops_built.
Context (c : Cuckoo) (Hwf : wf_cuckoo c).
Context (Hfit : key_width c <= row_width c).
Context (start : nat -> Z) (len : nat).
Context (rows : list Z) (Hb : built c rows).
Context (Hkeys : forall i, (i < len)%nat -> 0 <= start i < 2 ^ key_width c).

Lemma to_put_spec i :
  to_put c start len rows i = true
  <-> (i < len)%nat /\ first_at start i = true
      /\ coop_find c rows (start i) = false.
Proof.
  unfold to_put, pending.
  rewrite !andb_true_iff, negb_true_iff, Nat.ltb_lt. tauto.
Qed.

(** Every key of the range is found before, or is put. *)
Lemma fops_covers i :
  (i < len)%nat ->
  start i ∈ stored c rows
  \/ In (start i)
       (map start (List.filter (to_put c start len rows) (seq 0 len))).
Proof.
  intros Hi. pose proof (firsts_cover start len i Hi) as Hc.
  apply in_map_iff in Hc as (j & Hj & Hin).
  apply List.filter_In in Hin as [Hin Hf]. apply in_seq in Hin.
  rewrite <- Hj.
  destruct (coop_find c rows (start j)) eqn:E.
  - left. apply (coop_find_stored c Hwf Hfit rows (start j) Hb);
      [apply Hkeys; lia|exact E].
  - right. apply in_map, List.filter_In. split; [apply in_seq; lia|].
    apply to_put_spec. split; [lia|]. split; assumption.
Qed.

Lemma fops_calls_built :
  exists rows' rs,
    fops_calls c start len rows = Some (rows', rs)
    /\ built c rows'
    /\ (sorted start len -> NoDup (stored c rows) ->
        NoDup (stored c rows'))
    /\ (Forall (fun ir => snd ir <> FULL) rs ->
        forall k, k ∈ stored c rows'
                  <-> In k (map start (seq 0 len)) \/ k ∈ stored c rows).
Proof.
  unfold fops_calls.
  set (ps := List.filter (to_put c start len rows) (seq 0 len)).
  assert (forall i, In i ps -> (i < len)%nat
                               /\ first_at start i = true
                               /\ coop_find c rows (start i) = false) as Hps.
  { intros i Hi. apply List.filter_In in Hi as [_ Hi].
    apply to_put_spec. exact Hi. }
  destruct (run_calls_put_conserves c Hwf Hfit false
              (tile_at c (launch_grid len)) start ps rows Hb)
    as (rows' & rs & Hrun & Hb' & _ & _ & Hall).
  { intros i Hi. apply Hkeys. apply Hps. exact Hi. }
  exists rows', rs. split; [exact Hrun|]. split; [exact Hb'|]. split.
  - intros Hs Hnd.
    apply (run_calls_put_NoDup c Hwf Hfit (tile_at c (launch_grid len))
             start ps rows rows' rs Hb Hnd); [| | |exact Hrun].
    + intros i Hi. apply Hkeys. apply Hps. exact Hi.
    + unfold ps.
      rewrite (List.filter_ext _
                 (fun i => first_at start i
                           && ((i <? len)%nat
                               && negb (coop_find c rows (start i))))).
      * apply NoDup_ListNoDup, (firsts_NoDup start _ len Hs).
      * intros i. unfold to_put, pending.
        destruct (i <? len)%nat, (first_at start i); reflexivity.
    + intros i Hi Hin. destruct (Hps i Hi) as (Hlt & _ & Hnf).
      apply (coop_find_stored c Hwf Hfit rows (start i) Hb) in Hin;
        [congruence|apply Hkeys; exact Hlt].
  - intros Hfull k. destruct (Hall Hfull) as [Hiff _]. rewrite Hiff. split.
    + intros [H|H]; [left|right; exact H].
      apply in_map_iff in H as (i & <- & Hi). apply in_map, in_seq.
      destruct (Hps i Hi). lia.
    + intros [H|H]; [|right; exact H].
      apply in_map_iff in H as (i & <- & Hi). apply in_seq in Hi.
      destruct (fops_covers i ltac:(lia)); auto.
Qed.
End Fops_built.

(** [find_or_put_sorted] on a table that the code built. *)
Lemma find_or_put_sorted_built (c : Cuckoo) (start : nat -> Z) (len : nat)
    (results_at : nat -> nat) (s : dstate (list Z) Result) :
  wf_cuckoo c -> key_width c <= row_width c -> built c (d_st s) ->
  Z.of_nat len <= 2 ^ 31 ->
  (forall i, (i < len)%nat -> 0 <= start i < 2 ^ key_width c) ->
  (forall i j, (i < len)%nat -> (j < len)%nat ->
     results_at i = results_at j -> i = j) ->
  (forall i, (i < len)%nat -> (results_at i < length (d_res s))%nat) ->
  let r := find_or_put_sorted c start len results_at s in
  snd r = Some tt
  /\ built c (d_st (fst r))
  /\ (sorted start len -> NoDup (stored c (d_st s)) ->
      NoDup (stored c (d_st (fst r))))
  /\ ((forall i, (i < len)%nat ->
         d_res (fst r) !! results_at i <> Some FULL) ->
      forall k, 0 <= k < 2 ^ key_width c ->
        coop_find c (d_st (fst r)) k
        = coop_find c (d_st s) k
          || existsb (Z.eqb k) (map start (seq 0 len))).
Proof.
  intros Hwf Hfit Hb Hshort Hkeys Hinj Hin r.
  destruct (fops_calls_built c Hwf Hfit start len (d_st s) Hb Hkeys)
    as (rows' & rs & Hrun & Hb' & Hnd & Hall).
  destruct (find_or_put_sorted_run c start len results_at s
              (wf_bucket_pos c Hwf) (wf_bucket_div c Hwf) Hshort Hinj Hin
              rows' rs Hrun) as (Hr & Hst & _ & Hres & _).
  fold r in Hr, Hst, Hres. rewrite Hst.
  split; [exact Hr|]. split; [exact Hb'|]. split; [exact Hnd|].
  intros Hfull k Hk. apply lookup_eq_set; auto. apply Hall.
  apply Forall_forall. intros [i res] Hir. cbn [snd]. intros ->.
  apply list_elem_of_In in Hir.
  pose proof (run_calls_positions _ _ _ _ _ _ _ Hrun) as Hps.
  assert (In i (List.filter (to_put c start len (d_st s)) (seq 0 len)))
    as Hi by (rewrite <- Hps; apply in_map_iff; exists (i, FULL); auto).
  apply List.filter_In in Hi as [_ Hi].
  apply to_put_spec in Hi as (Hlt & Hf & Hnf).
  apply (Hfull i Hlt). rewrite (Hres i Hlt). unfold fops_result.
  rewrite Hf, Hnf. apply result_at_NoDup; [|exact Hir].
  rewrite Hps. apply NoDup_filter_seq.
Qed.


Lemma view_keys (b : buffers) k :
  In k (map (key_view (sorted_buffers b)) (seq 0 (length (b_keys b))))
  <-> In k (b_keys b).
Proof.
  rewrite in_map_iff. split.
  - intros (j & <- & Hj). apply in_seq in Hj.
    apply list_elem_of_In, list_elem_of_lookup.
    exists (res_view (sorted_buffers b) j). apply view_key. lia.
  - intros Hk. apply list_elem_of_In, list_elem_of_lookup in Hk as [i Hi].
    destruct (view_surj b i (lookup_lt_Some _ _ _ Hi)) as (j & Hj & E).
    exists j. split; [|apply in_seq; lia].
    pose proof (view_key b j Hj) as H. rewrite E, Hi in H. congruence.
Qed.

(** ** Capacity *)

Lemma length_omap_le {A B} (f : A -> option B) l :
  (length (omap f l) <= length l)%nat.
Proof.
  induction l as [|x l IH]; cbn; [lia|]. destruct (f x); cbn; lia.
Qed.

Lemma stored_app c l1 l2 :
  stored c (l1 ++ l2)
  = stored c l1 ++ omap id (imap (fun n => decode c (length l1 + n)) l2).
Proof. unfold stored. rewrite imap_app, omap_app. reflexivity. Qed.

Lemma omap_decode_zeros c a (l : list Z) :
  Forall (fun y => y = 0) l ->
  omap id (imap (fun n => decode c (a + n)) l) = [].
Proof.
  intros Hz.
  destruct (omap id (imap (fun n => decode c (a + n)) l)) as [|k l'] eqn:E;
    [reflexivity|].
  assert (k ∈ omap id (imap (fun n => decode c (a + n)) l)) as Hk
    by (rewrite E; left).
  apply list_elem_of_omap in Hk as (o & Ho & Eo).
  apply list_elem_of_lookup in Ho as [idx Hidx].
  rewrite list_lookup_imap in Hidx.
  destruct (l !! idx) as [row|] eqn:Er; [|discriminate].
  rewrite Forall_lookup in Hz. rewrite (Hz idx row Er) in Hidx.
  cbn in Hidx. injection Hidx as <-. discriminate.
Qed.

(** A table that the code built stores at most as many keys as it has
    slots in its buckets. *)
Lemma stored_capacity c rows :
  wf_cuckoo c -> built c rows ->
  Z.of_nat (length (stored c rows))
  <= 2 ^ addr_width c * Z.of_nat (bucket_size c).
Proof.
  intros Hwf [Hok Hslots].
  pose proof (pow_addr_pos c Hwf) as Hp.
  pose proof (wf_bucket_pos c Hwf) as HB.
  set (N := Z.to_nat (2 ^ addr_width c * Z.of_nat (bucket_size c))).
  rewrite <- (take_drop N rows), stored_app.
  rewrite omap_decode_zeros, app_nil_r.
  - etransitivity; [apply inj_le, length_omap_le|].
    rewrite length_imap, length_take. lia.
  - apply Forall_lookup. intros i x Hx. rewrite lookup_drop in Hx.
    destruct (Z.eq_dec x 0) as [|Hnz]; [assumption|exfalso].
    assert (rd rows (N + i) = x) as Hrd by (unfold rd; rewrite Hx; reflexivity).
    destruct (Hslots (N + i)%nat ltac:(rewrite Hrd; exact Hnz))
      as (h & k & [Hh Hk] & E & _).
    pose proof (addr_row_addr_range c Hwf h k Hh Hk) as Ha.
    rewrite E in Ha. cbn [fst] in Ha.
    pose proof (Nat.div_mod (N + i) (bucket_size c) ltac:(lia)).
    pose proof (Nat.mod_upper_bound (N + i) (bucket_size c) ltac:(lia)).
    unfold N in *. nia.
Qed.

(** ** The results of find-or-put and the table *)

Section Put_accounts.
Context (c : Cuckoo) (Hwf : wf_cuckoo c).
Context (Hfit : key_width c <= row_width c).
Context (tl : nat -> Tile) (start : nat -> Z).


End Put_accounts.


(** ** What [count] counts *)

Lemma length_filter_map {A B} (p : B -> bool) (f : A -> B) l :
  length (List.filter p (map f l))
  = length (List.filter (fun x => p (f x)) l).
Proof. rewrite filter_map_comm. apply length_map. Qed.

Lemma sum_list_map_add {H} (f g : H -> nat) hs :
  sum_list (map (fun h => (f h + g h)%nat) hs)
  = (sum_list (map f hs) + sum_list (map g hs))%nat.
Proof.
  induction hs as [|h hs IH]; [reflexivity|].
  cbn [map sum_list_with]. rewrite IH. unfold id. lia.
Qed.

Lemma sum_b2n_unique {H} (p : H -> bool) hs :
  NoDup hs ->
  (forall h h', In h hs -> In h' hs -> p h = true -> p h' = true -> h = h') ->
  sum_list (map (fun h => Nat.b2n (p h)) hs) = Nat.b2n (existsb p hs).
Proof.
  intros Hnd. induction Hnd as [|h hs Hh Hnd IH]; intros Hu; [reflexivity|].
  cbn [map sum_list_with existsb].
  rewrite IH by (intros h1 h2 H1 H2; apply Hu; auto using in_cons).
  unfold id. destruct (p h) eqn:Ep; cbn [orb Nat.b2n]; [|reflexivity].
  destruct (existsb p hs) eqn:Ee; [|reflexivity].
  apply existsb_exists in Ee as (h' & Hin & Hp').
  destruct Hh. rewrite (Hu h h'); auto using in_eq, in_cons.
  apply list_elem_of_In. exact Hin.
Qed.

(** Sums of lengths of filters, for predicates of which at most one holds
    of any element. *)
Lemma sum_filters_disjoint {A H} (g : H -> A -> bool) (hs : list H)
    (l : list A) :
  NoDup hs ->
  (forall x h h', In x l -> In h hs -> In h' hs ->
     g h x = true -> g h' x = true -> h = h') ->
  sum_list (map (fun h => length (List.filter (g h) l)) hs)
  = length (List.filter (fun x => existsb (fun h => g h x) hs) l).
Proof.
  intros Hnd. induction l as [|x l IH]; intros Hu.
  - cbn [List.filter length]. induction hs as [|h hs IHh]; [reflexivity|].
    cbn [map sum_list_with]. apply NoDup_cons in Hnd as [_ Hnd].
    rewrite IHh; [reflexivity|exact Hnd|]. intros x h1 h2 [].
  - rewrite (map_ext _ (fun h => (Nat.b2n (g h x)
                                  + length (List.filter (g h) l))%nat))
      by (intros h; cbn [List.filter]; destruct (g h x); reflexivity).
    rewrite sum_list_map_add, IH
      by (intros x0 h1 h2 Hx; apply Hu; right; exact Hx).
    rewrite (sum_b2n_unique (fun h => g h x) hs Hnd)
      by (intros h1 h2; apply Hu; left; reflexivity).
    cbn [List.filter]. destruct (existsb _ hs); reflexivity.
Qed.

Lemma flat_map_all_nil {A B} (f : A -> list B) (l : list A) :
  (forall x, In x l -> f x = []) -> flat_map f l = [].
Proof.
  induction l as [|x l IH]; intros Hf; [reflexivity|].
  cbn [flat_map]. rewrite (Hf x (or_introl eq_refl)), IH; [reflexivity|].
  intros y Hy. apply Hf. right. exact Hy.
Qed.

Lemma flat_map_single {A B} (f : A -> list B) (l : list A) a :
  NoDup l -> In a l -> (forall x, In x l -> x <> a -> f x = []) ->
  flat_map f l = f a.
Proof.
  intros Hnd. induction Hnd as [|x l Hx Hnd IH]; intros Ha Hf; [destruct Ha|].
  cbn [flat_map]. destruct Ha as [->|Ha].
  - rewrite flat_map_all_nil; [apply app_nil_r|].
    intros y Hy. apply Hf; [right; exact Hy|].
    intros ->. apply Hx, list_elem_of_In, Hy.
  - rewrite (Hf x (or_introl eq_refl));
      [|intros ->; apply Hx, list_elem_of_In, Ha].
    cbn. apply IH; [exact Ha|]. intros y Hy. apply Hf. right. exact Hy.
Qed.

Section Count.
Context (c : Cuckoo) (Hwf : wf_cuckoo c).
Context (Hfit : key_width c <= row_width c).

(** The slots of the bucket [a] that satisfy [P], among the slots of the
    first [A] buckets. *)
Lemma filter_bucket_slots (P : nat -> bool) (a A : nat) :
  (a < A)%nat ->
  List.filter (fun idx => (idx / bucket_size c =? a)%nat && P idx)
    (seq 0 (A * bucket_size c))
  = map (fun r => (a * bucket_size c + r)%nat)
      (List.filter (fun r => P (a * bucket_size c + r)%nat)
         (seq 0 (bucket_size c))).
Proof.
  intros Ha. pose proof (wf_bucket_pos c Hwf) as HB.
  rewrite <- (tile_positions c), filter_flat_map.
  rewrite (flat_map_single _ _ a);
    [|apply NoDup_seq|apply in_seq; lia|].
  - rewrite filter_map_comm. f_equal. apply List.filter_ext_in.
    intros r Hr. apply in_seq in Hr.
    replace ((a * bucket_size c + r) / bucket_size c)%nat with a;
      [rewrite Nat.eqb_refl; reflexivity|].
    apply Nat.div_unique with r; lia.
  - intros T _ HT. apply filter_nil_all. intros idx Hidx.
    apply in_map_iff in Hidx as (r & <- & Hr). apply in_seq in Hr.
    replace ((T * bucket_size c + r) / bucket_size c)%nat with T;
      [|apply Nat.div_unique with r; lia].
    destruct (Nat.eqb_spec T a); [contradiction|reflexivity].
Qed.

Lemma occurrences_slots rows k :
  occurrences c rows k
  = length (List.filter (slot_stores c rows k) (seq 0 (length rows))).
Proof.
  unfold occurrences. induction rows as [|x rows IH] using rev_ind;
    [reflexivity|].
  rewrite stored_app, List.filter_app, length_app, IH.
  rewrite length_app. cbn [length]. rewrite Nat.add_1_r, seq_S.
  rewrite List.filter_app, length_app. cbn [Nat.add]. f_equal.
  - f_equal. apply List.filter_ext_in. intros idx Hidx. apply in_seq in Hidx.
    unfold slot_stores, rd. rewrite lookup_app_l by lia. reflexivity.
  - assert (omap id (imap (fun n => decode c (length rows + n)) [x])
            = option_list (decode c (length rows) x)) as ->.
    { cbn [imap]. rewrite Nat.add_0_r.
      destruct (decode c (length rows) x); reflexivity. }
    assert (slot_stores c (rows ++ [x]) k (length rows)
            = bool_decide (decode c (length rows) x = Some k)) as E.
    { unfold slot_stores, rd. rewrite lookup_app_r, Nat.sub_diag by lia.
      reflexivity. }
    cbn [List.filter]. rewrite E.
    destruct (decode c (length rows) x) as [k'|].
    + change (option_list (Some k')) with [k']. cbn [List.filter].
      destruct (Z.eqb_spec k k') as [->|Hne].
      * rewrite bool_decide_eq_true_2 by reflexivity. reflexivity.
      * rewrite bool_decide_eq_false_2 by congruence. reflexivity.
    + change (option_list None) with (@nil Z).
      rewrite bool_decide_eq_false_2 by discriminate. reflexivity.
Qed.
End Count.

Section Count_built.
Context (c : Cuckoo) (Hwf : wf_cuckoo c).
Context (Hfit : key_width c <= row_width c).
Context (rows : list Z) (Hb : built c rows).
Context (k : Z) (Hk : 0 <= k < 2 ^ key_width c).

Lemma counted_spec h idx :
  counted c rows k h idx = true
  <-> addr_row c h k = (Z.of_nat (idx / bucket_size c), rd rows idx).
Proof.
  unfold counted. rewrite andb_true_iff, !Z.eqb_eq.
  destruct (addr_row c h k) as [addr row]. cbn [fst snd]. split.
  - intros [-> ->]. reflexivity.
  - intros [= -> ->]. auto.
Qed.

Lemma counted_unique h h' idx :
  0 <= h < n_hash_functions c -> 0 <= h' < n_hash_functions c ->
  counted c rows k h idx = true -> counted c rows k h' idx = true -> h = h'.
Proof.
  intros Hh Hh' E E'. apply counted_spec in E, E'.
  rewrite <- E' in E.
  apply (addr_row_inj c h k h' k Hwf Hfit); [split|split|]; assumption.
Qed.

Lemma slot_stores_counted idx :
  slot_stores c rows k idx
  = existsb (fun h => counted c rows k h idx) (seqZ 0 (n_hash_functions c)).
Proof.
  apply eq_true_iff_eq. unfold slot_stores.
  rewrite bool_decide_eq_true, existsb_exists. split.
  - intros Ed.
    assert (rd rows idx <> 0) as Hnz by (intros E; rewrite E in Ed; discriminate).
    destruct (built_slots c rows Hb idx Hnz) as (h0 & k0 & [Hh0 Hk0] & E & _).
    pose proof (hash_key_addr_row c Hwf h0 k0 Hfit Hh0 Hk0) as Hrt.
    rewrite E in Hrt. cbn [fst snd] in Hrt.
    unfold decode in Ed. rewrite Hrt in Ed. injection Ed as ->.
    exists h0. split; [apply list_elem_of_In, elem_of_seqZ; lia|].
    apply counted_spec. exact E.
  - intros (h & Hin & E). apply list_elem_of_In, elem_of_seqZ in Hin.
    apply counted_spec in E.
    pose proof (hash_key_addr_row c Hwf h k Hfit ltac:(lia) Hk) as Hrt.
    rewrite E in Hrt. cbn [fst snd] in Hrt.
    unfold decode. rewrite Hrt. reflexivity.
Qed.

Lemma counted_in_range h idx :
  0 <= h < n_hash_functions c -> counted c rows k h idx = true ->
  (idx < Z.to_nat (2 ^ addr_width c) * bucket_size c)%nat.
Proof.
  intros Hh E. apply counted_spec in E.
  pose proof (addr_row_addr_range c Hwf h k Hh Hk) as Ha.
  rewrite E in Ha. cbn [fst] in Ha.
  pose proof (wf_bucket_pos c Hwf) as HB.
  pose proof (Nat.div_mod idx (bucket_size c) ltac:(lia)).
  pose proof (Nat.mod_upper_bound idx (bucket_size c) ltac:(lia)).
  nia.
Qed.

Lemma counted_bucket h :
  0 <= h < n_hash_functions c ->
  length (List.filter (counted c rows k h)
            (seq 0 (Z.to_nat (2 ^ addr_width c) * bucket_size c)))
  = length (List.filter (Z.eqb (snd (addr_row c h k)))
              (bucket c rows (fst (addr_row c h k)))).
Proof.
  intros Hh. pose proof (addr_row_addr_range c Hwf h k Hh Hk) as Ha.
  set (a := Z.to_nat (fst (addr_row c h k))).
  rewrite (List.filter_ext _
             (fun idx => (idx / bucket_size c =? a)%nat
                         && (snd (addr_row c h k) =? rd rows idx))).
  - rewrite filter_bucket_slots by (exact Hwf || (unfold a; lia)).
    rewrite length_map. unfold bucket. rewrite length_filter_map.
    f_equal. apply List.filter_ext. intros r.
    rewrite (slot_eq c Hwf) by exact Ha. reflexivity.
  - intros idx. unfold counted. rewrite (Z.eqb_sym (rd rows idx)). f_equal.
    unfold a. destruct (Nat.eqb_spec (idx / bucket_size c)
                          (Z.to_nat (fst (addr_row c h k)))) as [E|E].
    + apply Z.eqb_eq. lia.
    + apply Z.eqb_neq. lia.
Qed.

(** On a table that the code built, [count] is the number of slots that
    store the key. *)
Lemma count_occurrences : count c rows k = occurrences c rows k.
Proof.
  pose proof (wf_hash c Hwf) as HH.
  rewrite occurrences_slots.
  set (N := (Z.to_nat (2 ^ addr_width c) * bucket_size c)%nat).
  assert (N <= length rows)%nat as HN.
  { pose proof (ok_length c rows (built_ok c rows Hb)).
    pose proof (pow_addr_pos c Hwf). unfold N. nia. }
  replace (length rows) with (N + (length rows - N))%nat by lia.
  rewrite seq_app, List.filter_app.
  rewrite (filter_nil_all _ (seq (0 + N) (length rows - N))).
  - rewrite app_nil_r.
    rewrite (List.filter_ext _ _ slot_stores_counted).
    rewrite <- sum_filters_disjoint.
    + unfold count. f_equal. apply map_ext_in. intros h Hh.
      apply list_elem_of_In, elem_of_seqZ in Hh.
      pose proof (counted_bucket h ltac:(lia)) as E. fold N in E.
      cbv beta. rewrite E.
      destruct (addr_row c h k); reflexivity.
    + apply NoDup_seqZ.
    + intros idx h h' _ Hh Hh'.
      apply list_elem_of_In, elem_of_seqZ in Hh, Hh'.
      apply counted_unique; lia.
  - intros idx Hidx. apply in_seq in Hidx.
    rewrite slot_stores_counted. apply not_true_iff_false. intros E.
    apply existsb_exists in E as (h & Hh & E).
    apply list_elem_of_In, elem_of_seqZ in Hh.
    pose proof (counted_in_range h idx ltac:(lia) E). fold N in H. lia.
Qed.
End Count_built.

Lemma length_filter_perm {A} (f : A -> bool) (l l' : list A) :
  l ≡ₚ l' -> length (List.filter f l) = length (List.filter f l').
Proof.
  induction 1 as [|x l l' _ IH|x y l|l l' l'' _ IH1 _ IH2]; cbn [List.filter].
  - reflexivity.
  - destruct (f x); cbn [length]; congruence.
  - destruct (f x), (f y); reflexivity.
  - congruence.
Qed.

Lemma length_filter_NoDup (k : Z) (l : list Z) :
  NoDup l ->
  (length (List.filter (Z.eqb k) l) <= 1)%nat
  /\ (k ∈ l -> length (List.filter (Z.eqb k) l) = 1%nat).
Proof.
  induction 1 as [|x l Hx _ IH]; cbn [List.filter].
  - split; [cbn; lia|]. intros H. inversion H.
  - destruct (Z.eqb_spec k x) as [->|Hne].
    + assert (List.filter (Z.eqb x) l = []) as ->.
      { apply filter_nil_all. intros y Hy. apply Z.eqb_neq. intros ->.
        apply Hx, list_elem_of_In, Hy. }
      split; [cbn; lia|reflexivity].
    + destruct IH as [IH1 IH2]. split; [exact IH1|].
      intros Hin. apply elem_of_cons in Hin as [E|Hin]; [congruence|auto].
Qed.

(** ** The results of [find_or_put_sorted] and the table *)




(** ** The dispatchers and the host functions *)



(** X10.  [find] on a range of at most [2^31] keys, in which the
    [unsigned int] positions of its launch do not wrap around, completes
    and leaves the table as it is; afterwards
    result [i] is what [coop_find] returns for key [i] on that table, for
    every position of the range, duplicates included, and the other
    results are unchanged.  On a table that the code built, with keys of
    the universe not wider than a row, result [i] is true if and only if
    key [i] is stored in the table. *)
Theorem X10_find_results (c : Cuckoo) (start : nat -> Z) (len : nat)
    (results_at : nat -> nat) (s : dstate (list Z) bool) :
  wf_cuckoo c -> Z.of_nat len <= 2 ^ 31 ->
  (forall i j, (i < len)%nat -> (j < len)%nat ->
     results_at i = results_at j -> i = j) ->
  (forall i, (i < len)%nat -> (results_at i < length (d_res s))%nat) ->
  let r := find c start len results_at s in
  snd r = Some tt
  /\ d_st (fst r) = d_st s
  /\ (forall i, (i < len)%nat ->
        d_res (fst r) !! results_at i
        = Some (coop_find c (d_st s) (start i)))
  /\ length (d_res (fst r)) = length (d_res s)
  /\ (forall p, (forall i, (i < len)%nat -> results_at i <> p) ->
        d_res (fst r) !! p = d_res s !! p)
  /\ (key_width c <= row_width c -> built c (d_st s) ->
      forall i, (i < len)%nat -> 0 <= start i < 2 ^ key_width c ->
        (d_res (fst r) !! results_at i = Some true
         <-> start i ∈ stored c (d_st s))).
Proof.
  intros Hwf Hshort Hinj Hin r.
  pose proof (covers_launch_grid c len (wf_bucket_pos c Hwf)
                (wf_bucket_div c Hwf) Hshort) as Hcov.
  destruct (coop_run c (find_bool c) (launch_grid len) start len results_at
              Hcov Hinj s _ _ Hin
              (run_calls_find_bool c _ start (seq 0 len) (d_st s)))
    as (Hr & Hst & _ & Hres & Hlen & Hfr & _).
  fold (find c start len results_at s) in Hr, Hst, Hres, Hlen, Hfr.
  fold r in Hr, Hst, Hres, Hlen, Hfr.
  assert (forall i, (i < len)%nat ->
            d_res (fst r) !! results_at i
            = Some (coop_find c (d_st s) (start i))) as Hres'.
  { intros i Hi. rewrite (Hres i Hi).
    apply (result_at_map (fun j => coop_find c (d_st s) (start j))).
    apply in_seq. lia. }
  split; [exact Hr|]. split; [exact Hst|]. split; [exact Hres'|].
  split; [exact Hlen|]. split; [exact Hfr|].
  intros Hfit Hb i Hi Hk. rewrite (Hres' i Hi).
  rewrite <- (coop_find_stored c Hwf Hfit (d_st s) (start i) Hb Hk).
  split; [intros [= ->]; reflexivity|intros ->; reflexivity].
Qed.

Lemma X10_find_results_witness :
  let r := find tiny_table (rd tiny_keys) 3 id tiny_find_state in
  snd r = Some tt
  /\ d_st (fst r) = d_st tiny_find_state
  /\ (forall i, (i < 3)%nat ->
        d_res (fst r) !! id i
        = Some (coop_find tiny_table (d_st tiny_find_state)
                  (rd tiny_keys i)))
  /\ length (d_res (fst r)) = length (d_res tiny_find_state)
  /\ (forall p, (forall i, (i < 3)%nat -> id i <> p) ->
        d_res (fst r) !! p = d_res tiny_find_state !! p)
  /\ (key_width tiny_table <= row_width tiny_table ->
      built tiny_table (d_st tiny_find_state) ->
      forall i, (i < 3)%nat ->
        0 <= rd tiny_keys i < 2 ^ key_width tiny_table ->
        (d_res (fst r) !! id i = Some true
         <-> rd tiny_keys i ∈ stored tiny_table (d_st tiny_find_state))).
Proof.
  apply (X10_find_results tiny_table (rd tiny_keys) 3 id tiny_find_state).
  - exact tiny_table_wf.
  - lia.
  - intros i j _ _ E. exact E.
  - intros i Hi. cbn. exact Hi.
Defined.

(** X11.  [put] on a table that the code built, for a range of at most
    [2^31] keys of the universe (so that the [unsigned int] positions of
    its launch do not wrap around): it completes, every result is [PUT] or [FULL], and the table is again
    one that the code built.  When no result is [FULL], the keys stored
    afterwards are the keys stored before and one copy of the key of every
    position of the range (a key that occurs twice, or was stored already,
    is then stored more than once: [put] does not handle duplicates), and
    [coop_find] afterwards finds exactly the keys of the range and the
    keys that it found before. *)
Theorem X11_put_results (c : Cuckoo) (start : nat -> Z) (len : nat)
    (results_at : nat -> nat) (s : dstate (list Z) Result) :
  wf_cuckoo c -> key_width c <= row_width c -> built c (d_st s) ->
  Z.of_nat len <= 2 ^ 31 ->
  (forall i, (i < len)%nat -> 0 <= start i < 2 ^ key_width c) ->
  (forall i j, (i < len)%nat -> (j < len)%nat ->
     results_at i = results_at j -> i = j) ->
  (forall i, (i < len)%nat -> (results_at i < length (d_res s))%nat) ->
  let r := put c start len results_at s in
  snd r = Some tt
  /\ built c (d_st (fst r))
  /\ (forall i, (i < len)%nat ->
        d_res (fst r) !! results_at i = Some PUT
        \/ d_res (fst r) !! results_at i = Some FULL)
  /\ ((forall i, (i < len)%nat ->
         d_res (fst r) !! results_at i <> Some FULL) ->
      stored c (d_st (fst r)) ≡ₚ map start (seq 0 len) ++ stored c (d_st s)
      /\ forall k, 0 <= k < 2 ^ key_width c ->
           coop_find c (d_st (fst r)) k
           = coop_find c (d_st s) k
             || existsb (Z.eqb k) (map start (seq 0 len))).
Proof.
  intros Hwf Hfit Hb Hshort Hkeys Hinj Hin r.
  destruct (put_launch c Hwf Hfit false start len results_at s Hb Hshort
              Hkeys Hinj Hin) as (Hr & Hb' & Hres & _ & _ & _ & Hall).
  fold (put c start len results_at s) in Hr, Hb', Hres, Hall.
  fold r in Hr, Hb', Hres, Hall.
  split; [exact Hr|]. split; [exact Hb'|]. split.
  - intros i Hi. destruct (Hres i Hi) as (res & -> & Hnf).
    destruct res; [destruct (Hnf eq_refl eq_refl)|auto..].
  - intros Hfull. destruct (Hall Hfull) as [Hiff Hperm].
    split; [apply Hperm; reflexivity|].
    intros k Hk. apply lookup_eq_set; auto.
Qed.

Lemma X11_put_results_witness :
  let r := put tiny_table (rd tiny_keys) 2 id tiny_put_state in
  (forall i, (i < 2)%nat -> d_res (fst r) !! id i <> Some FULL)
  /\ snd r = Some tt
  /\ built tiny_table (d_st (fst r))
  /\ (forall i, (i < 2)%nat ->
        d_res (fst r) !! id i = Some PUT
        \/ d_res (fst r) !! id i = Some FULL)
  /\ ((forall i, (i < 2)%nat -> d_res (fst r) !! id i <> Some FULL) ->
      stored tiny_table (d_st (fst r))
      ≡ₚ map (rd tiny_keys) (seq 0 2)
         ++ stored tiny_table (d_st tiny_put_state)
      /\ forall k, 0 <= k < 2 ^ key_width tiny_table ->
           coop_find tiny_table (d_st (fst r)) k
           = coop_find tiny_table (d_st tiny_put_state) k
             || existsb (Z.eqb k) (map (rd tiny_keys) (seq 0 2))).
Proof.
  split.
  { intros i Hi.
    do 2 (destruct i as [|i]; [vm_compute; discriminate|]). lia. }
  apply (X11_put_results tiny_table (rd tiny_keys) 2 id tiny_put_state).
  - exact tiny_table_wf.
  - unfold key_width. cbn. lia.
  - apply built_zeros; [cbn; lia|apply Forall_replicate; reflexivity].
  - lia.
  - unfold key_width. intros i Hi.
    do 2 (destruct i as [|i]; [cbn; lia|]). lia.
  - intros i j _ _ E. exact E.
  - intros i Hi. cbn. lia.
Defined.

(** X12.  [put_avoid_dups] on a table that the code built, for a range of
    at most [2^31] keys of the universe (so that the [unsigned int]
    positions of its launch do not wrap around): it completes and leaves a table that the code built; no key
    is stored afterwards that was not stored before or is a key of the
    range; and when no result is [FULL], [coop_find] afterwards finds
    exactly the keys of the range and the keys that it found before. *)
Theorem X12_put_avoid_dups_results (c : Cuckoo) (start : nat -> Z)
    (len : nat) (results_at : nat -> nat) (s : dstate (list Z) Result) :
  wf_cuckoo c -> key_width c <= row_width c -> built c (d_st s) ->
  Z.of_nat len <= 2 ^ 31 ->
  (forall i, (i < len)%nat -> 0 <= start i < 2 ^ key_width c) ->
  (forall i j, (i < len)%nat -> (j < len)%nat ->
     results_at i = results_at j -> i = j) ->
  (forall i, (i < len)%nat -> (results_at i < length (d_res s))%nat) ->
  let r := put_avoid_dups c start len results_at s in
  snd r = Some tt
  /\ built c (d_st (fst r))
  /\ (forall i, (i < len)%nat -> is_Some (d_res (fst r) !! results_at i))
  /\ (forall k, k ∈ stored c (d_st (fst r)) ->
        In k (map start (seq 0 len)) \/ k ∈ stored c (d_st s))
  /\ ((forall i, (i < len)%nat ->
         d_res (fst r) !! results_at i <> Some FULL) ->
      forall k, 0 <= k < 2 ^ key_width c ->
        coop_find c (d_st (fst r)) k
        = coop_find c (d_st s) k
          || existsb (Z.eqb k) (map start (seq 0 len))).
Proof.
  intros Hwf Hfit Hb Hshort Hkeys Hinj Hin r.
  destruct (put_launch c Hwf Hfit true start len results_at s Hb Hshort
              Hkeys Hinj Hin) as (Hr & Hb' & Hres & _ & _ & Hsub & Hall).
  fold (put_avoid_dups c start len results_at s) in Hr, Hb', Hres, Hsub, Hall.
  fold r in Hr, Hb', Hres, Hsub, Hall.
  split; [exact Hr|]. split; [exact Hb'|]. split; [|split; [exact Hsub|]].
  - intros i Hi. destruct (Hres i Hi) as (res & -> & _). eauto.
  - intros Hfull k Hk. destruct (Hall Hfull) as [Hiff _].
    apply lookup_eq_set; auto.
Qed.

Lemma X12_put_avoid_dups_results_witness :
  let r := put_avoid_dups tiny_table (rd tiny_keys) 2 id tiny_put_state in
  (forall i, (i < 2)%nat -> d_res (fst r) !! id i <> Some FULL)
  /\ snd r = Some tt
  /\ built tiny_table (d_st (fst r))
  /\ (forall i, (i < 2)%nat -> is_Some (d_res (fst r) !! id i))
  /\ (forall k, k ∈ stored tiny_table (d_st (fst r)) ->
        In k (map (rd tiny_keys) (seq 0 2))
        \/ k ∈ stored tiny_table (d_st tiny_put_state))
  /\ ((forall i, (i < 2)%nat -> d_res (fst r) !! id i <> Some FULL) ->
      forall k, 0 <= k < 2 ^ key_width tiny_table ->
        coop_find tiny_table (d_st (fst r)) k
        = coop_find tiny_table (d_st tiny_put_state) k
          || existsb (Z.eqb k) (map (rd tiny_keys) (seq 0 2))).
Proof.
  split.
  { intros i Hi.
    do 2 (destruct i as [|i]; [vm_compute; discriminate|]). lia. }
  apply (X12_put_avoid_dups_results tiny_table (rd tiny_keys) 2 id
           tiny_put_state).
  - exact tiny_table_wf.
  - unfold key_width. cbn. lia.
  - apply built_zeros; [cbn; lia|apply Forall_replicate; reflexivity].
  - lia.
  - unfold key_width. intros i Hi.
    do 2 (destruct i as [|i]; [cbn; lia|]). lia.
  - intros i j _ _ E. exact E.
  - intros i Hi. cbn. lia.
Defined.

(** X13.  [find_or_put_sorted] on a table that the code built, for a range
    of at most [2^31] keys of the universe (so that the [unsigned int]
    positions of its launches do not wrap around): it completes and leaves a table that the code built.  If
    the range is sorted and no key was stored twice before, no key is
    stored twice afterwards, whatever the results are.  If no result is
    [FULL], [coop_find] afterwards finds exactly the keys of the range and
    the keys that it found before. *)
Theorem X13_find_or_put_sorted_keeps_keys_unique (c : Cuckoo)
    (start : nat -> Z) (len : nat) (results_at : nat -> nat)
    (s : dstate (list Z) Result) :
  wf_cuckoo c -> key_width c <= row_width c -> built c (d_st s) ->
  Z.of_nat len <= 2 ^ 31 ->
  (forall i, (i < len)%nat -> 0 <= start i < 2 ^ key_width c) ->
  (forall i j, (i < len)%nat -> (j < len)%nat ->
     results_at i = results_at j -> i = j) ->
  (forall i, (i < len)%nat -> (results_at i < length (d_res s))%nat) ->
  let r := find_or_put_sorted c start len results_at s in
  snd r = Some tt
  /\ built c (d_st (fst r))
  /\ (sorted start len -> NoDup (stored c (d_st s)) ->
      NoDup (stored c (d_st (fst r))))
  /\ ((forall i, (i < len)%nat ->
         d_res (fst r) !! results_at i <> Some FULL) ->
      forall k, 0 <= k < 2 ^ key_width c ->
        coop_find c (d_st (fst r)) k
        = coop_find c (d_st s) k
          || existsb (Z.eqb k) (map start (seq 0 len))).
Proof.
  intros Hwf Hfit Hb Hshort Hkeys Hinj Hin.
  apply find_or_put_sorted_built; assumption.
Qed.

Lemma X13_find_or_put_sorted_keeps_keys_unique_witness :
  let r := find_or_put_sorted small_table (rd spread_keys) 4 id small_state in
  (sorted (rd spread_keys) 4
   /\ forall i, (i < 4)%nat -> d_res (fst r) !! id i <> Some FULL)
  /\ snd r = Some tt
  /\ built small_table (d_st (fst r))
  /\ (sorted (rd spread_keys) 4 ->
      NoDup (stored small_table (d_st small_state)) ->
      NoDup (stored small_table (d_st (fst r))))
  /\ ((forall i, (i < 4)%nat -> d_res (fst r) !! id i <> Some FULL) ->
      forall k, 0 <= k < 2 ^ key_width small_table ->
        coop_find small_table (d_st (fst r)) k
        = coop_find small_table (d_st small_state) k
          || existsb (Z.eqb k) (map (rd spread_keys) (seq 0 4))).
Proof.
  split.
  { split; intros i Hi.
    - do 3 (destruct i as [|i]; [cbn; lia|]). lia.
    - do 4 (destruct i as [|i]; [vm_compute; discriminate|]). lia. }
  apply (X13_find_or_put_sorted_keeps_keys_unique small_table
           (rd spread_keys) 4 id small_state).
  - exact small_table_wf.
  - unfold key_width. cbn. lia.
  - apply built_zeros; [cbn; lia|apply Forall_replicate; reflexivity].
  - lia.
  - unfold key_width. intros i Hi.
    do 4 (destruct i as [|i]; [cbn; lia|]). lia.
  - intros i j _ _ E. exact E.
  - intros i Hi. cbn. exact Hi.
Defined.

(** X14.  When [coop_find] finds every key of a range of at most [2^31]
    keys, [find_or_put_sorted] stores [FOUND] at every position, calls
    [coop_put] for none, and leaves the table as it is; so a second call
    for a range whose keys the first call stored changes nothing. *)
Theorem X14_find_or_put_sorted_all_found (c : Cuckoo) (start : nat -> Z)
    (len : nat) (results_at : nat -> nat) (s : dstate (list Z) Result) :
  wf_cuckoo c -> Z.of_nat len <= 2 ^ 31 ->
  (forall i j, (i < len)%nat -> (j < len)%nat ->
     results_at i = results_at j -> i = j) ->
  (forall i, (i < len)%nat -> (results_at i < length (d_res s))%nat) ->
  (forall i, (i < len)%nat -> coop_find c (d_st s) (start i) = true) ->
  let r := find_or_put_sorted c start len results_at s in
  snd r = Some tt
  /\ d_st (fst r) = d_st s
  /\ (forall i, (i < len)%nat ->
        d_res (fst r) !! results_at i = Some FOUND)
  /\ fops_calls c start len (d_st s) = Some (d_st s, [])
  /\ omap called (d_trace (fst r))
     = omap called (d_trace s)
       ++ map (fun i => (i, start i))
            (List.filter (first_at start) (seq 0 len)).
Proof.
  intros Hwf Hshort Hinj Hin Hfound r.
  assert (List.filter (to_put c start len (d_st s)) (seq 0 len) = []) as Hnil.
  { apply filter_nil_all. intros i Hi. apply in_seq in Hi.
    unfold to_put. rewrite Hfound by lia. apply andb_false_r. }
  assert (fops_calls c start len (d_st s) = Some (d_st s, [])) as Hrun
    by (unfold fops_calls; rewrite Hnil; reflexivity).
  destruct (find_or_put_sorted_run c start len results_at s
              (wf_bucket_pos c Hwf) (wf_bucket_div c Hwf) Hshort Hinj Hin
              _ _ Hrun) as (Hr & Hst & _ & Hres & _ & Htr).
  fold r in Hr, Hst, Hres, Htr.
  split; [exact Hr|]. split; [exact Hst|]. split; [|split; [exact Hrun|]].
  - intros i Hi. rewrite (Hres i Hi). unfold fops_result.
    rewrite Hfound by exact Hi. destruct (first_at start i); reflexivity.
  - rewrite Htr, Hnil. cbn [map]. rewrite app_nil_r. reflexivity.
Qed.

Lemma X14_find_or_put_sorted_all_found_witness :
  let r := find_or_put_sorted small_table (rd [1]) 1 id found_state in
  snd r = Some tt
  /\ d_st (fst r) = d_st found_state
  /\ (forall i, (i < 1)%nat -> d_res (fst r) !! id i = Some FOUND)
  /\ fops_calls small_table (rd [1]) 1 (d_st found_state)
     = Some (d_st found_state, [])
  /\ omap called (d_trace (fst r))
     = omap called (d_trace found_state)
       ++ map (fun i => (i, rd [1] i))
            (List.filter (first_at (rd [1])) (seq 0 1)).
Proof.
  apply (X14_find_or_put_sorted_all_found small_table (rd [1]) 1 id
           found_state).
  - exact small_table_wf.
  - lia.
  - intros i j _ _ E. exact E.
  - intros i Hi. cbn. exact Hi.
  - intros i Hi. destruct i as [|i]; [reflexivity|lia].
Defined.

(** X15.  The unsorted [find_or_put] on a table that the code built, for a
    range of keys of the universe within the limits of its [assert]s and
    with enough scratch: it completes, leaves a table that the code built,
    and never stores a key twice when none was stored twice before,
    although the range is not sorted and may repeat keys.  If no result is
    [FULL], [coop_find] afterwards finds exactly the keys of the range and
    the keys that it found before. *)
Theorem X15_find_or_put_keeps_keys_unique (c : Cuckoo) (b : buffers)
    (s : dstate (list Z) Result) :
  wf_cuckoo c -> key_width c <= row_width c -> built c (d_st s) ->
  Forall (fun k => 0 <= k < 2 ^ key_width c) (b_keys b) ->
  Z.of_nat (length (b_keys b)) <= 2 ^ key_bits c - 1 ->
  Z.of_nat (length (b_keys b)) <= 2 ^ 31 - 1 ->
  (2 * length (b_keys b) <= length (b_tmp b))%nat ->
  (length (b_keys b) <= length (d_res s))%nat ->
  let r := find_or_put c b s in
  snd r = Some (sorted_buffers b)
  /\ built c (d_st (fst r))
  /\ (NoDup (stored c (d_st s)) -> NoDup (stored c (d_st (fst r))))
  /\ ((forall i, (i < length (b_keys b))%nat ->
         d_res (fst r) !! i <> Some FULL) ->
      forall k, 0 <= k < 2 ^ key_width c ->
        coop_find c (d_st (fst r)) k
        = coop_find c (d_st s) k || existsb (Z.eqb k) (b_keys b)).
Proof.
  intros Hwf Hfit Hb Hkeys H1 H2 H3 H4. cbv zeta.
  assert (0 <= key_bits c) as Hw.
  { pose proof (wf_key c Hwf). pose proof (wf_addr c Hwf).
    pose proof (wf_rem c Hwf). unfold key_width in *. lia. }
  destruct (find_or_put_sorted_built c (key_view (sorted_buffers b))
              (length (b_keys b)) (res_view (sorted_buffers b)) s
              Hwf Hfit Hb ltac:(lia)) as (Hr & Hb' & Hnd & Hall).
  { intros j Hj. rewrite Forall_lookup in Hkeys.
    apply (Hkeys (res_view (sorted_buffers b) j)). apply view_key. exact Hj. }
  { apply view_inj. }
  { intros j Hj. pose proof (view_lt b j Hj). lia. }
  rewrite (find_or_put_sorts c b s Hw H1 H2 H3). unfold bind.
  destruct (find_or_put_sorted c (key_view (sorted_buffers b))
              (length (b_keys b)) (res_view (sorted_buffers b)) s)
    as [s' o].
  cbn [fst snd] in *. subst o. cbn [ret fst snd].
  split; [reflexivity|]. split; [exact Hb'|].
  split; [apply Hnd, view_sorted|].
  intros Hfull k Hk. rewrite Hall; [|intros j Hj; apply Hfull, view_lt, Hj
                                    |exact Hk].
  f_equal. apply eq_true_iff_eq. rewrite !existsb_eqb_In. apply view_keys.
Qed.

Lemma X15_find_or_put_keeps_keys_unique_witness :
  let r := find_or_put small_table small_buffers small_state in
  snd r = Some (sorted_buffers small_buffers)
  /\ built small_table (d_st (fst r))
  /\ (NoDup (stored small_table (d_st small_state)) ->
      NoDup (stored small_table (d_st (fst r))))
  /\ ((forall i, (i < length (b_keys small_buffers))%nat ->
         d_res (fst r) !! i <> Some FULL) ->
      forall k, 0 <= k < 2 ^ key_width small_table ->
        coop_find small_table (d_st (fst r)) k
        = coop_find small_table (d_st small_state) k
          || existsb (Z.eqb k) (b_keys small_buffers)).
Proof.
  apply (X15_find_or_put_keeps_keys_unique small_table small_buffers
           small_state).
  - exact small_table_wf.
  - unfold key_width. cbn. lia.
  - apply built_zeros; [cbn; lia|apply Forall_replicate; reflexivity].
  - unfold key_width. repeat constructor; cbn; lia.
  - cbn. lia.
  - cbn. lia.
  - cbn. lia.
  - cbn. lia.
Defined.

(** X16.  An empty range: [find], [put], [put_avoid_dups] and
    [find_or_put_sorted] launch no block and leave the table, the results
    and the trace as they are; [find_or_put] passes its [assert]s, leaves
    the scratch buffer as it is and does the same. *)
Theorem X16_empty_range (c : Cuckoo) (start : nat -> Z)
    (results_at : nat -> nat) (s : dstate (list Z) Result)
    (sb : dstate (list Z) bool) (tmp : list Z) :
  0 <= key_bits c ->
  find c start 0 results_at sb = (sb, Some tt)
  /\ put c start 0 results_at s = (s, Some tt)
  /\ put_avoid_dups c start 0 results_at s = (s, Some tt)
  /\ find_or_put_sorted c start 0 results_at s = (s, Some tt)
  /\ find_or_put c {| b_keys := []; b_tmp := tmp |} s
     = (s, Some {| b_keys := []; b_tmp := tmp |}).
Proof.
  intros Hw.
  assert (forall St Rs (body : nat -> nat -> @M St Rs unit) x,
            kernel c (launch_grid 0) 0 body x = (x, Some tt)) as Hk.
  { intros St Rs body x. unfold kernel, launch_grid, n_threads.
    cbn [grid_dim block_dim]. change ((0 + Z.to_nat block_size - 1)
      / Z.to_nat block_size)%nat with 0%nat.
    cbn [Nat.mul]. rewrite Nat.Div0.div_0_l. reflexivity. }
  split; [apply Hk|]. split; [apply Hk|]. split; [apply Hk|].
  assert (forall st ra, find_or_put_sorted c st 0 ra s = (s, Some tt)) as Hf.
  { intros st ra.
    unfold find_or_put_sorted, bind, coop_sorted, put_if_not_found_sorted.
    rewrite !Hk. reflexivity. }
  split; [apply Hf|].
  pose proof (Z.pow_pos_nonneg 2 (key_bits c) ltac:(lia) Hw) as Hp.
  rewrite find_or_put_sorts; [|exact Hw|cbn; lia..].
  unfold bind. cbn [b_keys length]. rewrite Hf. reflexivity.
Qed.

Lemma X16_empty_range_witness :
  find small_table (rd []) 0 id tiny_find_state = (tiny_find_state, Some tt)
  /\ put small_table (rd []) 0 id small_state = (small_state, Some tt)
  /\ put_avoid_dups small_table (rd []) 0 id small_state
     = (small_state, Some tt)
  /\ find_or_put_sorted small_table (rd []) 0 id small_state
     = (small_state, Some tt)
  /\ find_or_put small_table {| b_keys := []; b_tmp := [7; 8] |} small_state
     = (small_state, Some {| b_keys := []; b_tmp := [7; 8] |}).
Proof.
  apply (X16_empty_range small_table (rd []) id small_state tiny_find_state
           [7; 8]).
  cbn. lia.
Defined.

(** X17.  Capacity.  A table that the code built stores at most
    [2^addr_width * bucket_size] keys, and when [put], for a range of at
    most [2^31] keys, returns no [FULL]
    the keys stored before and the keys of the range together are at most
    that many: a [put] of more keys than the table has free slots returns
    [FULL] for at least one of them. *)
Theorem X17_put_within_capacity (c : Cuckoo) (start : nat -> Z) (len : nat)
    (results_at : nat -> nat) (s : dstate (list Z) Result) :
  wf_cuckoo c -> key_width c <= row_width c -> built c (d_st s) ->
  Z.of_nat len <= 2 ^ 31 ->
  (forall i, (i < len)%nat -> 0 <= start i < 2 ^ key_width c) ->
  (forall i j, (i < len)%nat -> (j < len)%nat ->
     results_at i = results_at j -> i = j) ->
  (forall i, (i < len)%nat -> (results_at i < length (d_res s))%nat) ->
  (forall i, (i < len)%nat ->
     d_res (fst (put c start len results_at s)) !! results_at i
     <> Some FULL) ->
  Z.of_nat (length (stored c (d_st s))) + Z.of_nat len
  <= 2 ^ addr_width c * Z.of_nat (bucket_size c).
Proof.
  intros Hwf Hfit Hb Hshort Hkeys Hinj Hin Hfull.
  destruct (put_launch c Hwf Hfit false start len results_at s Hb Hshort
              Hkeys Hinj Hin) as (_ & Hb' & _ & _ & _ & _ & Hall).
  destruct (Hall Hfull) as [_ Hperm]. specialize (Hperm eq_refl).
  pose proof (stored_capacity c _ Hwf Hb') as Hcap.
  apply Permutation_length in Hperm.
  rewrite length_app, length_map, length_seq in Hperm.
  lia.
Qed.

Lemma X17_put_within_capacity_witness :
  Z.of_nat (length (stored tiny_table (d_st tiny_put_state))) + Z.of_nat 2
  <= 2 ^ addr_width tiny_table * Z.of_nat (bucket_size tiny_table).
Proof.
  apply (X17_put_within_capacity tiny_table (rd tiny_keys) 2 id
           tiny_put_state).
  - exact tiny_table_wf.
  - unfold key_width. cbn. lia.
  - apply built_zeros; [cbn; lia|apply Forall_replicate; reflexivity].
  - lia.
  - unfold key_width. intros i Hi.
    do 2 (destruct i as [|i]; [cbn; lia|]). lia.
  - intros i j _ _ E. exact E.
  - intros i Hi. cbn. lia.
  - intros i Hi.
    do 2 (destruct i as [|i]; [vm_compute; discriminate|]). lia.
Defined.

(** ** [count] on tables that the code built *)

(** X20.  On a table that the code built, [count] returns the number of
    slots that store the key: the rows it counts in the key's buckets are
    exactly the slots whose row encodes the key.  So it is at most one when
    no key is stored twice. *)
Theorem X20_count_is_number_of_copies (c : Cuckoo) (rows : list Z) (k : Z) :
  wf_cuckoo c -> key_width c <= row_width c -> built c rows ->
  0 <= k < 2 ^ key_width c ->
  count c rows k = occurrences c rows k
  /\ (NoDup (stored c rows) -> (count c rows k <= 1)%nat).
Proof.
  intros Hwf Hfit Hb Hk.
  pose proof (count_occurrences c Hwf Hfit rows Hb k Hk) as E.
  split; [exact E|]. intros Hnd. rewrite E.
  apply (length_filter_NoDup k (stored c rows) Hnd).
Qed.

Lemma X20_count_is_number_of_copies_witness :
  count tiny_table tiny_rows 3 = occurrences tiny_table tiny_rows 3
  /\ (NoDup (stored tiny_table tiny_rows) ->
      (count tiny_table tiny_rows 3 <= 1)%nat).
Proof.
  apply (X20_count_is_number_of_copies tiny_table tiny_rows 3).
  - exact tiny_table_wf.
  - unfold key_width. cbn. lia.
  - exact tiny_rows_built.
  - unfold key_width. cbn. lia.
Defined.

(** X21.  [count] after a put that returns [PUT], on a table that the code
    built: the count of the key put is one more than before, also when the
    key was stored already, and the count of every other key is what it
    was, whatever was evicted on the way. *)
Theorem X21_count_after_put (c : Cuckoo) (avoid : bool) (tile : Tile)
    (fuel : nat) (rows : list Z) (k : Z) :
  wf_cuckoo c -> key_width c <= row_width c -> built c rows ->
  0 <= k < 2 ^ key_width c ->
  let r := coop_put fuel c avoid tile rows k in
  run_out r = Returned PUT ->
  forall k2, 0 <= k2 < 2 ^ key_width c ->
    count c (run_rows r) k2
    = (count c rows k2 + (if (k2 =? k)%Z then 1 else 0))%nat.
Proof.
  intros Hwf Hfit Hb Hk r Hout k2 Hk2.
  pose proof (coop_put_built c Hwf Hfit fuel avoid tile rows k Hb Hk) as Hb'.
  pose proof (coop_put_loop_conserves c Hwf Hfit avoid tile fuel rows k 0 0
                PUT (built_ok c rows Hb) (st_ok_0 c Hwf k Hk) Hout) as Hc.
  cbn [conserves] in Hc. fold (coop_put fuel c avoid tile rows k) in Hc.
  fold r in Hb', Hc.
  rewrite (count_occurrences c Hwf Hfit _ Hb' k2 Hk2).
  rewrite (count_occurrences c Hwf Hfit _ Hb k2 Hk2).
  unfold occurrences. rewrite (length_filter_perm _ _ _ Hc).
  cbn [List.filter]. destruct (k2 =? k); cbn [length]; lia.
Qed.

Lemma X21_count_after_put_witness :
  count small_table
    (run_rows (coop_put 61 small_table false tile0 (d_st found_state) 1)) 1
  = (count small_table (d_st found_state) 1 + 1)%nat
  /\ count small_table
       (run_rows (coop_put 61 small_table false tile0 (d_st found_state) 1)) 5
     = (count small_table (d_st found_state) 5 + 0)%nat.
Proof.
  assert (key_width small_table <= row_width small_table) as Hfit
    by (unfold key_width; cbn; lia).
  assert (built small_table (d_st found_state)) as Hb.
  { apply (coop_put_built small_table small_table_wf Hfit);
      [|unfold key_width; cbn; lia].
    apply built_zeros; [cbn; lia|apply Forall_replicate; reflexivity]. }
  assert (0 <= 1 < 2 ^ key_width small_table) as H1
    by (unfold key_width; cbn; lia).
  assert (0 <= 5 < 2 ^ key_width small_table) as H5
    by (unfold key_width; cbn; lia).
  split.
  - exact (X21_count_after_put small_table false tile0 61
             (d_st found_state) 1 small_table_wf Hfit Hb H1 eq_refl 1 H1).
  - exact (X21_count_after_put small_table false tile0 61
             (d_st found_state) 1 small_table_wf Hfit Hb H1 eq_refl 5 H5).
Defined.

(** X22.  [find_or_put_sorted] on a sorted range of at most [2^31] keys,
    from a table that the code built and that stores no key twice:
    afterwards [count] is at most
    one for every key, and when no position got [FULL] it is exactly one
    for every key of the range, however often the key occurs in it. *)
Theorem X22_find_or_put_sorted_counts (c : Cuckoo)
    (start : nat -> Z) (len : nat) (results_at : nat -> nat)
    (s : dstate (list Z) Result) :
  wf_cuckoo c -> key_width c <= row_width c -> built c (d_st s) ->
  Z.of_nat len <= 2 ^ 31 ->
  (forall i, (i < len)%nat -> 0 <= start i < 2 ^ key_width c) ->
  (forall i j, (i < len)%nat -> (j < len)%nat ->
     results_at i = results_at j -> i = j) ->
  (forall i, (i < len)%nat -> (results_at i < length (d_res s))%nat) ->
  sorted start len -> NoDup (stored c (d_st s)) ->
  let r := find_or_put_sorted c start len results_at s in
  (forall k, 0 <= k < 2 ^ key_width c ->
     (count c (d_st (fst r)) k <= 1)%nat)
  /\ ((forall i, (i < len)%nat ->
         d_res (fst r) !! results_at i <> Some FULL) ->
      forall i, (i < len)%nat -> count c (d_st (fst r)) (start i) = 1%nat).
Proof.
  intros Hwf Hfit Hb Hshort Hkeys Hinj Hin Hs Hnd r.
  destruct (find_or_put_sorted_built c start len results_at s Hwf Hfit Hb
              Hshort Hkeys Hinj Hin) as (_ & Hb' & Hnd' & Hfind).
  fold r in Hb', Hnd', Hfind. specialize (Hnd' Hs Hnd). split.
  - intros k Hk. rewrite (count_occurrences c Hwf Hfit _ Hb' k Hk).
    apply (length_filter_NoDup k _ Hnd').
  - intros Hfull i Hi.
    rewrite (count_occurrences c Hwf Hfit _ Hb' _ (Hkeys i Hi)).
    apply (length_filter_NoDup (start i) _ Hnd').
    apply (coop_find_stored c Hwf Hfit _ _ Hb' (Hkeys i Hi)).
    rewrite (Hfind Hfull _ (Hkeys i Hi)). apply orb_true_iff. right.
    apply existsb_eqb_In, in_map, in_seq. lia.
Qed.

Lemma X22_find_or_put_sorted_counts_witness :
  let r := find_or_put_sorted small_table (rd spread_keys) 4 id small_state in
  (forall i, (i < 4)%nat -> d_res (fst r) !! id i <> Some FULL)
  /\ (forall k, 0 <= k < 2 ^ key_width small_table ->
        (count small_table (d_st (fst r)) k <= 1)%nat)
  /\ ((forall i, (i < 4)%nat -> d_res (fst r) !! id i <> Some FULL) ->
      forall i, (i < 4)%nat ->
        count small_table (d_st (fst r)) (rd spread_keys i) = 1%nat).
Proof.
  split.
  { intros i Hi.
    do 4 (destruct i as [|i]; [vm_compute; discriminate|]). lia. }
  apply (X22_find_or_put_sorted_counts small_table
           (rd spread_keys) 4 id small_state).
  - exact small_table_wf.
  - unfold key_width. cbn. lia.
  - apply built_zeros; [cbn; lia|apply Forall_replicate; reflexivity].
  - lia.
  - unfold key_width. intros i Hi.
    do 4 (destruct i as [|i]; [cbn; lia|]). lia.
  - intros i j _ _ E. exact E.
  - intros i Hi. cbn. exact Hi.
  - intros i Hi.
    do 3 (destruct i as [|i]; [cbn; lia|]). lia.
  - rewrite stored_zeros by (apply Forall_replicate; reflexivity).
    constructor.
Defined.

(** ** The dispatchers stay in the range *)

(** X23.  [coop] and [coop_sorted], for every range, every grid whose
    [blockDim.x] the bucket size divides (as the dispatchers assume) and
    every per-key function: they store results only at positions below [len] and
    call the per-key function only with the key at a position below [len],
    although they iterate up to [len] rounded up to a multiple of the
    bucket size, and [coop] reads [start] only at positions below [len].
    When no [unsigned int] of the kernel wraps around (the number of
    threads is below [2^32] and, added to the rounded length, at most
    [2^32]), [coop_sorted] reads [start] only at positions below [len] as
    well, and both complete whenever the per-key function returns. *)
Theorem X23_dispatchers_stay_in_range {St Rs : Type} (c : Cuckoo)
    (F : @per_key St Rs) (g : Grid) (start : nat -> Z) (len : nat)
    (results_at : nat -> nat) (s : dstate St Rs) :
  (0 < bucket_size c)%nat -> (block_dim g mod bucket_size c = 0)%nat ->
  Forall (fun j => 0 <= j < Z.of_nat len)
    (kernel_reads c g len (fun _ i => coop_thread start len i))
  /\ range_only start len results_at s
       (fst (coop c F g start len results_at s))
  /\ range_only start len results_at s
       (fst (coop_sorted c F g start len results_at s))
  /\ (Z.of_nat (n_threads g) < 2 ^ 32 ->
      Z.of_nat (max_index c len) + Z.of_nat (n_threads g) <= 2 ^ 32 ->
      Forall (fun j => 0 <= j < Z.of_nat len)
        (kernel_reads c g len (sorted_thread start len))
      /\ ((forall tile st k, is_Some (F tile st k)) ->
          snd (coop c F g start len results_at s) = Some tt
          /\ snd (coop_sorted c F g start len results_at s) = Some tt)).
Proof.
  intros HB _. split; [|split; [|split]].
  - apply kernel_reads_in_range. intros T base rank _ _ _.
    unfold coop_thread. cbn [th_reads].
    destruct (Nat.ltb_spec (base + rank) len);
      cbn [bind_l load pure_l fst snd app]; repeat constructor; lia.
  - unfold coop. apply kernel_keeps; [|apply range_only_refl].
    intros T base s' Hs'.
    pose proof (leader_loop_range_only F start len results_at
      (tile_of c g (T * bucket_size c)) _ s s' (coop_lanes_ok c start len T base)
      Hs') as H.
    rewrite length_map, length_tile_threads in H. exact H.
  - unfold coop_sorted. apply kernel_keeps; [|apply range_only_refl].
    intros T base s' Hs'.
    pose proof (leader_loop_range_only F start len results_at
      (tile_of c g (T * bucket_size c)) _ s s'
      (sorted_lanes_ok c start len T base) Hs') as H.
    rewrite length_map, length_tile_threads in H. exact H.
  - intros Hlt Hnw.
    assert (len <= max_index c len)%nat as Hmax.
    { unfold max_index.
      pose proof (Nat.div_mod (len + bucket_size c - 1) (bucket_size c)
                    ltac:(lia)).
      pose proof (Nat.mod_upper_bound (len + bucket_size c - 1)
                    (bucket_size c) ltac:(lia)). nia. }
    split.
    + apply kernel_reads_in_range. intros T base rank HT Hr Hbase.
      destruct (tile_iterations_nowrap c len g T Hlt Hnw HT) as [_ Hge].
      specialize (Hge base Hbase).
      assert (T * bucket_size c + rank < n_threads g)%nat as Hidx.
      { pose proof (Nat.div_mod (n_threads g) (bucket_size c) ltac:(lia)).
        pose proof (Nat.mod_upper_bound (n_threads g) (bucket_size c)
                      ltac:(lia)). nia. }
      rewrite uint_small by lia.
      unfold sorted_thread. cbn [th_reads].
      destruct (Nat.ltb_spec (base + rank) len) as [Hin|Hout];
        [|constructor].
      destruct (Nat.eqb_spec (T * bucket_size c + rank) 0) as [E|E];
        cbn [bind_l load pure_l fst snd app].
      * repeat constructor; lia.
      * rewrite uint_pred_pos by lia. repeat constructor; lia.
    + intros Htot. split.
      * unfold coop. apply kernel_completes.
        -- intros T HT. apply (tile_iterations_nowrap c len g T Hlt Hnw HT).
        -- intros T base s'.
           pose proof (leader_loop_completes F start len results_at
             (tile_of c g (T * bucket_size c)) _ s' Htot
             (coop_lanes_ok c start len T base)) as H.
           rewrite length_map, length_tile_threads in H. exact H.
      * unfold coop_sorted. apply kernel_completes.
        -- intros T HT. apply (tile_iterations_nowrap c len g T Hlt Hnw HT).
        -- intros T base s'.
           pose proof (leader_loop_completes F start len results_at
             (tile_of c g (T * bucket_size c)) _ s' Htot
             (sorted_lanes_ok c start len T base)) as H.
           rewrite length_map, length_tile_threads in H. exact H.
Qed.

Lemma X23_dispatchers_stay_in_range_witness :
  let c := small_table in
  let F := find_key small_table in
  let g := narrow_grid in
  let start := rd same_keys in
  let s := small_state in
  Forall (fun j => 0 <= j < Z.of_nat 4)
    (kernel_reads c g 4 (fun _ i => coop_thread start 4 i))
  /\ range_only start 4 id s (fst (coop c F g start 4 id s))
  /\ range_only start 4 id s (fst (coop_sorted c F g start 4 id s))
  /\ (Z.of_nat (n_threads g) < 2 ^ 32 ->
      Z.of_nat (max_index c 4) + Z.of_nat (n_threads g) <= 2 ^ 32 ->
      Forall (fun j => 0 <= j < Z.of_nat 4)
        (kernel_reads c g 4 (sorted_thread start 4))
      /\ ((forall tile st k, is_Some (F tile st k)) ->
          snd (coop c F g start 4 id s) = Some tt
          /\ snd (coop_sorted c F g start 4 id s) = Some tt)).
Proof.
  apply (X23_dispatchers_stay_in_range small_table (find_key small_table)
           narrow_grid (rd same_keys) 4 id small_state).
  - cbn. lia.
  - reflexivity.
Defined.

(** ** Construction and configuration *)

Lemma bit_width_3 : bit_width 3 = 2.
Proof. reflexivity. Qed.

(** X18.  The constructor, for a bucket size, a number of hash functions
    and widths that the types allow ([addr_width <= key_width < 256], a
    row type of a whole number of bytes, no overflow of the address type
    and of [size_t]) and a [Permute] that is a family of bijections of the
    universe with their inverses: it passes its [assert] exactly when the
    row type holds the state and the remainder,
    [state_width + key_width - addr_width <= row_width]; the table it then
    makes is well formed, has the key width it was given, and is empty:
    every row is 0, [count] is 0 and [coop_find] is false for every key of
    the universe. *)
Theorem X18_constructor (kb ab rw : Z) (B : nat) (p : Permute)
    (H kw aw : Z) :
  (0 < B)%nat -> 32 mod Z.of_nat B = 0 -> 0 < H < 256 ->
  0 <= aw <= kw -> kw < 256 -> kw <= kb -> 8 <= rw ->
  2 ^ aw * Z.of_nat B <= 2 ^ ab ->
  2 ^ aw * (rw / 8) * Z.of_nat B < 2 ^ 64 ->
  (forall i k, 0 <= i < H -> 0 <= k < 2 ^ kw ->
     0 <= permute p i k < 2 ^ kw
     /\ 0 <= inv p i k < 2 ^ kw
     /\ inv p i (permute p i k) = k) ->
  (is_Some (Cuckoo_new kb ab rw B p H kw aw)
   <-> bit_width H + (kw - aw) <= rw)
  /\ forall c rows,
       Cuckoo_new kb ab rw B p H kw aw = Some (c, rows) ->
       wf_cuckoo c
       /\ key_width c = kw
       /\ built c rows
       /\ Forall (fun y => y = 0) rows
       /\ forall k, 0 <= k < 2 ^ kw ->
            count c rows k = 0%nat /\ coop_find c rows k = false.
Proof.
  intros HB Hdiv HH Haw Hkw Hkb Hrw Hab Hsz Hp.
  assert (wrap 8 (kw - aw) = kw - aw) as Erem
    by (apply wrap_small; change (2 ^ 8) with 256; lia).
  assert (0 < 2 ^ aw) as Hpa by (apply Z.pow_pos_nonneg; lia).
  assert (1 <= rw / 8) as Hbytes.
  { apply Z.div_le_lower_bound; lia. }
  assert (wrap 64 (Z.shiftl 1 aw * (rw / 8) * Z.of_nat B)
          = 2 ^ aw * (rw / 8) * Z.of_nat B) as En.
  { rewrite Z.shiftl_1_l. apply wrap_small. nia. }
  unfold Cuckoo_new. cbv zeta. unfold state_width.
  cbn [n_hash_functions rem_width n_rows]. rewrite Erem, En.
  split.
  - destruct (Z.leb_spec (bit_width H + (kw - aw)) rw) as [Hle|Hgt].
    + split; [intros _; exact Hle|eauto].
    + split; [intros [x Hx]; discriminate|lia].
  - intros c rows.
    destruct (Z.leb_spec (bit_width H + (kw - aw)) rw) as [Hle|Hgt];
      [|discriminate].
    intros [= <- <-].
    assert (wf_cuckoo
              {| key_bits := kb; addr_bits := ab; row_width := rw;
                 bucket_size := B; perm := p; n_hash_functions := H;
                 addr_width := aw; rem_width := kw - aw;
                 n_rows := Z.to_nat (2 ^ aw * (rw / 8) * Z.of_nat B) |})
      as Hwf.
    { split; unfold key_width, state_width;
        cbn [bucket_size n_hash_functions addr_width rem_width row_width
             key_bits addr_bits n_rows perm];
        try assumption; try lia.
      - nia.
      - replace (aw + (kw - aw)) with kw by lia. intros i k Hi Hk.
        apply (Hp i k Hi Hk).
      - replace (aw + (kw - aw)) with kw by lia. intros i k Hi Hk.
        apply (Hp i k Hi Hk).
      - replace (aw + (kw - aw)) with kw by lia. intros i k Hi Hk.
        apply (Hp i k Hi Hk). }
    set (n := Z.to_nat (2 ^ aw * (rw / 8) * Z.of_nat B)) in *.
    set (c := {| key_bits := kb; addr_bits := ab; row_width := rw;
                 bucket_size := B; perm := p; n_hash_functions := H;
                 addr_width := aw; rem_width := kw - aw; n_rows := n |}) in *.
    assert (clear c (replicate n 0) = replicate n 0) as Ec.
    { unfold clear. change (n_rows c) with n.
      rewrite drop_ge by (rewrite length_replicate; lia).
      apply app_nil_r. }
    rewrite Ec.
    assert (Forall (fun y => y = 0) (replicate n 0)) as Hz
      by (apply Forall_replicate; reflexivity).
    assert (key_width c = kw) as Ek by (unfold key_width; cbn; lia).
    split; [exact Hwf|]. split; [exact Ek|]. split; [|split; [exact Hz|]].
    + apply built_zeros; [|exact Hz]. rewrite length_replicate.
      apply (wf_n_rows c Hwf).
    + intros k Hk. apply zeros_no_key; [exact Hwf|exact Hz|].
      rewrite Ek. exact Hk.
Qed.

Lemma X18_constructor_witness :
  (is_Some (Cuckoo_new 64 32 32 32 identity_permute 3 21 5)
   <-> bit_width 3 + (21 - 5) <= 32)
  /\ forall c rows,
       Cuckoo_new 64 32 32 32 identity_permute 3 21 5 = Some (c, rows) ->
       wf_cuckoo c
       /\ key_width c = 21
       /\ built c rows
       /\ Forall (fun y => y = 0) rows
       /\ forall k, 0 <= k < 2 ^ 21 ->
            count c rows k = 0%nat /\ coop_find c rows k = false.
Proof.
  apply (X18_constructor 64 32 32 32 identity_permute 3 21 5).
  - lia.
  - reflexivity.
  - lia.
  - lia.
  - lia.
  - lia.
  - lia.
  - cbn. lia.
  - vm_compute. reflexivity.
  - intros i k Hi Hk. cbn. auto.
Defined.

(** X19.  [spec_fits_config] for a Cuckoo table is the [assert] of the
    constructor of the table that [make_table] builds (three hash
    functions, whose state takes the 2 bits that [spec_fits_config] adds):
    for a configuration with [p_addr_width <= key_width], it returns true
    exactly when the constructor passes its [assert].  For a
    configuration with [key_width < p_addr_width] it returns true for
    every row type, while the constructor takes the difference modulo 256
    and passes only if [258 + key_width - p_addr_width <= p_row_width]. *)
Theorem X19_spec_fits_config_cuckoo (spec : TableSpec) (conf : TableConfig)
    (kb ab : Z) (B : nat) (p : Permute) :
  ts_type spec = CUCKOO ->
  0 <= tc_key_width conf < 256 -> 0 <= p_addr_width conf < 256 ->
  1 <= p_row_width spec ->
  let made := Cuckoo_new kb ab (p_row_width spec) B p 3
                (tc_key_width conf) (p_addr_width conf) in
  (p_addr_width conf <= tc_key_width conf ->
   (spec_fits_config spec conf = true <-> is_Some made))
  /\ (tc_key_width conf < p_addr_width conf ->
      spec_fits_config spec conf = true
      /\ (is_Some made
          <-> 258 + tc_key_width conf - p_addr_width conf
              <= p_row_width spec)).
Proof.
  intros Ht Hkw Haw Hrw made. unfold made, spec_fits_config, Cuckoo_new.
  rewrite Ht. cbv zeta. unfold state_width.
  cbn [n_hash_functions rem_width]. rewrite bit_width_3.
  split.
  - intros Hle.
    rewrite (wrap_small 8) by (change (2 ^ 8) with 256; lia).
    destruct (Z.leb_spec (2 + (tc_key_width conf - p_addr_width conf))
                (p_row_width spec)).
    + split; [eauto|reflexivity].
    + split; [discriminate|intros [x Hx]; discriminate].
  - intros Hlt.
    assert (wrap 8 (tc_key_width conf - p_addr_width conf)
            = 256 + tc_key_width conf - p_addr_width conf) as E.
    { unfold wrap. symmetry. apply (Z.mod_unique _ _ (-1));
        change (2 ^ 8) with 256; lia. }
    rewrite E. split; [apply Z.leb_le; lia|].
    destruct (Z.leb_spec
                (2 + (256 + tc_key_width conf - p_addr_width conf))
                (p_row_width spec)).
    + split; [intros _; lia|eauto].
    + split; [intros [x Hx]; discriminate|lia].
Qed.

Lemma X19_spec_fits_config_cuckoo_witness :
  let spec := {| ts_type := CUCKOO; p_row_width := 32; p_bucket_size := 32;
                 s_row_width := 0; s_bucket_size := 0 |} in
  let conf := {| tc_key_width := 21; p_addr_width := 5;
                 s_addr_width := 0 |} in
  let made := Cuckoo_new 64 32 32 32 identity_permute 3 21 5 in
  (5 <= 21 -> (spec_fits_config spec conf = true <-> is_Some made))
  /\ (21 < 5 ->
      spec_fits_config spec conf = true
      /\ (is_Some made <-> 258 + 21 - 5 <= 32)).
Proof.
  apply (X19_spec_fits_config_cuckoo
           {| ts_type := CUCKOO; p_row_width := 32; p_bucket_size := 32;
              s_row_width := 0; s_bucket_size := 0 |}
           {| tc_key_width := 21; p_addr_width := 5; s_addr_width := 0 |}
           64 32 32%nat identity_permute).
  - reflexivity.
  - cbn. lia.
  - cbn. lia.
  - cbn. lia.
Defined.
